(** * The [lz] build and release driver of the Lezer packages

    A shallow embedding of [bin/lezer.js], the command-line tool that
    builds, watches and releases the Lezer packages, and the properties of
    its build driver, watch scheduler and release commands.

    The source comes in two revisions of the same script.  The first one
    (with the [build] and [watch] commands) is embedded at top level; the
    functions that the second revision changes are embedded again in
    [Module Rev2].

    Conventions of the embedding:
    - text is ASCII: a JavaScript string is a [string], scanned as a
      [list ascii];
    - the numbers that the script computes with, the components of a
      version, are doubles, read from text, incremented and printed as
      the language does; modification times in milliseconds, which the
      script only compares, are integers;
    - the file system, the console, the bundler and external commands are
      an explicit [world] threaded through a state-and-error monad; what
      the bundler produces, what the [git] commands of the script print,
      and how a command of the user ends and what it does to the files,
      are parameters of the development. *)

From stdpp Require Import gmap strings list pretty.
From Stdlib Require Import ZArith Ascii String.

Open Scope string_scope.
Open Scope Z_scope.
Open Scope list_scope.

(** ** JavaScript strings *)

Module JS.

Definition chr (n : nat) : ascii := Eval vm_compute in ascii_of_nat n.

Definition LF : ascii := chr 10.
Definition CR : ascii := chr 13.
Definition DQ : ascii := chr 34.

Definition str (c : ascii) : string := String c EmptyString.

(** The two-character string of a blank line, and the double quote. *)
Definition nl : string := str LF.
Definition nlnl : string := nl +:+ nl.
Definition dq : string := str DQ.

Definition chars : string → list ascii := list_ascii_of_string.
Definition text : list ascii → string := string_of_list_ascii.

Definition ord (c : ascii) : nat := nat_of_ascii c.

Definition between (lo hi : nat) (c : ascii) : bool :=
  (lo <=? ord c)%nat && (ord c <=? hi)%nat.

Definition same (c d : ascii) : bool := bool_decide (c = d).

(** [\s] on ASCII text: tab, line feed, vertical tab, form feed, carriage
    return, space. *)
Definition space (c : ascii) : bool := between 9 13 c || same c (chr 32).

(** [\w]: letters, digits and the underscore. *)
Definition word (c : ascii) : bool :=
  between 97 122 c || between 65 90 c || between 48 57 c || same c (chr 95).

(** [[\w-]] *)
Definition word_or_dash (c : ascii) : bool := word c || same c (chr 45).

(** [.]: anything but a line terminator. *)
Definition dot (c : ascii) : bool := negb (same c LF || same c CR).

(** [[^]]: any character. *)
Definition any (_ : ascii) : bool := true.

Definition digit (c : ascii) : bool := between 48 57 c.

(** [s.startsWith]-like stripping of a literal prefix. *)
Fixpoint strip (lit s : list ascii) : option (list ascii) :=
  match lit, s with
  | [], _ => Some s
  | a :: lit', b :: s' => if same a b then strip lit' s' else None
  | _ :: _, [] => None
  end.

(** *** Regular expressions

    The fragment of ECMAScript regular expressions that the script uses,
    with the backtracking order of the language: a greedy star tries the
    longest repetition first, a lazy one the shortest, an alternation its
    left branch first, and a lookahead is matched once and not re-entered. *)

Inductive re :=
| Eps
| Lit (s : string)
| Cls (p : ascii → bool)
| Star (p : ascii → bool)
| StarLazy (p : ascii → bool)
| Seq (a b : re)
| Alt (a b : re)
| Grp (a : re)
| Bol
| Eol
| Ahead (a : re).

Definition caps := list (list ascii).

Section Engine.
Context {R : Type}.

Fixpoint star_greedy (p : ascii → bool) (i : nat) (s : list ascii)
      (k : nat → list ascii → option R) : option R :=
    match s with
    | c :: s' =>
        if p c then
          match star_greedy p (S i) s' k with
          | Some r => Some r
          | None => k i s
          end
        else k i s
    | [] => k i s
    end.

Fixpoint star_lazy (p : ascii → bool) (i : nat) (s : list ascii)
      (k : nat → list ascii → option R) : option R :=
    match k i s with
    | Some r => Some r
    | None =>
        match s with
        | c :: s' => if p c then star_lazy p (S i) s' k else None
        | [] => None
        end
    end.
End Engine.

(** [matches r i s cs k]: match [r] against the input whose remainder from
    index [i] is [s], with the groups captured so far [cs]; [k] is what
    follows [r] in the pattern. *)
Fixpoint matches (r : re) {R : Type} (i : nat) (s : list ascii) (cs : caps)
    (k : nat → list ascii → caps → option R) : option R :=
  match r with
  | Eps => k i s cs
  | Lit l =>
      match strip (chars l) s with
      | Some s' => k (i + String.length l)%nat s' cs
      | None => None
      end
  | Cls p =>
      match s with
      | c :: s' => if p c then k (S i) s' cs else None
      | [] => None
      end
  | Star p => star_greedy p i s (λ i' s', k i' s' cs)
  | StarLazy p => star_lazy p i s (λ i' s', k i' s' cs)
  | Seq a b => matches a i s cs (λ i' s' cs', matches b i' s' cs' k)
  | Alt a b =>
      match matches a i s cs k with
      | Some x => Some x
      | None => matches b i s cs k
      end
  | Grp a => matches a i s cs (λ i' s' cs', k i' s' (cs' ++ [take (i' - i) s]))
  | Bol => if (i =? 0)%nat then k i s cs else None
  | Eol => match s with [] => k i s cs | _ :: _ => None end
  | Ahead a =>
      match matches a i s cs (λ _ _ cs', Some cs') with
      | Some cs' => k i s cs'
      | None => None
      end
  end.

Record found := { stop : nat; rest : list ascii; groups : caps }.

(** A match of [r] that starts exactly at index [i]. *)
Definition match_at (r : re) (i : nat) (s : list ascii) : option found :=
  matches r i s [] (λ j s' cs, Some {| stop := j; rest := s'; groups := cs |}).

(** The leftmost match at or after index [i]: start index and match. *)
Fixpoint search (r : re) (i : nat) (s : list ascii) : option (nat * found) :=
  match match_at r i s with
  | Some m => Some (i, m)
  | None =>
      match s with
      | [] => None
      | _ :: s' => search r (S i) s'
      end
  end.

(** [r.test(s)] for a pattern without the [g] flag. *)
Definition test (r : re) (s : string) : bool :=
  bool_decide (is_Some (search r 0 (chars s))).

(** [while (m = r.exec(s)) ...] for a pattern with the [g] flag: the
    captured groups of the successive matches.  [lastIndex] is where the
    previous match stopped; [skip] counts the characters still to pass
    before that index.  Every pattern of the script consumes a character,
    so the loop ends. *)
Fixpoint exec_loop (r : re) (i skip : nat) (s : list ascii) : list caps :=
  match skip with
  | S n =>
      match s with
      | [] => []
      | _ :: s' => exec_loop r (S i) n s'
      end
  | O =>
      match match_at r i s with
      | Some m =>
          groups m ::
            match s with
            | [] => []
            | _ :: s' => exec_loop r (S i) (stop m - i - 1) s'
            end
      | None =>
          match s with
          | [] => []
          | _ :: s' => exec_loop r (S i) 0 s'
          end
      end
  end.

Definition exec_all (r : re) (s : string) : list caps :=
  exec_loop r 0 0 (chars s).

(** The replacement text of [String.prototype.replace]: [$$] is a dollar
    sign, [$&] the match, [$`] what precedes it, [$'] what follows, and
    [$n] or [$nn] the group of that number when the pattern has it; any
    other [$] stands for itself. *)
Definition group (gs : caps) (n : nat) : option (list ascii) :=
  match n with
  | O => None
  | S n' => gs !! n'
  end.

Fixpoint substitution (by_ matched before after : list ascii) (gs : caps)
    : list ascii :=
  match by_ with
  | [] => []
  | c :: by' =>
      if same c (chr 36) then
        match by' with
        | d :: by'' =>
            if same d (chr 36) then
              chr 36 :: substitution by'' matched before after gs
            else if same d (chr 38) then
              matched ++ substitution by'' matched before after gs
            else if same d (chr 96) then
              before ++ substitution by'' matched before after gs
            else if same d (chr 39) then
              after ++ substitution by'' matched before after gs
            else if digit d then
              let one := group gs (ord d - 48) in
              let two :=
                match by'' with
                | d2 :: by3 =>
                    if digit d2 then
                      match group gs (10 * (ord d - 48) + (ord d2 - 48)) with
                      | Some g => Some (g ++ substitution by3 matched before after gs)
                      | None => None
                      end
                    else None
                | [] => None
                end in
              match two, one with
              | Some out, _ => out
              | None, Some g => g ++ substitution by'' matched before after gs
              | None, None => c :: substitution by' matched before after gs
              end
            else c :: substitution by' matched before after gs
        | [] => [c]
        end
      else c :: substitution by' matched before after gs
  end.

(** [s.replace(r, by)] for a pattern with the [g] flag: every match, from
    left to right; [whole] is the text and [i] the index of [s] in it. *)
Fixpoint replace_loop (r : re) (by_ whole : list ascii) (i skip : nat)
    (s : list ascii) : list ascii :=
  match skip with
  | S n =>
      match s with
      | [] => []
      | _ :: s' => replace_loop r by_ whole (S i) n s'
      end
  | O =>
      match match_at r i s with
      | Some m =>
          substitution by_ (take (stop m - i) s) (take i whole) (rest m) (groups m)
          ++ match s with
             | [] => []
             | c :: s' =>
                 if (stop m =? i)%nat
                 then c :: replace_loop r by_ whole (S i) 0 s'
                 else replace_loop r by_ whole (S i) (stop m - i - 1) s'
             end
      | None =>
          match s with
          | [] => []
          | c :: s' => c :: replace_loop r by_ whole (S i) 0 s'
          end
      end
  end.

Definition replace_all (r : re) (by_ : string) (s : string) : string :=
  text (replace_loop r (chars by_) (chars s) 0 0 (chars s)).

(** [s.replace(r, by)] for a pattern without the [g] flag: the first
    match only. *)
Definition replace_first (r : re) (by_ : string) (s : string) : string :=
  let cs := chars s in
  match search r 0 cs with
  | Some (i, m) =>
      let matched := take (stop m - i) (drop i cs) in
      text (take i cs
            ++ substitution (chars by_) matched (take i cs) (rest m) (groups m)
            ++ rest m)
  | None => s
  end.

(** [s.split(sep)] for a one-character separator. *)
Fixpoint split_loop (sep : ascii) (cur : list ascii) (s : list ascii)
    : list string :=
  match s with
  | [] => [text (rev cur)]
  | c :: s' =>
      if same c sep then text (rev cur) :: split_loop sep [] s'
      else split_loop sep (c :: cur) s'
  end.

Definition split (sep : ascii) (s : string) : list string :=
  split_loop sep [] (chars s).

(** [s.slice(0, n)] and [s.slice(n)] *)
Definition slice_to (n : nat) (s : string) : string := text (take n (chars s)).
Definition slice_from (n : nat) (s : string) : string := text (drop n (chars s)).

(** [a.join(sep)] *)
Fixpoint join (sep : string) (l : list string) : string :=
  match l with
  | [] => ""
  | [x] => x
  | x :: l' => x +:+ sep +:+ join sep l'
  end.

(** A string in a condition: only the empty string is falsy. *)
Definition truthy (s : string) : bool := negb (bool_decide (s = "")).

(** An optional string (absent for [undefined] or [null]) in a template
    or a concatenation. *)
Definition show (o : option string) : string := default "undefined" o.

(** *** Numbers

    A number of the language is a double: not a number, an infinity, or
    a finite value [n / 2^k] with its sign, where [n] is odd or [k] is 0,
    so that a value is written in one way; the integers are the values
    with [k = 0]. *)

Inductive num :=
| NaN
| Infinite (negative : bool)
| Finite (negative : bool) (n : Z) (k : nat).

Global Instance num_eq_dec : EqDecision num.
Proof. solve_decision. Defined.

Definition zero (negative : bool) : num := Finite negative 0 0.

(** [floor (log2 (p / q))] *)
Definition floor_log2 (p q : Z) : Z :=
  let e := Z.log2 p - Z.log2 q in
  if (if 0 <=? e then q * 2 ^ e <=? p else q <=? p * 2 ^ (- e)) then e else e - 1.

(** [n / 2^k] in lowest terms. *)
Fixpoint lowest (k : nat) (n : Z) : Z * nat :=
  match k with
  | O => (n, O)
  | S k' => if Z.even n then lowest k' (n / 2) else (n, k)
  end.

(** [m * 2^u] *)
Definition dyadic (negative : bool) (m u : Z) : num :=
  if 0 <=? u then Finite negative (m * 2 ^ u) 0
  else let '(n, k) := lowest (Z.to_nat (- u)) m in Finite negative n k.

(** The double nearest to [p / q], for [p] and [q] above 0, with a tie
    going to the even significand: 53 bits of significand, exponents
    down to that of the subnormal numbers, and infinity from [2^1024]
    on. *)
Definition nearest (negative : bool) (p q : Z) : num :=
  let e := floor_log2 p q in
  let u := Z.max (e - 52) (-1074) in
  let '(a, b) := if 0 <=? u then (p, q * 2 ^ u) else (p * 2 ^ (- u), q) in
  let d := a / b in
  let r := a mod b in
  let m := if (b <? 2 * r) || ((b =? 2 * r) && Z.odd d) then d + 1 else d in
  if (0 <=? u) && (2 ^ 1024 <=? m * 2 ^ u) then Infinite negative
  else dyadic negative m u.

(** [s * 10^j] as a number, for [s] from 0. *)
Definition decimal (negative : bool) (s j : Z) : num :=
  if s =? 0 then zero negative
  else if 0 <=? j then nearest negative (s * 10 ^ j) 1
  else nearest negative s (10 ^ (- j)).

(** **** [Number(s)], [+s]: the numeric literals of strings *)

Fixpoint span (p : ascii → bool) (l : list ascii) : list ascii * list ascii :=
  match l with
  | c :: l' =>
      if p c then let '(a, b) := span p l' in (c :: a, b) else ([], l)
  | [] => ([], [])
  end.

Fixpoint skip_all (p : ascii → bool) (l : list ascii) : list ascii :=
  match l with
  | c :: l' => if p c then skip_all p l' else l
  | [] => []
  end.

(** White space at both ends does not count. *)
Definition trim (l : list ascii) : list ascii :=
  rev (skip_all space (rev (skip_all space l))).

(** The value of a digit in a base, for the bases 2, 8, 10 and 16. *)
Definition digit_in (base : Z) (c : ascii) : option Z :=
  let v :=
    if between 48 57 c then Some (Z.of_nat (ord c - 48))
    else if between 97 102 c then Some (Z.of_nat (ord c - 87))
    else if between 65 70 c then Some (Z.of_nat (ord c - 55))
    else None in
  match v with
  | Some d => if d <? base then Some d else None
  | None => None
  end.

Fixpoint digits_in (base acc : Z) (l : list ascii) : option Z :=
  match l with
  | [] => Some acc
  | c :: l' =>
      match digit_in base c with
      | Some d => digits_in base (base * acc + d) l'
      | None => None
      end
  end.

(** The base that [0x], [0o] and [0b] announce, in either case. *)
Definition base_of (c : ascii) : option Z :=
  if same c "x" || same c "X" then Some 16
  else if same c "o" || same c "O" then Some 8
  else if same c "b" || same c "B" then Some 2
  else None.

(** [0x1F], [0o17], [0b101]: absent when the text is not of this form. *)
Definition radix_literal (l : list ascii) : option num :=
  match l with
  | z :: x :: ds =>
      if same z "0" then
        match base_of x with
        | Some base =>
            Some match ds, digits_in base 0 ds with
                 | _ :: _, Some v => decimal false v 0
                 | _, _ => NaN
                 end
        | None => None
        end
      else None
  | _ => None
  end.

Definition signed (l : list ascii) : bool * list ascii :=
  match l with
  | c :: l' =>
      if same c "-" then (true, l') else if same c "+" then (false, l') else (false, l)
  | [] => (false, l)
  end.

(** [e], a sign and digits, to the end of the text; the empty text is the
    exponent 0. *)
Definition exponent_part (l : list ascii) : option Z :=
  match l with
  | [] => Some 0
  | c :: l' =>
      if same c "e" || same c "E" then
        let '(negative, ds) := signed l' in
        match ds, digits_in 10 0 ds with
        | _ :: _, Some v => Some (if negative then - v else v)
        | _, _ => None
        end
      else None
  end.

(** [Infinity], [12], [12.], [12.5], [.5], each with a sign before it and
    an exponent after it. *)
Definition decimal_literal (l : list ascii) : num :=
  let '(negative, l) := signed l in
  if bool_decide (l = chars "Infinity") then Infinite negative
  else
    let '(ip, l1) := span digit l in
    let '(fp, l2) :=
      match l1 with
      | c :: l1' => if same c "." then span digit l1' else ([], l1)
      | [] => ([], l1)
      end in
    match ip ++ fp, digits_in 10 0 (ip ++ fp), exponent_part l2 with
    | _ :: _, Some m, Some x => decimal negative m (x - Z.of_nat (List.length fp))
    | _, _, _ => NaN
    end.

Definition StringToNumber (s : string) : num :=
  match trim (chars s) with
  | [] => zero false
  | l =>
      match radix_literal l with
      | Some x => x
      | None => decimal_literal l
      end
  end.

(** [Number(x)] and [+x] for a string or [undefined]. *)
Definition Number (o : option string) : num :=
  match o with
  | Some s => StringToNumber s
  | None => NaN
  end.

(** **** [x + 1] *)

Definition succ (x : num) : num :=
  match x with
  | NaN => NaN
  | Infinite negative => Infinite negative
  | Finite negative n k =>
      let one := 2 ^ Z.of_nat k in
      if negative then
        if n <? one then nearest false (one - n) one
        else if n =? one then zero false
        else nearest true (n - one) one
      else nearest false (n + one) one
  end.

(** **** [Math.max(...l)] *)

(** [x < y], with [-0] below [+0]. *)
Definition below (x y : num) : bool :=
  match x, y with
  | NaN, _ | _, NaN => false
  | Infinite a, Infinite b => a && negb b
  | Infinite a, Finite _ _ _ => a
  | Finite _ _ _, Infinite b => negb b
  | Finite a n k, Finite b m j =>
      let x := (if a then - n else n) * 2 ^ Z.of_nat j in
      let y := (if b then - m else m) * 2 ^ Z.of_nat k in
      (x <? y) || ((x =? y) && a && negb b)
  end.

Definition max2 (a b : num) : num :=
  match a, b with
  | NaN, _ | _, NaN => NaN
  | _, _ => if below a b then b else a
  end.

Definition Math_max (l : list num) : num := foldl max2 (Infinite true) l.

(** **** [String(x)], [`${x}`] *)

(** The [d] with [10^(d-1) <= n / 2^k < 10^d], for [n] above 0. *)
Fixpoint decade_below (fuel : nat) (n q t : Z) : Z :=
  match fuel with
  | O => - t
  | S fuel' =>
      if q <=? n * 10 then - t else decade_below fuel' (n * 10) q (t + 1)
  end.

Definition decade (n : Z) (k : nat) : Z :=
  let i := n / 2 ^ Z.of_nat k in
  if 0 <? i then Z.of_nat (String.length (pretty i))
  else decade_below 400 n (2 ^ Z.of_nat k) 0.

(** The decimals of [d] digits next to [v = n / 2^k], below and above
    it, as [s * 10^j]: the one that reads back as [x], the nearer to [v]
    when both do, the even one when they are as near. *)
Definition candidate (x : num) (n : Z) (k : nat) (d : Z) : option (Z * Z) :=
  let j := decade n k - d in
  let '(a, b) :=
    if 0 <=? j then (n, 2 ^ Z.of_nat k * 10 ^ j)
    else (n * 10 ^ (- j), 2 ^ Z.of_nat k) in
  let lo := a / b in
  let hi := lo + 1 in
  let ok s := bool_decide (decimal false s j = x) in
  let up := if hi =? 10 ^ d then (1, j + d) else (hi, j) in
  match ok lo, ok hi with
  | true, true =>
      let below_ := a - lo * b in
      let above := hi * b - a in
      Some (if (below_ <? above) || ((below_ =? above) && Z.even lo)
            then (lo, j) else up)
  | true, false => Some (lo, j)
  | false, true => Some up
  | false, false => None
  end.

(** The fewest digits that tell [x] from the other numbers; seventeen
    always do. *)
Fixpoint shortest (fuel : nat) (x : num) (n : Z) (k : nat) (d : Z) : Z * Z :=
  match fuel with
  | O => (n / 2 ^ Z.of_nat k, 0)
  | S fuel' =>
      match candidate x n k d with
      | Some r => r
      | None => shortest fuel' x n k (d + 1)
      end
  end.

Definition zeros (n : Z) : string := text (replicate (Z.to_nat n) (chr 48)).

Definition num_text (x : num) : string :=
  match x with
  | NaN => "NaN"
  | Infinite negative => if negative then "-Infinity" else "Infinity"
  | Finite negative n k =>
      if n =? 0 then "0"
      else
        let '(s, j) := shortest 17 (Finite false n k) n k 1 in
        let ds := pretty s in
        let k10 := Z.of_nat (String.length ds) in
        let n10 := j + k10 in
        (if negative then "-" else "")
        +:+ (if (k10 <=? n10) && (n10 <=? 21) then ds +:+ zeros (n10 - k10)
             else if (0 <? n10) && (n10 <=? 21) then
               text (take (Z.to_nat n10) (chars ds)) +:+ "."
               +:+ text (drop (Z.to_nat n10) (chars ds))
             else if (-6 <? n10) && (n10 <=? 0) then "0." +:+ zeros (- n10) +:+ ds
             else
               let e := n10 - 1 in
               let es := (if 0 <=? e then "+" else "-") +:+ pretty (Z.abs e) in
               if k10 =? 1 then ds +:+ "e" +:+ es
               else text (take 1 (chars ds)) +:+ "."
                    +:+ text (drop 1 (chars ds)) +:+ "e" +:+ es)
  end.

End JS.

(** ** The patterns of the script *)

Module Pat.
Import JS.

Definition seqs (l : list re) : re := foldr Seq Eps l.
Definition opt (c : ascii) : re := Alt (Lit (str c)) Eps.

(** [/\.ts$/] *)
Definition ts : re := seqs [Lit ".ts"; Eol].
(** [/\.d\.ts$/] *)
Definition dts_end : re := seqs [Lit ".d.ts"; Eol].
(** [/\.d\.ts/] *)
Definition dts : re := Lit ".d.ts".
(** [/\.d\.ts\.map/] *)
Definition dts_map : re := Lit ".d.ts.map".
(** [/^\.?\//] *)
Definition relative : re := seqs [Bol; Alt (Lit ".") Eps; Lit "/"].

(** [/(?:^|\n)\s*import.* from "\.\.\/\.\.\/([\w-]+)"/g] *)
Definition import : re :=
  seqs [Alt Bol (Lit nl); Star space; Lit "import"; Star dot;
        Lit (" from " +:+ dq +:+ "../../");
        Grp (seqs [Cls word_or_dash; Star word_or_dash]); Lit dq].

(** [/\n\r?\n(BREAKING|FIX|FEATURE):\s*([^]*?)(?=\r?\n\r?\n|\r?\n?$)/g] *)
Definition note : re :=
  seqs [Lit nl; opt CR; Lit nl;
        Grp (Alt (Lit "BREAKING") (Alt (Lit "FIX") (Lit "FEATURE")));
        Lit ":"; Star space; Grp (StarLazy any);
        Ahead (Alt (seqs [opt CR; Lit nl; opt CR; Lit nl])
                   (seqs [opt CR; opt LF; Eol]))].

(** [/\r?\n/g] *)
Definition newline : re := seqs [opt CR; Lit nl].
(** [/\]\(##/g] *)
Definition ref : re := Lit "](##".
(** [/"version":\s*".*?"/] *)
Definition version : re :=
  seqs [Lit (dq +:+ "version" +:+ dq +:+ ":"); Star space; Lit dq;
        StarLazy dot; Lit dq].
(** [/"sourceRoot":""/] *)
Definition sourceRoot : re :=
  Lit (dq +:+ "sourceRoot" +:+ dq +:+ ":" +:+ dq +:+ dq).

(** [/"@lezer\/([\w-]+)":\s*"\^?\d+\.\d+\.\d+"/g] *)
Definition dep : re :=
  seqs [Lit (dq +:+ "@lezer/"); Grp (seqs [Cls word_or_dash; Star word_or_dash]);
        Lit (dq +:+ ":"); Star space; Lit dq; Alt (Lit "^") Eps;
        Cls digit; Star digit; Lit "."; Cls digit; Star digit; Lit ".";
        Cls digit; Star digit; Lit dq].

(** [/"prepare"/] and [/"prepareDISABLED"/] *)
Definition prepare : re := Lit (dq +:+ "prepare" +:+ dq).
Definition prepareDISABLED : re := Lit (dq +:+ "prepareDISABLED" +:+ dq).

End Pat.

(** ** Packages, bundler configurations and the world *)

Import JS.

(** [path.join] and [path.dirname] on the paths the script builds: a
    directory and a name below it. *)
Definition path_join (a b : string) : string := a +:+ "/" +:+ b.

Fixpoint after_slash (s : list ascii) : list ascii :=
  match s with
  | [] => []
  | c :: s' => if same c (chr 47) then s' else after_slash s'
  end.

Fixpoint before_slash (s : list ascii) : list ascii :=
  match s with
  | [] => []
  | c :: s' => if same c (chr 47) then [] else c :: before_slash s'
  end.

Definition dirname (p : string) : string := text (rev (after_slash (rev (chars p)))).
Definition basename (p : string) : string := text (rev (before_slash (rev (chars p)))).

(** The options object given to [new Pkg]. *)
Record PkgOptions := {
  opt_entry : option string;
  node : bool;
  grammar : bool
}.

Definition no_options : PkgOptions :=
  {| opt_entry := None; node := false; grammar := false |}.

(** The fields of a [Pkg] that the constructor sets for good.  The two
    fields that are assigned later, [_dependencies] and [_rollup], are in
    the world, under the package's name. *)
Record Pkg := {
  name : string;
  entry : string;
  dir : string;
  options : PkgOptions
}.

Global Instance PkgOptions_eq_dec : EqDecision PkgOptions.
Proof. solve_decision. Defined.
Global Instance Pkg_eq_dec : EqDecision Pkg.
Proof. solve_decision. Defined.

(** The TypeScript plugin instance of a configuration. *)
Record CompilerOptions := {
  noImplicitReturns : bool;
  noUnusedLocals : bool;
  sourceMap : option bool;
  lib : list string;
  target : option string;
  declaration : option bool
}.

Record Plugin := {
  clean : bool;
  tsconfig : string;
  references : list string;
  compilerOptions : CompilerOptions;
  include : list string
}.

Record Output := {
  format : string;
  file : string;
  sourcemap : bool;
  externalLiveBindings : bool
}.

Record Config := {
  input : string;
  external : string → bool;
  output : list Output;
  plugins : list Plugin
}.

(** An object with its identity: two references are the same object when
    their [oid] is the same. *)
Record obj (A : Type) := Obj { oid : nat; oval : A }.
Arguments Obj {A} _ _.
Arguments oid {A} _.
Arguments oval {A} _.

(** What the bundler hands back for one output: a chunk has [code] and
    possibly a [map], an asset has [source]. *)
Record Artifact := {
  fileName : string;
  code : option string;
  source : option string;
  map : option string
}.

Record File := { data : string; mtimeMs : Z }.

(** What is thrown.  [CommandFailed] is the error of [execFileSync] for a
    command that leaves a status other than 0 and [SpawnFailed] the one
    for a command that cannot be started, with its code; [Failure] is an
    error of the bundler or of [require], [what] standing for its
    message. *)
Inductive exn :=
| Error (message : string)
| ENOENT (path : string)
| TypeError (message : string)
| ReferenceError (message : string)
| CommandFailed (cmd : string) (args : list string)
| SpawnFailed (cmd code : string)
| Failure (what : string).

(** A value given to [console.log] or [console.error]. *)
Inductive printed :=
| Text (s : string)
| Thrown (e : exn).

Inductive action :=
| Log (v : printed)
| LogError (v : printed)
| Rollup (input : string)
| Generate (format : string)
| Mkdir (path : string)
| WriteFile (path : string) (content : string)
| Exec (cmd : string) (args : list string) (wd : string)
| Watch (path : string).

(** What the script cannot decide by itself. *)
(** How a command of the user ends: with status 0, with another status or
    by a signal, or not started at all, with the code of the error. *)
Inductive ended :=
| Succeeded
| Failed
| NotStarted (code : string).

Record env := {
  (** [path.join(__dirname, "..")] *)
  root : string;
  (** [rollup(config)] on the files as they are, then
      [bundle.generate(output)]: absent when the call throws *)
  bundler : gmap string File → Config → option (Output → option (list Artifact));
  (** [child.execFileSync(cmd, args, {cwd})] for the commands that the
      script chooses, which are [git] commands that leave the files of
      the packages alone: the text printed, absent when the command
      leaves a status other than 0 *)
  command : string → list string → string → option string;
  (** [child.execFileSync(cmd, args, {cwd})] for a command that the user
      chooses, which prints to the terminal: how it ends, and the files
      and directories that it leaves *)
  program : string → list string → string →
            gmap string File → gmap string (list string) →
            ended * gmap string File * gmap string (list string);
  (** [require(file)] on the text of a manifest, absent when it is not
      JSON, and its [version], absent when it has none *)
  manifest : string → option (option string);
  (** year, month (from 0) and day of [new Date] *)
  today : nat * nat * nat
}.

Record world := {
  files : gmap string File;
  dirs : gmap string (list string);
  now : Z;
  trace : list action;
  _dependencies : gmap string (list Pkg);
  _rollup : gmap string (obj Config);
  fresh : nat
}.

Definition set_files (f : gmap string File → gmap string File) (w : world) : world :=
  {| files := f (files w); dirs := dirs w; now := now w; trace := trace w;
     _dependencies := _dependencies w; _rollup := _rollup w; fresh := fresh w |}.
Definition set_dirs (f : gmap string (list string) → gmap string (list string))
    (w : world) : world :=
  {| files := files w; dirs := f (dirs w); now := now w; trace := trace w;
     _dependencies := _dependencies w; _rollup := _rollup w; fresh := fresh w |}.
Definition set_trace (f : list action → list action) (w : world) : world :=
  {| files := files w; dirs := dirs w; now := now w; trace := f (trace w);
     _dependencies := _dependencies w; _rollup := _rollup w; fresh := fresh w |}.
Definition set_dependencies
    (f : gmap string (list Pkg) → gmap string (list Pkg)) (w : world) : world :=
  {| files := files w; dirs := dirs w; now := now w; trace := trace w;
     _dependencies := f (_dependencies w); _rollup := _rollup w; fresh := fresh w |}.
Definition set_rollup (f : gmap string (obj Config) → gmap string (obj Config))
    (w : world) : world :=
  {| files := files w; dirs := dirs w; now := now w; trace := trace w;
     _dependencies := _dependencies w; _rollup := f (_rollup w); fresh := fresh w |}.
Definition set_fresh (f : nat → nat) (w : world) : world :=
  {| files := files w; dirs := dirs w; now := now w; trace := trace w;
     _dependencies := _dependencies w; _rollup := _rollup w; fresh := f (fresh w) |}.

(** ** The monad of the script: state, exceptions and [process.exit] *)

Inductive outcome (A : Type) :=
| Ok (a : A)
| Throw (e : exn)
| Exit (status : Z).
Arguments Ok {A} _.
Arguments Throw {A} _.
Arguments Exit {A} _.

Definition M (A : Type) : Type := world → outcome A * world.

Definition ret {A} (a : A) : M A := λ w, (Ok a, w).

Definition bind {A B} (m : M A) (f : A → M B) : M B := λ w,
  match m w with
  | (Ok a, w') => f a w'
  | (Throw e, w') => (Throw e, w')
  | (Exit n, w') => (Exit n, w')
  end.

Notation "'let*' x := m 'in' k" := (bind m (λ x, k))
  (at level 10, x name, m at level 100, k at level 200,
   format "'[v' 'let*'  x  :=  m  'in' '/' k ']'").
Notation "m ;; k" := (bind m (λ _, k))
  (at level 100, k at level 200, right associativity).

Definition throw {A} (e : exn) : M A := λ w, (Throw e, w).
Definition exit {A} (status : Z) : M A := λ w, (Exit status, w).

(** [try { m } catch (e) { h e }]: leaving the process is not caught. *)
Definition try_catch {A} (m : M A) (h : exn → M A) : M A := λ w,
  match m w with
  | (Throw e, w') => h e w'
  | r => r
  end.

Definition gets {A} (f : world → A) : M A := λ w, (Ok (f w), w).
Definition modify (f : world → world) : M unit := λ w, (Ok (), f w).
Definition emit (a : action) : M unit := modify (set_trace (λ t, t ++ [a])).

(** [for (let x of l) f x] *)
Fixpoint for_each {A} (l : list A) (f : A → M unit) : M unit :=
  match l with
  | [] => ret ()
  | x :: l' => f x;; for_each l' f
  end.

(** [l.some(f)] *)
Fixpoint some {A} (f : A → M bool) (l : list A) : M bool :=
  match l with
  | [] => ret false
  | x :: l' => let* b := f x in if b then ret true else some f l'
  end.

(** [l.map(f)] *)
Fixpoint map_each {A B} (f : A → M B) (l : list A) : M (list B) :=
  match l with
  | [] => ret []
  | x :: l' => let* y := f x in let* ys := map_each f l' in ret (y :: ys)
  end.

(** [l.reduce(f, b)] *)
Fixpoint reduce {A B} (f : B → A → M B) (l : list A) (b : B) : M B :=
  match l with
  | [] => ret b
  | x :: l' => let* b' := f b x in reduce f l' b'
  end.

Definition console_log (v : printed) : M unit := emit (Log v).
Definition console_error (v : printed) : M unit := emit (LogError v).

(** ** The file system *)

(** [fs.statSync], [fsp.stat] *)
Definition stat (path : string) : M File := λ w,
  match files w !! path with
  | Some f => (Ok f, w)
  | None => (Throw (ENOENT path), w)
  end.

Definition size (f : File) : Z := Z.of_nat (String.length (data f)).

(** [fs.readFileSync(path, "utf8")], [fsp.readFile] *)
Definition readFile (path : string) : M string :=
  let* f := stat path in ret (data f).

(** [fs.readdirSync] *)
Definition readdir (path : string) : M (list string) := λ w,
  match dirs w !! path with
  | Some l => (Ok l, w)
  | None => (Throw (ENOENT path), w)
  end.

(** [fs.existsSync] *)
Definition exists_ (path : string) : M bool :=
  gets (λ w, bool_decide (is_Some (dirs w !! path))
             || bool_decide (is_Some (files w !! path))).

Definition add_entry (e : string) (l : list string) : list string :=
  if bool_decide (e ∈ l) then l else l ++ [e].

(** [fs.writeFileSync], [fsp.writeFile]: the file gets the content and the
    time of the write, and is listed in its directory.  A write does not
    fail: the script writes where it has read or made the directory. *)
Definition writeFile (path content : string) : M unit :=
  emit (WriteFile path content);;
  modify (λ w,
    set_dirs (alter (add_entry (basename path)) (dirname path))
      (set_files (<[path := {| data := content; mtimeMs := now w |}]>) w)).

(** [fsp.mkdir(dir, {recursive: true}).catch(() => null)].  The listing of
    the parent is left alone: the script lists no directory in which it
    makes one. *)
Definition mkdir (path : string) : M unit :=
  emit (Mkdir path);;
  modify (set_dirs (λ d, match d !! path with Some _ => d | None => <[path := []]> d end)).

(** ** Times

    A modification time, with the [Infinity] that [rebuild] gives to
    [Math.min]. *)

Inductive time := At (t : Z) | Infinity.

(** [Math.min(a, b)] *)
Definition Math_min (a b : time) : time :=
  match a, b with
  | At x, At y => At (Z.min x y)
  | At x, Infinity => At x
  | Infinity, b => b
  end.

(** [a >= b] *)
Definition geq (a b : time) : bool :=
  match a, b with
  | At x, At y => bool_decide (y ≤ x)
  | Infinity, _ => true
  | At _, Infinity => false
  end.

(** ** The script, first revision *)

Section Script.
Context (E : env).

(** *** [class Pkg] *)

(** [new Pkg(name, options)]; [options.entry || "index"] *)
Definition new_Pkg (name : string) (options : PkgOptions) : Pkg :=
  {| name := name;
     entry := match opt_entry options with
              | Some e => if truthy e then e else "index"
              | None => "index"
              end;
     dir := path_join (root E) name;
     options := options |}.

(** [get sources] *)
Definition sources (this : Pkg) : M (list string) :=
  let src := path_join (dir this) "src" in
  let* entries := readdir src in
  ret (path_join src <$> filter (λ file, test Pat.ts file = true) entries).

(** [get declarations] *)
Definition declarations (this : Pkg) : M (list string) :=
  let dist := path_join (dir this) "dist" in
  let* there := exists_ dist in
  if negb there then ret []
  else
    let* entries := readdir dist in
    ret (path_join dist <$> filter (λ file, test Pat.dts_end file = true) entries).

(** [get entrySource] *)
Definition entrySource (this : Pkg) : string :=
  path_join (path_join (dir this) "src") (entry this +:+ ".ts").

(** [get esmFile] *)
Definition esmFile (this : Pkg) : string :=
  path_join (path_join (dir this) "dist") "index.es.js".

(** [get cjsFile] *)
Definition cjsFile (this : Pkg) : string :=
  path_join (path_join (dir this) "dist") "index.js".

(** The registry: [const packages = [...]]. *)
Definition grammar_package : PkgOptions :=
  {| opt_entry := None; node := false; grammar := true |}.

Definition packages : list Pkg :=
  [ new_Pkg "common" no_options;
    new_Pkg "lr" no_options;
    new_Pkg "generator" {| opt_entry := None; node := true; grammar := false |};
    new_Pkg "javascript" grammar_package;
    new_Pkg "css" grammar_package;
    new_Pkg "html" grammar_package;
    new_Pkg "xml" grammar_package;
    new_Pkg "cpp" grammar_package;
    new_Pkg "java" grammar_package;
    new_Pkg "python" grammar_package;
    new_Pkg "json" grammar_package;
    new_Pkg "rust" grammar_package;
    new_Pkg "lezer" grammar_package;
    new_Pkg "markdown" no_options ].

(** [for (let pkg of packages) packageNames[pkg.name] = pkg], on an
    object without prototype. *)
Definition index_by_name (l : list Pkg) : gmap string Pkg :=
  foldl (λ m pkg, <[name pkg := pkg]> m) ∅ l.

Definition packageNames : gmap string Pkg := index_by_name packages.

(** A value held in an array or looked up in one. *)
Inductive value :=
| VString (s : string)
| VPkg (p : Pkg).

Global Instance value_eq_dec : EqDecision value.
Proof. solve_decision. Defined.

(** [a.includes(v)]: a string is no package object. *)
Definition includes (a : list value) (v : value) : bool :=
  bool_decide (v ∈ a).

(** [get dependencies], with [packageNames] as [registry].  The array is
    assigned before the scan and grows by [push]; it is what later calls
    return, also after a scan that threw. *)
Definition scan_dependencies (registry : gmap string Pkg) (this : Pkg)
    : M (list Pkg) :=
  let* cached := gets (λ w, _dependencies w !! name this) in
  match cached with
  | Some _ => ret ()
  | None =>
      modify (set_dependencies (<[name this := []]>));;
      let* files := sources this in
      for_each files (λ file,
        let* text := readFile file in
        for_each (exec_all Pat.import text) (λ m,
          let m1 := JS.text (default [] (m !! 0%nat)) in
          let* deps := gets (λ w, default [] (_dependencies w !! name this)) in
          if negb (includes (VPkg <$> deps) (VString m1)) then
            match registry !! m1 with
            | Some pkg =>
                modify (set_dependencies (alter (λ a, a ++ [pkg]) (name this)))
            | None => ret ()
            end
          else ret ()))
  end;;
  gets (λ w, default [] (_dependencies w !! name this)).

Definition dependencies (this : Pkg) : M (list Pkg) :=
  scan_dependencies packageNames this.

(** [get inputFiles] *)
Definition inputFiles (this : Pkg) : M (list string) :=
  let* own := sources this in
  let* deps := dependencies this in
  let* decls :=
    reduce (λ arr dep, let* d := declarations dep in ret (arr ++ d)) deps [] in
  ret (own ++ decls).

(** [tsPlugin(options)], with [baseCompilerOptions] *)
Definition tsPlugin (lib : list string) : Plugin :=
  {| clean := true;
     tsconfig := path_join (root E) "lezer/tsconfig.json";
     references := [];
     compilerOptions :=
       {| noImplicitReturns := false; noUnusedLocals := false;
          sourceMap := Some true; lib := lib; target := None;
          declaration := None |};
     include := [] |}.

(** [{esm, always}] *)
Record BuildOptions := { esm : bool; always : bool }.

(** The object literal of [rollupConfig]. *)
Definition rollup_config (this : Pkg) (opts : BuildOptions) : Config :=
  {| input := entrySource this;
     external := λ id, negb (bool_decide (id = "tslib"))
                        && negb (test Pat.relative id);
     output :=
       (if esm opts
        then [ {| format := "esm"; file := esmFile this; sourcemap := true;
                  externalLiveBindings := false |} ]
        else [])
       ++ [ {| format := "cjs"; file := cjsFile this; sourcemap := true;
               externalLiveBindings := false |} ];
     plugins :=
       [ tsPlugin (if node (options this) then ["es6"; "node"]
                   else ["es6"; "scripthost"]) ] |}.

(** [rollupConfig(options)]: [this._rollup || (this._rollup = {...})].  A
    new object takes the next identity. *)
Definition rollupConfig (this : Pkg) (opts : BuildOptions) : M (obj Config) :=
  let* cached := gets (λ w, _rollup w !! name this) in
  match cached with
  | Some config => ret config
  | None =>
      let* id := gets fresh in
      let config := Obj id (rollup_config this opts) in
      modify (set_fresh S);;
      modify (set_rollup (<[name this := config]>));;
      ret config
  end.

(** *** Writing the bundles *)

Definition lift {A} (o : outcome A) : M A := λ w, (o, w).

(** [maybeWriteFile(path, content)]; [Buffer.from] refuses [undefined]. *)
Definition maybeWriteFile (path : string) (content : option string) : M unit :=
  match content with
  | None => throw (TypeError "The first argument must be of type string")
  | Some buffer =>
      let* size :=
        try_catch (let* st := stat path in ret (size st))
          (λ e, match e with
                | ENOENT _ => ret (-1)
                | _ => throw e
                end) in
      let* differs :=
        if negb (bool_decide (size = Z.of_nat (String.length buffer)))
        then ret true
        else let* current := readFile path in
             ret (negb (bool_decide (buffer = current))) in
      if differs then writeFile path buffer else ret ()
  end.

(** [file.code || file.source] *)
Definition code_or_source (file : Artifact) : option string :=
  match code file with
  | Some c => if truthy c then Some c else source file
  | None => source file
  end.

(** [fsp.writeFile(path, code)], which refuses [undefined]. *)
Definition writeFile_value (path : string) (content : option string) : M unit :=
  match content with
  | Some c => writeFile path c
  | None => throw (TypeError "The data argument must be of type string")
  end.

Definition sourceRoot_up : string :=
  dq +:+ "sourceRoot" +:+ dq +:+ ":" +:+ dq +:+ "../.." +:+ dq.

(** The body of the inner loop of [runRollup]. *)
Definition emit_file (output : Output) (dir : string) (file : Artifact) : M unit :=
  let code := code_or_source file in
  (if negb (test Pat.dts (fileName file)) then
     writeFile_value (path_join dir (fileName file)) code
   else if bool_decide (format output = "cjs") then
     let* content :=
       if test Pat.dts_map (fileName file) then
         match code with
         | Some c => ret (Some (replace_first Pat.sourceRoot sourceRoot_up c))
         | None => throw (TypeError "Cannot read properties of undefined")
         end
       else ret code in
     maybeWriteFile (path_join dir (fileName file)) content
   else ret ());;
  match map file with
  | Some m => writeFile (path_join dir (fileName file +:+ ".map")) m
  | None => ret ()
  end.

(** The body of the outer loop of [runRollup], on the bundle that
    [rollup(config)] gave. *)
Definition emit_output (bundle : Output → option (list Artifact))
    (output : Output) : M unit :=
  emit (Generate (format output));;
  match bundle output with
  | None => throw (Failure "generate")
  | Some result =>
      let dir := dirname (file output) in
      mkdir dir;;
      for_each result (emit_file output dir)
  end.

(** [runRollup(config)] *)
Definition runRollup (config : Config) : M unit :=
  emit (Rollup (input config));;
  let* present := gets files in
  match bundler E present config with
  | None => throw (Failure "rollup")
  | Some bundle => for_each (output config) (emit_output bundle)
  end.

(** *** The build driver *)

(** [fileTime(path)] *)
Definition fileTime (path : string) : M time :=
  try_catch (let* st := stat path in ret (At (mtimeMs st)))
    (λ e, match e with
          | ENOENT _ => ret (At (-1))
          | _ => throw e
          end).

(** The part of [rebuild] after the staleness check. *)
Definition do_build (pkg : Pkg) (opts : BuildOptions) : M unit :=
  console_log (Text ("Building " +:+ name pkg +:+ "..."));;
  let* t0 := gets now in
  let* config := rollupConfig pkg opts in
  runRollup (oval config);;
  let* t1 := gets now in
  console_log (Text ("Done in " +:+ pretty (t1 - t0) +:+ "ms")).

(** The staleness check of [rebuild]: whether it returns at once. *)
Definition up_to_date (pkg : Pkg) (opts : BuildOptions) : M bool :=
  if negb (always opts) then
    let* cjs := fileTime (cjsFile pkg) in
    let* esm := if esm opts then fileTime (esmFile pkg) else ret Infinity in
    let time := Math_min cjs esm in
    if geq time (At 0) then
      let* inputs := inputFiles pkg in
      let* newer := some (λ file, let* t := fileTime file in ret (geq t time)) inputs in
      ret (negb newer)
    else ret false
  else ret false.

(** [rebuild(pkg, options)] *)
Definition rebuild (pkg : Pkg) (opts : BuildOptions) : M unit :=
  let* skip := up_to_date pkg opts in
  if skip then ret () else do_build pkg opts.

(** *** [class Watcher] *)

Record Watcher := {
  pkgs : list Pkg;
  w_options : BuildOptions;
  work : list Pkg;
  working : bool
}.

(** [fs.watch(file, trigger)] throws when the file is not there. *)
Definition fs_watch (file : string) : M unit :=
  let* _ := stat file in emit (Watch file).

(** [new Watcher(pkgs, options)] *)
Definition new_Watcher (pkgs : list Pkg) (opts : BuildOptions) : M Watcher :=
  for_each pkgs (λ pkg,
    let* inputs := inputFiles pkg in
    for_each inputs fs_watch);;
  ret {| pkgs := pkgs; w_options := opts; work := []; working := false |}.

(** [trigger(pkg)]: the watcher after it, and whether a timer for
    [startWork] was set. *)
Definition Watcher_trigger (this : Watcher) (pkg : Pkg) : Watcher * bool :=
  if negb (includes (VPkg <$> work this) (VPkg pkg)) then
    ({| pkgs := pkgs this; w_options := w_options this;
        work := work this ++ [pkg]; working := working this |}, true)
  else (this, false).

(** [a.indexOf(pkg)] *)
Fixpoint indexOf (a : list Pkg) (pkg : Pkg) : option nat :=
  match a with
  | [] => None
  | x :: a' => if bool_decide (x = pkg) then Some O else S <$> indexOf a' pkg
  end.

(** The [for] loop of [run]: the first package of [pkgs] that is in
    [work], and [work] after [splice(index, 1)]. *)
Fixpoint next_work (pkgs work : list Pkg) : option (Pkg * list Pkg) :=
  match pkgs with
  | [] => None
  | pkg :: rest =>
      match indexOf work pkg with
      | Some index => Some (pkg, delete index work)
      | None => next_work rest work
      end
  end.

(** The scheduler between two events of the event loop: the watcher, the
    [startWork] timers that are set, the rebuild that [run] awaits, and
    the order in which rebuilds started and finished.  [stuck] is [run]
    going round its [while] loop without finding a package to build. *)
Inductive mark :=
| Started (pkg : Pkg)
| Finished (pkg : Pkg) (ok : bool).

Record scheduler := {
  watcher : Watcher;
  timers : nat;
  running : option Pkg;
  stuck : bool;
  history : list mark
}.

Definition scheduler_of (w : Watcher) : scheduler :=
  {| watcher := w; timers := O; running := None; stuck := false; history := [] |}.

Definition set_working (b : bool) (s : scheduler) : scheduler :=
  {| watcher := {| pkgs := pkgs (watcher s); w_options := w_options (watcher s);
                   work := work (watcher s); working := b |};
     timers := timers s; running := running s; stuck := stuck s;
     history := history s |}.

(** [run()] from the head of its [while] loop to its next [await], or to
    its end, after which [startWork] clears [working]. *)
Definition Watcher_run (s : scheduler) : scheduler :=
  match work (watcher s) with
  | [] => set_working false s
  | _ :: _ =>
      match next_work (pkgs (watcher s)) (work (watcher s)) with
      | Some (pkg, work') =>
          {| watcher := {| pkgs := pkgs (watcher s);
                           w_options := w_options (watcher s);
                           work := work'; working := working (watcher s) |};
             timers := timers s; running := Some pkg; stuck := stuck s;
             history := history s ++ [Started pkg] |}
      | None =>
          {| watcher := watcher s; timers := timers s; running := running s;
             stuck := true; history := history s |}
      end
  end.

(** [startWork()] *)
Definition Watcher_startWork (s : scheduler) : scheduler :=
  if working (watcher s) then s else Watcher_run (set_working true s).

(** What the event loop delivers: a change of a watched file of a
    package, the end of a [startWork] timer, and the end of the awaited
    rebuild, fulfilled or rejected. *)
Inductive event :=
| Changed (pkg : Pkg)
| Timeout
| Settled (ok : bool).

(** One turn of the event loop.  An event that cannot occur in the state
    (a change of a package that is not watched, a timer when none is set,
    the end of a rebuild when none runs) leaves it as it is. *)
Definition step (s : scheduler) (e : event) : scheduler :=
  if stuck s then s
  else
    match e with
    | Changed pkg =>
        if bool_decide (pkg ∈ pkgs (watcher s)) then
          let '(w, armed) := Watcher_trigger (watcher s) pkg in
          {| watcher := w; timers := if armed then S (timers s) else timers s;
             running := running s; stuck := stuck s; history := history s |}
        else s
    | Timeout =>
        match timers s with
        | O => s
        | S n =>
            Watcher_startWork
              {| watcher := watcher s; timers := n; running := running s;
                 stuck := stuck s; history := history s |}
        end
    | Settled ok =>
        match running s with
        | None => s
        | Some pkg =>
            let s' := {| watcher := watcher s; timers := timers s;
                         running := None; stuck := stuck s;
                         history := history s ++ [Finished pkg ok] |} in
            if ok then Watcher_run s' else set_working false s'
        end
    end.

Definition steps (s : scheduler) (es : list event) : scheduler :=
  foldl step s es.

(** *** The commands [build] and [watch] *)

(** [a[0] != "-"] *)
Definition no_dash (a : string) : bool :=
  match a with
  | String c _ => negb (same c (chr 45))
  | EmptyString => true
  end.

(** [build(...args)] *)
Definition build (args : list string) : M unit :=
  let filter := List.filter no_dash args in
  let always := bool_decide ("--force" ∈ args) in
  match filter with
  | _ :: _ =>
      let targets := packages in
      for_each filter (λ name_,
        match List.find (λ t, bool_decide (name t = name_)) targets with
        | None => throw (Error ("Unknown package " +:+ name_))
        | Some found => rebuild found {| esm := true; always := always |}
        end)
  | [] =>
      for_each packages (λ pkg, rebuild pkg {| esm := true; always := always |})
  end.

(** The names declared at the top of the module. *)
Definition declared : list string :=
  [ "child"; "fs"; "fsp"; "path"; "root"; "Pkg"; "baseCompilerOptions";
    "tsPlugin"; "packages"; "packageNames"; "start"; "help"; "error"; "run";
    "listPackages"; "maybeWriteFile"; "runRollup"; "fileTime"; "rebuild";
    "Watcher"; "build"; "watch"; "changelog"; "bumpVersion"; "releaseNotes";
    "setModuleVersion"; "version"; "doRelease"; "release"; "releaseAll";
    "bumpDeps"; "runCmd"; "notes" ].

(** An identifier of the module read where a list of packages is wanted:
    [packages] is the one name bound to such a list, another declared name
    is not iterable, and a name that nothing declares cannot be read. *)
Definition identifier (id : string) : M (list Pkg) :=
  if bool_decide (id = "packages") then ret packages
  else if bool_decide (id ∈ declared) then throw (TypeError (id +:+ " is not iterable"))
  else throw (ReferenceError (id +:+ " is not defined")).

(** [watch()] *)
Definition watch : M unit :=
  for_each packages (λ pkg,
    try_catch (rebuild pkg {| esm := false; always := false |})
      (λ e, console_log (Thrown e)));;
  let* target := identifier "target" in
  let* _ := new_Watcher target {| esm := false; always := false |} in
  console_log (Text "Watching...").

(** *** Running commands, reporting errors *)

(** [error(err)] *)
Definition error {A} (err : printed) : M A :=
  console_error err;; exit 1.

(** [run(cmd, args, wd)] *)
Definition run (cmd : string) (args : list string) (wd : string) : M string :=
  emit (Exec cmd args wd);;
  match command E cmd args wd with
  | Some out => ret out
  | None => throw (CommandFailed cmd args)
  end.

(** [run(cmd, args, wd, process.stdout)]: the command prints for itself
    and does to the files what it does; when it cannot be started, the
    files are as they were. *)
Definition run_shown (cmd : string) (args : list string) (wd : string) : M unit :=
  emit (Exec cmd args wd);;
  let* left := gets (λ w, program E cmd args wd (files w) (dirs w)) in
  let '(how, files', dirs') := left in
  match how with
  | Succeeded => modify (λ w, set_dirs (λ _, dirs') (set_files (λ _, files') w))
  | Failed =>
      modify (λ w, set_dirs (λ _, dirs') (set_files (λ _, files') w));;
      throw (CommandFailed cmd args)
  | NotStarted code => throw (SpawnFailed cmd code)
  end.

Definition usage : string :=
  JS.join nl
    [ "Usage:";
      "  lz packages               Emit a list of all pkg names";
      "  lz build [--force]        Build the bundle files";
      "  lz watch                  Start a watching build";
      "  lz release <name>         Tag a release";
      "  lz release-all            Tag a new release for all packages";
      "  lz run [--cont] <cmd>     Run the given command in all packages";
      "  lz notes <name>           Emit pending release notes";
      "  lz --help" ].

(** [help(status)] *)
Definition help {A} (status : Z) : M A :=
  console_log (Text usage);; exit status.

(** [listPackages()] *)
Definition listPackages : M unit :=
  console_log (Text (JS.join nl (name <$> packages))).

(** *** Release notes and versions *)

Record Changes := {
  fix_ : list string;
  feature : list string;
  breaking : list string
}.

Definition no_changes : Changes := {| fix_ := []; feature := []; breaking := [] |}.

(** [result[match[1].toLowerCase()].push(match[2].replace(/\r?\n/g, " "))] *)
Definition push_note (result : Changes) (m : caps) : Changes :=
  let kind := text (default [] (m !! 0%nat)) in
  let note := replace_all Pat.newline " " (text (default [] (m !! 1%nat))) in
  if bool_decide (kind = "BREAKING") then
    {| fix_ := fix_ result; feature := feature result;
       breaking := breaking result ++ [note] |}
  else if bool_decide (kind = "FIX") then
    {| fix_ := fix_ result ++ [note]; feature := feature result;
       breaking := breaking result |}
  else
    {| fix_ := fix_ result; feature := feature result ++ [note];
       breaking := breaking result |}.

(** The scan of [changelog] over the text of the commits. *)
Definition notes_in (commits : string) : Changes :=
  foldl push_note no_changes (exec_all Pat.note commits).

(** An optional string in a condition. *)
Definition given (o : option string) : bool :=
  match o with
  | Some s => truthy s
  | None => false
  end.

(** [changelog(pkg, since, extra)] *)
Definition changelog (pkg : Pkg) (since extra : option string) : M Changes :=
  let* commits :=
    run "git" ["log"; "--format=%B"; "--reverse"; show since +:+ "..main"]
      (dir pkg) in
  let commits :=
    if given extra then nlnl +:+ show extra +:+ nlnl +:+ commits else commits in
  ret (notes_in commits).

Definition nonempty {A} (l : list A) : bool :=
  match l with
  | [] => false
  | _ :: _ => true
  end.

(** [bumpVersion(version, changes)] *)
Definition bumpVersion (version : option string) (changes : Changes)
    : outcome string :=
  match version with
  | None => Throw (TypeError "Cannot read properties of undefined")
  | Some version =>
      let parts := split (chr 46) version in
      let major := parts !! 0%nat in
      let minor := parts !! 1%nat in
      let patch := parts !! 2%nat in
      if nonempty (breaking changes) && negb (bool_decide (major = Some "0")) then
        Ok (num_text (succ (Number major)) +:+ ".0.0")
      else if nonempty (feature changes) || nonempty (breaking changes) then
        Ok (show major +:+ "." +:+ num_text (succ (Number minor)) +:+ ".0")
      else if nonempty (fix_ changes) then
        Ok (show major +:+ "." +:+ show minor +:+ "."
            +:+ num_text (succ (Number patch)))
      else Throw (Error "No new release notes!")
  end.

Definition pad (n : nat) : string :=
  if (n <? 10)%nat then "0" +:+ pretty n else pretty n.

Definition refTarget : string := "https://lezer.codemirror.net/docs/ref/".

(** One round of the loop of [releaseNotes] over [types]. *)
Definition notes_of (title : string) (messages : list string) : string :=
  (if nonempty messages then "### " +:+ title +:+ nlnl else "")
  +:+ foldl (λ body message,
        body +:+ replace_all Pat.ref ("](" +:+ refTarget +:+ "#") message +:+ nlnl)
      "" messages.

Record Notes := { head : string; body : string }.

(** [releaseNotes(changes, version)] *)
Definition releaseNotes (changes : Changes) (version : string) : Notes :=
  let '(year, month, day) := today E in
  let date := pretty year +:+ "-" +:+ pad (month + 1) +:+ "-" +:+ pad day in
  {| head := "## " +:+ version +:+ " (" +:+ date +:+ ")" +:+ nlnl;
     body := notes_of "Breaking changes" (breaking changes)
             +:+ notes_of "Bug fixes" (fix_ changes)
             +:+ notes_of "New features" (feature changes) |}.

(** [setModuleVersion(pkg, version)] *)
Definition setModuleVersion (pkg : Pkg) (version : string) : M unit :=
  let file := path_join (dir pkg) "package.json" in
  let* old := readFile file in
  writeFile file
    (replace_first Pat.version
       (dq +:+ "version" +:+ dq +:+ ": " +:+ dq +:+ version +:+ dq) old).

(** [version(pkg)] *)
Definition version (pkg : Pkg) : M (option string) :=
  let file := path_join (dir pkg) "package.json" in
  let* present := gets (λ w, files w !! file) in
  match present with
  | None => throw (Error ("Cannot find module " +:+ file))
  | Some f =>
      match manifest E (data f) with
      | None => throw (Failure "require")
      | Some v => ret v
      end
  end.

(** [doRelease(pkg, changes, newVersion)] *)
Definition doRelease (pkg : Pkg) (changes : Changes) (newVersion : string) : M unit :=
  setModuleVersion pkg newVersion;;
  let notes := releaseNotes changes newVersion in
  let log := path_join (dir pkg) "CHANGELOG.md" in
  let* old := readFile log in
  writeFile log (head notes +:+ body notes +:+ old);;
  run "git" ["add"; "package.json"] (dir pkg);;
  run "git" ["add"; "CHANGELOG.md"] (dir pkg);;
  run "git" ["commit"; "-m"; "Mark version " +:+ newVersion] (dir pkg);;
  run "git" ["tag"; newVersion; "-m";
             "Version " +:+ newVersion +:+ nlnl +:+ body notes;
             "--cleanup=verbatim"] (dir pkg);;
  ret ().

(** The loop of [release] over its arguments, at index [i] of [args]:
    the version and the message it ends with. *)
Fixpoint release_args (all : list string) (i : nat) (args : list string)
    (newVersion : option string) (message : string)
    : M (option string * string) :=
  match args with
  | [] => ret (newVersion, message)
  | a :: rest =>
      if bool_decide (a = "--version") then
        match rest with
        | v :: rest' => release_args all (i + 2) rest' (Some v) message
        | [] => ret (None, message)
        end
      else if bool_decide (a = "-m") then
        match rest with
        | v :: rest' => release_args all (i + 2) rest' newVersion (message +:+ v +:+ nlnl)
        | [] => ret (newVersion, message +:+ "undefined" +:+ nlnl)
        end
      else
        error (Text ("Invalid arguments to release " +:+ pretty i
                     +:+ JS.join "," all))
  end.

(** [release(pkgName, ...args)] *)
Definition release (pkgName : string) (args : list string) : M unit :=
  match packageNames !! pkgName with
  | None => error (Text ("No package " +:+ pkgName +:+ " known"))
  | Some pkg =>
      let* parsed := release_args args 0 args None "" in
      let '(newVersion, message) := parsed in
      let* currentVersion := version pkg in
      let* changes := changelog pkg currentVersion (Some message) in
      let* newVersion :=
        if given newVersion then ret (show newVersion)
        else lift (bumpVersion currentVersion changes) in
      console_log (Text ("Creating " +:+ pkgName +:+ " " +:+ newVersion));;
      doRelease pkg changes newVersion
  end.

(** [bumpDeps(version)] *)
Definition bumpDeps (version : string) : M unit :=
  for_each packages (λ pkg,
    let file := path_join (dir pkg) "package.json" in
    let* old := readFile file in
    writeFile file
      (replace_all Pat.dep
         (dq +:+ "@lezer/$1" +:+ dq +:+ ": " +:+ dq +:+ "^" +:+ version +:+ dq)
         old)).

(** The loop of [releaseAll] over its arguments: the [messages] object.
    A property set to [undefined] reads like one that is not there. *)
Fixpoint releaseAll_args (args : list string) (messages : gmap string string)
    : M (gmap string string) :=
  match args with
  | [] => ret messages
  | arg :: rest =>
      let key :=
        if bool_decide (arg = "--grammar") then Some "grammar"
        else if bool_decide (slice_to 2 arg = "--")
                && bool_decide (is_Some (packageNames !! slice_from 2 arg))
        then Some (slice_from 2 arg)
        else None in
      match key with
      | Some key =>
          match rest with
          | v :: rest' => releaseAll_args rest' (<[key := v]> messages)
          | [] => ret (delete key messages)
          end
      | None => error (Text "Invalid arguments to release-all")
      end
  end.

(** [messages[pkg.name] || (pkg.options.grammar ? messages.grammar : null)] *)
Definition message_for (messages : gmap string string) (pkg : Pkg) : option string :=
  if given (messages !! name pkg) then messages !! name pkg
  else if grammar (options pkg) then messages !! "grammar"
  else None.

(** [+v.split(".")[1]] *)
Definition minor_of (v : option string) : M num :=
  match v with
  | Some v => ret (Number (split (chr 46) v !! 1%nat))
  | None => throw (TypeError "Cannot read properties of undefined")
  end.

(** [releaseAll(...args)] *)
Definition releaseAll (args : list string) : M unit :=
  let* messages := releaseAll_args args ∅ in
  let* versions := map_each version packages in
  let* minors := map_each minor_of versions in
  let maxVersion := Math_max minors in
  let newVersion := "0." +:+ num_text (succ maxVersion) +:+ ".0" in
  bumpDeps newVersion;;
  for_each (zip packages versions) (λ '(pkg, since),
    let* changes := changelog pkg since (message_for messages pkg) in
    doRelease pkg changes newVersion).

(** [e + ""] *)
Definition describe (e : exn) : string :=
  match e with
  | Error m => "Error: " +:+ m
  | ENOENT p => "Error: ENOENT: no such file or directory, " +:+ p
  | TypeError m => "TypeError: " +:+ m
  | ReferenceError m => "ReferenceError: " +:+ m
  | CommandFailed cmd args =>
      "Error: Command failed: " +:+ JS.join " " (cmd :: args)
  | SpawnFailed cmd code => "Error: spawnSync " +:+ cmd +:+ " " +:+ code
  | Failure what => "Error: " +:+ what
  end.

(** [runCmd(...args)]; [execFileSync] refuses a command that is
    [undefined]. *)
Definition runCmd (args : list string) : M unit :=
  let cont := bool_decide (args !! 0%nat = Some "--cont") in
  let args := if cont then drop 1 args else args in
  for_each packages (λ pkg,
    try_catch
      match args with
      | cmd :: rest => run_shown cmd rest (dir pkg)
      | [] => throw (TypeError "The file argument must be of type string")
      end
      (λ e, console_error (Text (describe e));;
            if negb cont then exit 1 else ret ())).

(** [notes(name)] *)
Definition notes (name_ : string) : M unit :=
  match packageNames !! name_ with
  | None => error (Text ("No package " +:+ name_ +:+ " known"))
  | Some pkg =>
      let* since := version pkg in
      let* changes := changelog pkg since None in
      let notes := releaseNotes changes "XXX" in
      console_log (Text (head notes +:+ body notes))
  end.

(** *** Dispatch *)

(** The values of the command table: its own functions, and what the
    object literal inherits from [Object.prototype]. *)
Inductive fn :=
| fn_listPackages
| fn_build
| fn_watch
| fn_release
| fn_releaseAll
| fn_bumpDeps
| fn_runCmd
| fn_help
| fn_notes
| fn_inherited (key : string).

Definition table : list (string * fn) :=
  [ ("packages", fn_listPackages); ("build", fn_build); ("watch", fn_watch);
    ("release", fn_release); ("release-all", fn_releaseAll);
    ("bump-deps", fn_bumpDeps); ("run", fn_runCmd); ("--help", fn_help);
    ("notes", fn_notes) ].

Definition inherited : list string :=
  [ "constructor"; "__defineGetter__"; "__defineSetter__"; "hasOwnProperty";
    "__lookupGetter__"; "__lookupSetter__"; "isPrototypeOf";
    "propertyIsEnumerable"; "toString"; "valueOf"; "__proto__";
    "toLocaleString" ].

(** [{...}[command]] *)
Definition cmdFn (command : option string) : option fn :=
  let key := show command in
  match List.find (λ kv, bool_decide (kv.1 = key)) table with
  | Some kv => Some kv.2
  | None => if bool_decide (key ∈ inherited) then Some (fn_inherited key) else None
  end.

(** [cmdFn.length]; the prototype object under [__proto__] has none. *)
Definition fn_length (f : fn) : option nat :=
  match f with
  | fn_release | fn_bumpDeps | fn_notes => Some 1%nat
  | fn_listPackages | fn_build | fn_watch | fn_releaseAll | fn_runCmd
  | fn_help => Some 0%nat
  | fn_inherited key =>
      if bool_decide (key = "__proto__") then None
      else if bool_decide (key ∈ ["__defineGetter__"; "__defineSetter__"]) then Some 2%nat
      else if bool_decide (key ∈ ["toString"; "valueOf"; "toLocaleString"]) then Some 0%nat
      else Some 1%nat
  end.

(** [cmdFn.apply(null, args)].  Of the inherited functions, [Object],
    [toString] and [isPrototypeOf] return on [null] and a string; the
    others throw, as does calling the prototype object. *)
Definition apply (f : fn) (args : list string) : M unit :=
  match f with
  | fn_listPackages => listPackages
  | fn_build => build args
  | fn_watch => watch
  | fn_release => release (show (args !! 0%nat)) (drop 1 args)
  | fn_releaseAll => releaseAll args
  | fn_bumpDeps => bumpDeps (show (args !! 0%nat))
  | fn_runCmd => runCmd args
  | fn_help => help 0
  | fn_notes => notes (show (args !! 0%nat))
  | fn_inherited key =>
      if bool_decide (key ∈ ["constructor"; "toString"; "isPrototypeOf"]) then ret ()
      else throw (TypeError (key +:+ " called on null or undefined"))
  end.

(** [start()], on [process.argv] from its third element. *)
Definition start (argv : list string) : M unit :=
  let command := argv !! 0%nat in
  let args := drop 1 argv in
  match cmdFn command with
  | None => help 1
  | Some f =>
      (if match fn_length f with
          | Some n => bool_decide (List.length args < n)%nat
          | None => false
          end
       then help 1 else ret ());;
      try_catch (apply f args) (λ e, error (Thrown e))
  end.

End Script.

(** ** The script, second revision

    The functions of the second revision that differ from the first, or
    that read its registry.  [error], [version], [changelog] and
    [doRelease] are the same text in both revisions and are shared. *)

Module Rev2.
Section Script.
Context (E : env).

(** [loadPackages()] *)
Definition packages : list Pkg :=
  [ new_Pkg E "common" no_options;
    new_Pkg E "highlight" {| opt_entry := Some "highlight"; node := false; grammar := false |};
    new_Pkg E "lr" no_options;
    new_Pkg E "generator" {| opt_entry := None; node := true; grammar := false |};
    new_Pkg E "javascript" grammar_package;
    new_Pkg E "css" grammar_package;
    new_Pkg E "sass" grammar_package;
    new_Pkg E "html" grammar_package;
    new_Pkg E "xml" grammar_package;
    new_Pkg E "cpp" grammar_package;
    new_Pkg E "java" grammar_package;
    new_Pkg E "python" grammar_package;
    new_Pkg E "json" grammar_package;
    new_Pkg E "rust" grammar_package;
    new_Pkg E "lezer" grammar_package;
    new_Pkg E "php" grammar_package;
    new_Pkg E "markdown" no_options ].

Definition packageNames : gmap string Pkg := index_by_name packages.

(** [get dependencies] *)
Definition dependencies (this : Pkg) : M (list Pkg) :=
  scan_dependencies packageNames this.

(** [tsPlugin(cwd, options)], with [baseCompilerOptions] *)
Definition tsPlugin (cwd : string) (lib : list string) (target : string)
    (declaration : bool) : Plugin :=
  {| clean := true;
     tsconfig := path_join cwd "tsconfig.json";
     references := [];
     compilerOptions :=
       {| noImplicitReturns := false; noUnusedLocals := false;
          sourceMap := None; lib := lib; target := Some target;
          declaration := Some declaration |};
     include := [] |}.

(** The object literal of [rollupConfig]; an output has no [sourcemap]. *)
Definition rollup_config (this : Pkg) (opts : BuildOptions) : Config :=
  {| input := entrySource this;
     external := λ id, negb (bool_decide (id = "tslib"))
                        && negb (test Pat.relative id);
     output :=
       (if esm opts
        then [ {| format := "es"; file := esmFile this; sourcemap := false;
                  externalLiveBindings := false |} ]
        else [])
       ++ [ {| format := "cjs"; file := cjsFile this; sourcemap := false;
               externalLiveBindings := false |} ];
     plugins := [ tsPlugin (dir this) ["es6"; "scripthost"] "es6" true ] |}.

(** [rollupConfig(options)] *)
Definition rollupConfig (this : Pkg) (opts : BuildOptions) : M (obj Config) :=
  let* cached := gets (λ w, _rollup w !! name this) in
  match cached with
  | Some config => ret config
  | None =>
      let* id := gets fresh in
      let config := Obj id (rollup_config this opts) in
      modify (set_fresh S);;
      modify (set_rollup (<[name this := config]>));;
      ret config
  end.

(** [bumpVersion(version, changes)] *)
Definition bumpVersion (version : option string) (changes : Changes)
    : outcome string :=
  match version with
  | None => Throw (TypeError "Cannot read properties of undefined")
  | Some version =>
      let parts := split (chr 46) version in
      let major := parts !! 0%nat in
      let minor := parts !! 1%nat in
      let patch := parts !! 2%nat in
      if nonempty (breaking changes) && negb (bool_decide (major = Some "0")) then
        Ok (num_text (succ (Number major)) +:+ ".0.0")
      else if nonempty (feature changes) && negb (bool_decide (major = Some "0"))
              || nonempty (breaking changes) then
        Ok (show major +:+ "." +:+ num_text (succ (Number minor)) +:+ ".0")
      else if nonempty (fix_ changes) || nonempty (feature changes) then
        Ok (show major +:+ "." +:+ show minor +:+ "."
            +:+ num_text (succ (Number patch)))
      else Throw (Error "No new release notes!")
  end.

(** The loop of [release] over its arguments. *)
Fixpoint release_args (all : list string) (args : list string)
    (newVersion : option string) (message : string)
    : M (option string * string) :=
  match args with
  | [] => ret (newVersion, message)
  | a :: rest =>
      if bool_decide (a = "--version") then
        match rest with
        | v :: rest' => release_args all rest' (Some v) message
        | [] => ret (None, message)
        end
      else if bool_decide (a = "-m") then
        match rest with
        | v :: rest' => release_args all rest' newVersion (message +:+ v +:+ nlnl)
        | [] => ret (newVersion, message +:+ "undefined" +:+ nlnl)
        end
      else
        error (Text ("Invalid arguments to release " +:+ JS.join "," all))
  end.

(** [release(pkgName, ...args)] *)
Definition release (pkgName : string) (args : list string) : M unit :=
  match packageNames !! pkgName with
  | None => error (Text ("No package " +:+ pkgName +:+ " known"))
  | Some pkg =>
      let* parsed := release_args args args None "" in
      let '(newVersion, message) := parsed in
      let* currentVersion := version E pkg in
      let* changes := changelog E pkg currentVersion (Some message) in
      let* newVersion :=
        if given newVersion then ret (show newVersion)
        else lift (bumpVersion currentVersion changes) in
      console_log (Text ("Creating " +:+ pkgName +:+ " " +:+ newVersion));;
      doRelease E pkg changes newVersion
  end.

(** [updatePackageFiles(f)] *)
Definition updatePackageFiles (f : string → string) : M unit :=
  for_each packages (λ pkg,
    let file := path_join (dir pkg) "package.json" in
    let* old := readFile file in
    writeFile file (f old)).

(** The two functions that [install] gives to [updatePackageFiles]:
    [json => json.replace(/"prepare"/, '"prepareDISABLED"')] and
    [json => json.replace(/"prepareDISABLED"/, '"prepare"')]. *)
Definition disable_prepare (json : string) : string :=
  replace_first Pat.prepare (dq +:+ "prepareDISABLED" +:+ dq) json.

Definition enable_prepare (json : string) : string :=
  replace_first Pat.prepareDISABLED (dq +:+ "prepare" +:+ dq) json.

(** [listPackages()] *)
Definition listPackages : M unit :=
  console_log (Text (JS.join nl (name <$> packages))).

(** [status()] *)
Definition status : M unit :=
  for_each packages (λ pkg,
    let* output := run E "git" ["status"; "-sb"] (dir pkg) in
    if negb (bool_decide (output = "## main...origin/main" +:+ nl))
    then console_log (Text (name pkg +:+ ":" +:+ nl +:+ output))
    else ret ()).

(** [bumpDeps(version)] *)
Definition bumpDeps (version : string) : M unit :=
  for_each packages (λ pkg,
    let file := path_join (dir pkg) "package.json" in
    let* old := readFile file in
    writeFile file
      (replace_all Pat.dep
         (dq +:+ "@lezer/$1" +:+ dq +:+ ": " +:+ dq +:+ "^" +:+ version +:+ dq)
         old)).

(** [runCmd(...args)] *)
Definition runCmd (args : list string) : M unit :=
  let cont := bool_decide (args !! 0%nat = Some "--cont") in
  let args := if cont then drop 1 args else args in
  for_each packages (λ pkg,
    try_catch
      match args with
      | cmd :: rest => run_shown E cmd rest (dir pkg)
      | [] => throw (TypeError "The file argument must be of type string")
      end
      (λ e, console_error (Text (describe e));;
            if negb cont then exit 1 else ret ())).

(** [notes(name)] *)
Definition notes (name_ : string) : M unit :=
  match packageNames !! name_ with
  | None => error (Text ("No package " +:+ name_ +:+ " known"))
  | Some pkg =>
      let* since := version E pkg in
      let* changes := changelog E pkg since None in
      let notes := releaseNotes E changes "XXX" in
      console_log (Text (head notes +:+ body notes))
  end.

End Script.
End Rev2.

(** ** Sample worlds

    A checkout under [/lz] in which [lr] imports [common] twice, with a
    bundler that gives, for every output, the bundle with its map and the
    declaration file with its map. *)

Module Sample.

Definition import_from (pkg : string) : string :=
  "import {Tree} from " +:+ dq +:+ "../../" +:+ pkg +:+ dq +:+ nl.

Definition chunk (fileName code map : string) : Artifact :=
  {| fileName := fileName; code := Some code; source := None; map := Some map |}.

Definition asset (fileName source : string) : Artifact :=
  {| fileName := fileName; code := None; source := Some source; map := None |}.

(** A declaration map as the compiler prints it, and as [runRollup]
    rewrites it. *)
Definition declaration_map : string :=
  "{" +:+ dq +:+ "version" +:+ dq +:+ ":3," +:+ dq +:+ "sourceRoot" +:+ dq
  +:+ ":" +:+ dq +:+ dq +:+ "}".

Definition declaration_map_up : string :=
  "{" +:+ dq +:+ "version" +:+ dq +:+ ":3," +:+ dq +:+ "sourceRoot" +:+ dq
  +:+ ":" +:+ dq +:+ "../.." +:+ dq +:+ "}".

Definition bundle (out : Output) : option (list Artifact) :=
  Some [ chunk (basename (file out)) "exports.x = 1" "{}";
         asset "index.d.ts" "export declare const x: number";
         asset "index.d.ts.map" declaration_map ].

Definition E : env :=
  {| root := "/lz";
     bundler := λ _ _, Some bundle;
     command := λ _ _ _, Some "";
     program := λ _ _ _ files_ dirs_, (Succeeded, files_, dirs_);
     manifest := λ _, Some (Some "1.2.3");
     today := (2024, 0, 5)%nat |}.

Definition common : Pkg := new_Pkg E "common" no_options.
Definition lr : Pkg := new_Pkg E "lr" no_options.

Definition at_ (t : Z) (data : string) : File := {| data := data; mtimeMs := t |}.

Definition world_of (files : list (string * File))
    (dirs : list (string * list string)) : world :=
  {| files := list_to_map files; dirs := list_to_map dirs; now := 1000;
     trace := []; _dependencies := ∅; _rollup := ∅; fresh := O |}.

(** [lr] imports [common] in two statements, and a package that is not in
    the registry. *)
Definition twice : world :=
  world_of
    [ ("/lz/lr/src/index.ts",
       at_ 100 (import_from "common" +:+ import_from "elsewhere"
                +:+ import_from "common"));
      ("/lz/common/src/index.ts", at_ 100 "export const x = 1") ]
    [ ("/lz/lr/src", ["index.ts"]); ("/lz/common/src", ["index.ts"]) ].

(** The bundle of [common] is exactly as old as its one source. *)
Definition tie : world :=
  world_of
    [ ("/lz/common/src/index.ts", at_ 100 "export const x = 1");
      ("/lz/common/dist/index.js", at_ 100 "exports.x = 1") ]
    [ ("/lz/common/src", ["index.ts"]); ("/lz/common/dist", ["index.js"]) ].

(** [common] was never built. *)
Definition unbuilt : world :=
  world_of
    [ ("/lz/common/src/index.ts", at_ 100 "export const x = 1") ]
    [ ("/lz/common/src", ["index.ts"]) ].

(** [common] with a manifest and a changelog, in a repository whose log
    is empty. *)
Definition releasable : world :=
  world_of
    [ ("/lz/common/src/index.ts", at_ 100 "export const x = 1");
      ("/lz/common/package.json",
       at_ 50 ("{" +:+ dq +:+ "version" +:+ dq +:+ ": " +:+ dq +:+ "1.2.3" +:+ dq +:+ "}"));
      ("/lz/common/CHANGELOG.md", at_ 50 "## 1.2.3") ]
    [ ("/lz/common/src", ["index.ts"]) ].

(** [common] built by another tool: the declaration map on disk is the
    one the compiler prints. *)
Definition printed_map : world :=
  world_of
    [ ("/lz/common/src/index.ts", at_ 100 "export const x = 1");
      ("/lz/common/dist/index.d.ts.map", at_ 200 declaration_map) ]
    [ ("/lz/common/src", ["index.ts"]); ("/lz/common/dist", ["index.d.ts.map"]) ].

(** [common] built by the script before: the declaration map on disk is
    the rewritten one. *)
Definition rewritten_map : world :=
  world_of
    [ ("/lz/common/src/index.ts", at_ 100 "export const x = 1");
      ("/lz/common/dist/index.d.ts.map", at_ 200 declaration_map_up) ]
    [ ("/lz/common/src", ["index.ts"]); ("/lz/common/dist", ["index.d.ts.map"]) ].

(** [common] built before: the declaration file on disk is the one that
    the bundler gives. *)
Definition built : world :=
  world_of
    [ ("/lz/common/src/index.ts", at_ 100 "export const x = 1");
      ("/lz/common/dist/index.d.ts", at_ 200 "export declare const x: number") ]
    [ ("/lz/common/src", ["index.ts"]); ("/lz/common/dist", ["index.d.ts"]) ].

(** The configuration of [common] with both outputs, its [cjs] output,
    and the two declaration artifacts of the bundle. *)
Definition both : BuildOptions := {| esm := true; always := false |}.
Definition only_cjs : BuildOptions := {| esm := false; always := false |}.

Definition cjs : Output :=
  {| format := "cjs"; file := cjsFile common; sourcemap := true;
     externalLiveBindings := false |}.

Definition declaration_file : Artifact :=
  asset "index.d.ts" "export declare const x: number".

Definition declaration_map_file : Artifact :=
  asset "index.d.ts.map" declaration_map.

End Sample.

(** ** What the properties speak of *)

(** The actions that running [m] from [w] adds to the trace. *)
Definition performed {A} (m : M A) (w : world) : list action :=
  drop (List.length (trace w)) (trace (m w).2).

(** [m] returns from [w] having done and changed nothing that can be
    seen: no action, and the files and directories as they were. *)
Definition no_op (m : M unit) (w : world) : Prop :=
  (m w).1 = Ok () ∧ performed m w = []
  ∧ files (m w).2 = files w ∧ dirs (m w).2 = dirs w.

(** The time [fileTime] gives for a path. *)
Definition file_time (w : world) (path : string) : Z :=
  match files w !! path with
  | Some f => mtimeMs f
  | None => -1
  end.

(** The output files that a build with [opts] requires. *)
Definition required_outputs (pkg : Pkg) (opts : BuildOptions) : list string :=
  cjsFile pkg :: (if esm opts then [esmFile pkg] else []).

Definition oldest (t : Z) (ts : list Z) : Z := foldr Z.min t ts.
Definition newest (ts : list Z) : option Z :=
  match ts with
  | [] => None
  | t :: ts' => Some (foldr Z.max t ts')
  end.

Definition oldest_output (w : world) (pkg : Pkg) (opts : BuildOptions) : Z :=
  oldest (file_time w (cjsFile pkg))
    (if esm opts then [file_time w (esmFile pkg)] else []).

Definition newest_input (w : world) (inputs : list string) : option Z :=
  newest (file_time w <$> inputs).

(** The staleness decision in the words of the specification: the oldest
    required output is strictly older than the newest input, or the
    build is forced, or a required output is missing. *)
Definition required_strictly (w : world) (pkg : Pkg)
    (opts : BuildOptions) (inputs : list string) : Prop :=
  (∃ m, newest_input w inputs = Some m ∧ oldest_output w pkg opts < m)
  ∨ always opts = true
  ∨ (∃ p, p ∈ required_outputs pkg opts ∧ files w !! p = None).

(** The decision that [rebuild] takes: the oldest required output is not
    newer than the newest input, or the build is forced, or the oldest
    required output has a negative time, which is the time of a missing
    file. *)
Definition required (w : world) (pkg : Pkg) (opts : BuildOptions)
    (inputs : list string) : Prop :=
  (∃ m, newest_input w inputs = Some m ∧ oldest_output w pkg opts ≤ m)
  ∨ always opts = true
  ∨ oldest_output w pkg opts < 0.

(** The first sentence under test, at one package, configuration and
    world. *)
Definition staleness_as_specified (E : env) (pkg : Pkg) (opts : BuildOptions)
    (w : world) : Prop :=
  ∀ inputs w1, inputFiles E pkg w = (Ok inputs, w1) →
    (required_strictly w pkg opts inputs ↔ ¬ no_op (rebuild E pkg opts) w).


Definition writes_to (path : string) (a : action) : bool :=
  match a with
  | WriteFile p _ => bool_decide (p = path)
  | _ => false
  end.



(** [release] with [--version V] does not end on the error of
    [bumpVersion]. *)
Definition explicit_version_suffices (E : env) (pkgName V : string) (w : world) : Prop :=
  (release E pkgName ["--version"; V] w).1 ≠ Throw (Error "No new release notes!").

(** The paths that [emit_file] can write for an artifact of the output
    [out]: its name, unless it is a declaration of another format than
    [cjs], and the map at its side. *)
Definition emits (out : Output) (dir : string) (a : Artifact) : list string :=
  (if negb (test Pat.dts (fileName a)) || bool_decide (format out = "cjs")
   then [path_join dir (fileName a)] else [])
  ++ match map a with
     | Some _ => [path_join dir (fileName a +:+ ".map")]
     | None => []
     end.

(** The paths that a build can write for the bundle [result] of [out],
    and for all outputs of a configuration. *)
Definition targets_of (out : Output) (result : list Artifact) : list string :=
  result ≫= emits out (dirname (file out)).

Definition targets (bundle : Output → option (list Artifact)) (config : Config)
    : list string :=
  output config ≫= λ out,
    match bundle out with
    | Some result => targets_of out result
    | None => []
    end.

(** What [emit_file] hands to [maybeWriteFile] for an artifact with a
    declaration name and the text [c]. *)
Definition declared_content (a : Artifact) (c : string) : string :=
  if test Pat.dts_map (fileName a)
  then replace_first Pat.sourceRoot sourceRoot_up c
  else c.

(** The sentence on declaration files under test, for a reading
    [declaration] of which names are declaration artifacts: in a build
    that ends, an artifact of the [cjs] output that is a declaration and
    is the same as the file on disk leaves that file as it is, and one
    that is no declaration is written. *)
Definition write_suppression_as_specified (declaration : string → bool) : Prop :=
  ∀ E pkg opts w w' bundle out result a c,
    _rollup w !! name pkg = None →
    do_build E pkg opts w = (Ok (), w') →
    bundler E (files w) (rollup_config E pkg opts) = Some bundle →
    out ∈ output (rollup_config E pkg opts) →
    format out = "cjs" →
    bundle out = Some result →
    a ∈ result →
    code_or_source a = Some c →
    let path := path_join (dirname (file out)) (fileName a) in
    if declaration (fileName a) then
      data <$> files w !! path = Some c → files w' !! path = files w !! path
    else
      Exists (λ x, writes_to path x = true) (performed (do_build E pkg opts) w).

(** Occurrence before another in the registry. *)
Definition precedes (pkgs : list Pkg) (a b : Pkg) : Prop :=
  ∃ i j, indexOf pkgs a = Some i ∧ indexOf pkgs b = Some j ∧ (i < j)%nat.

(** The marks of [h] alternate: a rebuild that started finishes before
    the next one starts. *)
Fixpoint one_at_a_time (h : list mark) : Prop :=
  match h with
  | [] => True
  | [Started _] => True
  | Started p :: Finished q _ :: h' => p = q ∧ one_at_a_time h'
  | _ => False
  end.

(** In [h], every start of [b] comes after a start of [a] and the end of
    that rebuild. *)
Definition completes_before (a b : Pkg) (h : list mark) : Prop :=
  ∀ i, h !! i = Some (Started b) →
    ∃ j ok, (S j < i)%nat ∧ h !! j = Some (Started a)
            ∧ h !! S j = Some (Finished a ok).

(** Pairs of a start and the end of the same rebuild. *)
Inductive balanced : list mark → Prop :=
| balanced_nil : balanced []
| balanced_cons p ok h : balanced h → balanced (Started p :: Finished p ok :: h).

(** What holds of the scheduler between two events: nothing is pending
    that is not watched, and a rebuild runs exactly while [working] is
    set, its start being the last mark. *)
Definition Inv (registry : list Pkg) (s : scheduler) : Prop :=
  pkgs (watcher s) = registry
  ∧ stuck s = false
  ∧ (∀ p, p ∈ work (watcher s) → p ∈ registry)
  ∧ match running s with
    | None => working (watcher s) = false ∧ balanced (history s)
    | Some p =>
        working (watcher s) = true
        ∧ ∃ h0, history s = h0 ++ [Started p] ∧ balanced h0
    end.

(** The ways in which one event changes the scheduler: it starts and ends
    nothing; it starts the rebuild of the package that [run] picks, after
    the marks [before]; it ends the rebuild of [q]. *)
Definition quiet_step (t t' : scheduler) : Prop :=
  history t' = history t ∧ running t' = running t
  ∧ working (watcher t') = working (watcher t)
  ∧ (work (watcher t') = work (watcher t)
     ∨ ∃ p, work (watcher t') = work (watcher t) ++ [p]).

Definition pick_step (registry : list Pkg) (t t' : scheduler)
    (before : list mark) : Prop :=
  ∃ p work',
    next_work registry (work (watcher t)) = Some (p, work')
    ∧ history t' = history t ++ before ++ [Started p]
    ∧ running t' = Some p
    ∧ work (watcher t') = work'.

Definition end_step (t t' : scheduler) (q : Pkg) (ok : bool) : Prop :=
  history t' = history t ++ [Finished q ok]
  ∧ running t' = None
  ∧ work (watcher t') = work (watcher t).

(** Where the scheduler stands between a state in which [a] and [b] are
    pending and a later one, [h] being the marks added since: [a] is
    still pending, or its rebuild runs, or it has run and ended; [b] has
    not started before that. *)
Definition phase (a b : Pkg) (t : scheduler) (h : list mark) : Prop :=
  (a ∈ work (watcher t) ∧ Started b ∉ h)
  ∨ (running t = Some a ∧ ∃ h1, h = h1 ++ [Started a] ∧ Started b ∉ h1)
  ∨ (∃ h1 ok h2, h = h1 ++ Started a :: Finished a ok :: h2 ∧ Started b ∉ h1).

(** The scheduler of a new watcher. *)
Definition fresh_scheduler (registry : list Pkg) (opts : BuildOptions) : scheduler :=
  scheduler_of {| pkgs := registry; w_options := opts; work := []; working := false |}.

(** [keeps R P m]: from any world, [m] does not leave the process, ends
    in a world related to the first by [R], and adds to the trace only
    actions that satisfy [P]. *)
Definition keeps {A} (R : world → world → Prop) (P : action → Prop) (m : M A) : Prop :=
  ∀ w, (∀ n, (m w).1 ≠ Exit n)
       ∧ R w (m w).2
       ∧ ∃ t, trace (m w).2 = trace w ++ t ∧ Forall P t.

(** ** Further notions that the statements use *)

(** The worlds that differ at most in what the packages remember and in
    the trace. *)
Definition same_files (w w' : world) : Prop :=
  files w' = files w ∧ dirs w' = dirs w ∧ now w' = now w
  ∧ _rollup w' = _rollup w ∧ fresh w' = fresh w.

(** An action that is not the registration of a file-system watch. *)
Definition no_watch (a : action) : Prop :=
  match a with
  | Watch _ => False
  | _ => True
  end.

(** The baseline pass of [watch]. *)
Definition baseline (E : env) (l : list Pkg) : M unit :=
  for_each l (λ pkg,
    try_catch (rebuild E pkg {| esm := false; always := false |})
      (λ e, console_log (Thrown e))).



(** The one command that [changelog] runs. *)
Definition git_log (pkg : Pkg) (since : option string) : action :=
  Exec "git" ["log"; "--format=%B"; "--reverse"; show since +:+ "..main"] (dir pkg).

(** No entry of any kind. *)
Definition empty (changes : Changes) : Prop :=
  breaking changes = [] ∧ feature changes = [] ∧ fix_ changes = [].

Definition raises {A} (Q : exn → Prop) (m : M A) : Prop :=
  ∀ w e, (m w).1 = Throw e → Q e.

(** An error of the file system or of an external command. *)
Definition external_failure (e : exn) : Prop :=
  match e with
  | ENOENT _ | CommandFailed _ _ | Failure _ => True
  | _ => False
  end.

(** What [doRelease] does when nothing fails, on the texts of the
    manifest and of the changelog. *)
Definition release_actions (E : env) (pkg : Pkg) (changes : Changes) (V : string)
    (manifest_ log_ : string) : list action :=
  let notes := releaseNotes E changes V in
  [ WriteFile (path_join (dir pkg) "package.json")
      (replace_first Pat.version
         (dq +:+ "version" +:+ dq +:+ ": " +:+ dq +:+ V +:+ dq) manifest_);
    WriteFile (path_join (dir pkg) "CHANGELOG.md")
      (head notes +:+ body notes +:+ log_);
    Exec "git" ["add"; "package.json"] (dir pkg);
    Exec "git" ["add"; "CHANGELOG.md"] (dir pkg);
    Exec "git" ["commit"; "-m"; "Mark version " +:+ V] (dir pkg);
    Exec "git" ["tag"; V; "-m"; "Version " +:+ V +:+ nlnl +:+ body notes;
                "--cleanup=verbatim"] (dir pkg) ].

(** The external command of an action succeeds. *)
Definition succeeds (E : env) (a : action) : Prop :=
  match a with
  | Exec cmd args wd => is_Some (command E cmd args wd)
  | _ => True
  end.

(** [released], run from [w], goes on from [w1] to [doRelease] with the
    version [V] and the changes found. *)
Definition proceeds (E : env) (pkgName : string) (pkg : Pkg) (V : string)
    (cur : option string) (changes : Changes) (w w1 : world)
    (released : M unit) : Prop :=
  released w
  = (console_log (Text ("Creating " +:+ pkgName +:+ " " +:+ V));;
     doRelease E pkg changes V) w1
  ∧ (released w).1 ≠ Throw (Error "No new release notes!")
  ∧ ∀ m l,
      files w !! path_join (dir pkg) "package.json" = Some m →
      files w !! path_join (dir pkg) "CHANGELOG.md" = Some l →
      Forall (succeeds E) (release_actions E pkg changes V (data m) (data l)) →
      (released w).1 = Ok ()
      ∧ performed released w
        = git_log pkg cur
          :: Log (Text ("Creating " +:+ pkgName +:+ " " +:+ V))
          :: release_actions E pkg changes V (data m) (data l).

(** The map at the side of an artifact: the last statement of the inner
    loop of [runRollup]. *)
Definition emit_map (dir : string) (a : Artifact) : M unit :=
  match map a with
  | Some m => writeFile (path_join dir (fileName a +:+ ".map")) m
  | None => ret ()
  end.

(** [holds I P m]: from a world that satisfies [I], [m] ends in one that
    does, and adds to the trace only actions that satisfy [P]. *)
Definition holds {A} (I : world → Prop) (P : action → Prop) (m : M A) : Prop :=
  ∀ w, I w → I (m w).2 ∧ ∃ t, trace (m w).2 = trace w ++ t ∧ Forall P t.

(** In the build of [config] with [bundle], only the artifact [a] of the
    output [out] is written to [path]. *)
Definition sole_writer (path : string) (out : Output) (a : Artifact)
    (bundle : Output → option (list Artifact)) (config : Config) : Prop :=
  ∀ out' result' b,
    out' ∈ output config → bundle out' = Some result' → b ∈ result' →
    path ∈ emits out' (dirname (file out')) b →
    out' = out ∧ b = a.

(** The file at [path] is [f0]; it is as it was; the action is no write
    to it. *)
Definition still (path : string) (f0 : File) (w : world) : Prop :=
  files w !! path = Some f0.
Definition same_at (path : string) (w w' : world) : Prop :=
  files w' !! path = files w !! path.
Definition elsewhere (path : string) (a : action) : Prop :=
  writes_to path a = false.

(** ** Notions of the further properties *)

(** The world that the command of the user leaves when it has run in the
    packages [l], one after the other. *)
Definition carried (E : env) (cmd : string) (args : list string) (l : list Pkg)
    (w : world) : world :=
  foldl (λ w pkg, (run_shown E cmd args (dir pkg) w).2) w l.

(** One round of the loop of [runCmd]. *)
Definition visit (E : env) (cont : bool) (cmd : string) (args : list string)
    (pkg : Pkg) : M unit :=
  try_catch (run_shown E cmd args (dir pkg))
    (λ e, console_error (Text (describe e));;
          if negb cont then exit 1 else ret ()).

(** The command in the directory of each package of [l]. *)
Definition visits (cmd : string) (args : list string) (l : list Pkg) : list action :=
  (λ pkg, Exec cmd args (dir pkg)) <$> l.

(** The commands among the actions. *)
Definition is_command (a : action) : bool :=
  match a with
  | Exec _ _ _ => true
  | _ => false
  end.

Definition commands (t : list action) : list action := List.filter is_command t.

(** A command, or a text on the standard error. *)
Definition runs_or_reports (a : action) : Prop :=
  match a with
  | Exec _ _ _ | LogError (Text _) => True
  | _ => False
  end.

(** [runCmd] over the packages [l].  With [--cont] the command runs in
    every package, in the order of [l], whatever fails, nothing is done
    but to run it and to print errors, and the call returns.  Without
    it, the call returns when the command succeeds in every package,
    each time in the world that the packages before have left; where it
    first fails, its error is printed as [e + ""] and the process ends
    with status 1, in the world that the failed command has left: the
    packages after it are not visited.  The error is that of a command
    that left a status other than 0, or that of a command that could not
    be started. *)
Definition runs_in_each (E : env) (l : list Pkg) (runCmd : list string → M unit)
    : Prop :=
  ∀ cmd args w,
    ((runCmd ("--cont" :: cmd :: args) w).1 = Ok ()
     ∧ commands (performed (runCmd ("--cont" :: cmd :: args)) w) = visits cmd args l
     ∧ Forall runs_or_reports (performed (runCmd ("--cont" :: cmd :: args)) w))
    ∧ trace (carried E cmd args l w) = trace w ++ visits cmd args l
    ∧ (cmd ≠ "--cont" →
       ((∀ before pkg after,
           l = before ++ pkg :: after →
           (run_shown E cmd args (dir pkg) (carried E cmd args before w)).1 = Ok ()) →
        runCmd (cmd :: args) w = (Ok (), carried E cmd args l w))
       ∧ (∀ before pkg after e w',
            l = before ++ pkg :: after →
            (∀ b1 p b2,
               before = b1 ++ p :: b2 →
               (run_shown E cmd args (dir p) (carried E cmd args b1 w)).1 = Ok ()) →
            run_shown E cmd args (dir pkg) (carried E cmd args before w)
            = (Throw e, w') →
            runCmd (cmd :: args) w
            = (Exit 1, set_trace (λ t, t ++ [LogError (Text (describe e))]) w')
            ∧ (e = CommandFailed cmd args ∨ ∃ code, e = SpawnFailed cmd code))).

(** An environment like that of the samples in which every command of
    the user leaves a status other than 0 and the files as they are. *)
Definition failing : env :=
  {| root := "/lz";
     bundler := λ _ _, Some Sample.bundle;
     command := λ _ _ _, Some "";
     program := λ _ _ _ files_ dirs_, (Failed, files_, dirs_);
     manifest := λ _, Some (Some "1.2.3");
     today := (2024, 0, 5)%nat |}.

(** The status line of a checkout that is on [main] and level with its
    origin. *)
Definition level : string := "## main...origin/main" +:+ nl.

(** What [status] does in one package: the command, and the report when
    the checkout is not level. *)
Definition report (E : env) (pkg : Pkg) : list action :=
  Exec "git" ["status"; "-sb"] (dir pkg)
  :: match command E "git" ["status"; "-sb"] (dir pkg) with
     | Some output =>
         if bool_decide (output = level) then []
         else [Log (Text (name pkg +:+ ":" +:+ nl +:+ output))]
     | None => []
     end.

(** Options with their values, as they stand on the command line. *)
Definition flat (pairs : list (string * string)) : list string :=
  pairs ≫= λ kv, [kv.1; kv.2].

(** An option of [release-all]: [--grammar], or [--] and the name of a
    registered package. *)
Definition release_all_option (E : env) (arg : string) : Prop :=
  arg = "--grammar" ∨ ∃ n, arg = "--" +:+ n ∧ is_Some (packageNames E !! n).

(** The packages of [work] in the order of the registry. *)
Definition in_order (registry work : list Pkg) : list Pkg :=
  filter (λ q, q ∈ work) registry.

(** The marks of a rebuild that ran and succeeded. *)
Definition rebuilt (q : Pkg) : list mark := [Started q; Finished q true].

(** An event that asks for nothing new: a timer, the end of a rebuild,
    or a change of a package of [pending]. *)
Definition idle (pending : list Pkg) (e : event) : Prop :=
  e = Timeout ∨ (∃ ok, e = Settled ok) ∨ ∃ q, e = Changed q ∧ q ∈ pending.

(** The manifest of a package. *)
Definition manifest_of (pkg : Pkg) : string := path_join (dir pkg) "package.json".

(** A checkout of the second revision in which every package has a
    manifest with a [prepare] script. *)
Definition prepared : string :=
  "{" +:+ dq +:+ "scripts" +:+ dq +:+ ": {" +:+ dq +:+ "prepare" +:+ dq
  +:+ ": " +:+ dq +:+ "rollup -c" +:+ dq +:+ "}}".

Definition cloned : world :=
  {| files := list_to_map ((λ pkg, (manifest_of pkg, Sample.at_ 50 prepared))
                             <$> Rev2.packages Sample.E);
     dirs := ∅; now := 1000; trace := []; _dependencies := ∅; _rollup := ∅;
     fresh := O |}.

(** The kinds of release notes. *)
Inductive kind := BREAKING | FIX | FEATURE.

Global Instance kind_eq_dec : EqDecision kind.
Proof. solve_decision. Defined.

Definition kind_text (k : kind) : string :=
  match k with
  | BREAKING => "BREAKING"
  | FIX => "FIX"
  | FEATURE => "FEATURE"
  end.

(** A paragraph of the log: after [gap] empty lines and one more, a
    note, which is a kind, a colon, a space and the text, or a line of
    another sort, such as the subject of a commit. *)
Record paragraph := { gap : nat; is_ : option kind; says : string }.

Definition paragraph_text (p : paragraph) : list ascii :=
  replicate (gap p) LF ++ [LF; LF]
  ++ match is_ p with
     | Some k => chars (kind_text k) ++ chars ": "
     | None => []
     end
  ++ chars (says p).

(** A text of one line that does not start with white space. *)
Definition line (t : string) : Prop :=
  match chars t with
  | c :: _ => space c = false
  | [] => False
  end
  ∧ Forall (λ c, dot c = true) (chars t).

(** A text of one line that does not start like a note. *)
Definition subject (t : string) : Prop :=
  t ≠ ""
  ∧ Forall (λ c, dot c = true) (chars t)
  ∧ ∀ k, ¬ chars (kind_text k +:+ ":") `prefix_of` chars t.

Definition well_formed (p : paragraph) : Prop :=
  match is_ p with
  | Some _ => line (says p)
  | None => subject (says p)
  end.

(** The log that starts with the line [first], goes on with the
    paragraphs [l] and ends with [n] line feeds. *)
Definition log_text (first : string) (l : list paragraph) (n : nat) : string :=
  first +:+ text ((l ≫= paragraph_text) ++ replicate n LF).

(** The texts of the notes of one kind, in their order, and the changes
    that the paragraphs note. *)
Definition said (k : kind) (l : list paragraph) : list string :=
  says <$> filter (λ p, is_ p = Some k) l.

(** What the scan finds in a paragraph: for a note, its kind and its
    text. *)
Definition found_in (p : paragraph) : list caps :=
  match is_ p with
  | Some k => [[chars (kind_text k); chars (says p)]]
  | None => []
  end.

Definition noted (l : list paragraph) : Changes :=
  {| fix_ := said FIX l; feature := said FEATURE l; breaking := said BREAKING l |}.

(** What may follow a note: the end of the log, a last line break, or an
    empty line. *)
Definition follows (s : list ascii) : Prop :=
  s = [] ∨ s = [LF] ∨ ∃ s', s = LF :: LF :: s'.

(** The lookahead of the pattern of notes. *)
Definition ahead : re :=
  Alt (Pat.seqs [Pat.opt CR; Lit nl; Pat.opt CR; Lit nl])
      (Pat.seqs [Pat.opt CR; Pat.opt LF; Eol]).

(** An environment like that of the samples in which every command
    prints [out]. *)
Definition printing (out : string) : env :=
  {| root := "/lz";
     bundler := λ _ _, Some Sample.bundle;
     command := λ _ _ _, Some out;
     program := λ _ _ _ files_ dirs_, (Succeeded, files_, dirs_);
     manifest := λ _, Some (Some "1.2.3");
     today := (2024, 0, 5)%nat |}.

(** The text of a version of three decimal components. *)
Definition version_text (a b c : N) : string :=
  pretty a +:+ "." +:+ pretty b +:+ "." +:+ pretty c.

(** The version after [a.b.c] that a single note of kind [k] calls for,
    in the first revision and in the second. *)
Definition bumped (k : kind) (a b c : N) : string :=
  match k with
  | BREAKING =>
      if bool_decide (a = 0%N) then version_text a (b + 1) 0
      else version_text (a + 1) 0 0
  | FEATURE => version_text a (b + 1) 0
  | FIX => version_text a b (c + 1)
  end.

Definition bumped2 (k : kind) (a b c : N) : string :=
  match k with
  | BREAKING =>
      if bool_decide (a = 0%N) then version_text a (b + 1) 0
      else version_text (a + 1) 0 0
  | FEATURE =>
      if bool_decide (a = 0%N) then version_text a b (c + 1)
      else version_text a (b + 1) 0
  | FIX => version_text a b (c + 1)
  end.

(** The key of the version in a manifest, with its colon. *)
Definition version_key : string := dq +:+ "version" +:+ dq +:+ ":".

(** The field of the version as [setModuleVersion] writes it. *)
Definition version_field (V : string) : string :=
  dq +:+ "version" +:+ dq +:+ ": " +:+ dq +:+ V +:+ dq.

(** The components of a version, its text, and the largest minor
    component of a list of versions. *)
Definition components : Type := N * N * N.

Definition text_of (v : components) : string := version_text v.1.1 v.1.2 v.2.

Definition largest_minor (vs : list components) : N :=
  foldr N.max 0%N ((λ v, v.1.2) <$> vs).

(** A checkout of the first revision in which every package has a
    manifest. *)
Definition checkout : world :=
  {| files := list_to_map ((λ pkg, (manifest_of pkg, Sample.at_ 50 prepared))
                             <$> packages Sample.E);
     dirs := ∅; now := 1000; trace := []; _dependencies := ∅; _rollup := ∅;
     fresh := O |}.

(** An action that reads or prints: a [git log], or a line on the
    console. *)
Definition reads_or_prints (a : action) : Prop :=
  (∃ pkg since, a = git_log pkg since) ∨ (∃ v, a = Log v) ∨ (∃ v, a = LogError v).

(** [m] leaves the files and the directories as they are, and has only
    read and printed. *)
Definition only_reads {A} (m : M A) (w : world) : Prop :=
  files (m w).2 = files w ∧ dirs (m w).2 = dirs w
  ∧ Forall reads_or_prints (performed m w).

(** A message as its author wrote it, with a reference [](##] between
    each two of its pieces, and as [releaseNotes] hands it on. *)
Definition written (pieces : list string) : string := JS.join "](##" pieces.
Definition linked (pieces : list string) : string :=
  JS.join ("](" +:+ refTarget +:+ "#") pieces.

(** A piece of a message holds no reference of its own. *)
Definition plain (piece : string) : Prop := test Pat.ref piece = false.

(** The part of the notes for one kind of change: its title, when there
    is a message, and the messages, a blank line after each. *)
Definition part (title : string) (messages : list (list string)) : string :=
  (if nonempty messages then "### " +:+ title +:+ nlnl else "")
  +:+ foldr (λ m rest, linked m +:+ nlnl +:+ rest) "" messages.

(** * Theorems *)

(** ** What a computation leaves alone *)

Section Keeps.
Context (R : world → world → Prop) (P : action → Prop) (W : string → Prop).
Context (R_refl : ∀ w, R w w).
Context (R_trans : ∀ w1 w2 w3, R w1 w2 → R w2 w3 → R w1 w3).
Context (R_trace : ∀ w f, R w (set_trace f w)).
Context (R_dirs : ∀ w f, R w (set_dirs f w)).
Context (R_dependencies : ∀ w f, R w (set_dependencies f w)).
Context (R_rollup : ∀ w f, R w (set_rollup f w)).
Context (R_fresh : ∀ w f, R w (set_fresh f w)).
Context (R_write : ∀ w path f, W path → R w (set_files (<[path := f]>) w)).
Context (P_log : ∀ v, P (Log v)).
Context (P_rollup : ∀ i, P (Rollup i)).
Context (P_generate : ∀ f, P (Generate f)).
Context (P_mkdir : ∀ d, P (Mkdir d)).
Context (P_write : ∀ path c, W path → P (WriteFile path c)).

Lemma keeps_ret {A} (a : A) : keeps R P (ret a).
Proof.
  intros w. split; [done|]. split; [apply R_refl|].
  exists []. by rewrite app_nil_r.
Qed.

Lemma keeps_throw {A} e : keeps R P (throw (A := A) e).
Proof.
  intros w. split; [done|]. split; [apply R_refl|].
  exists []. by rewrite app_nil_r.
Qed.

Lemma keeps_gets {A} (f : world → A) : keeps R P (gets f).
Proof.
  intros w. split; [done|]. split; [apply R_refl|].
  exists []. by rewrite app_nil_r.
Qed.

Lemma keeps_lift {A} (o : outcome A) : (∀ n, o ≠ Exit n) → keeps R P (lift o).
Proof.
  intros H w. split; [done|]. split; [apply R_refl|].
  exists []. by rewrite app_nil_r.
Qed.

Lemma keeps_bind {A B} (m : M A) (f : A → M B) :
  keeps R P m → (∀ a, keeps R P (f a)) → keeps R P (bind m f).
Proof.
  intros Hm Hf w. unfold bind.
  destruct (Hm w) as (Hx & HR & t & Ht & HP).
  destruct (m w) as [[a|e|n] w1] eqn:Hmw; simpl in *.
  - destruct (Hf a w1) as (Hx' & HR' & t' & Ht' & HP').
    split; [done|]. split; [eauto|].
    exists (t ++ t'). rewrite Ht', Ht, app_assoc. split; [done|].
    by apply Forall_app.
  - split; [done|]. split; [done|]. eauto.
  - by destruct (Hx n).
Qed.

Lemma keeps_try_catch {A} (m : M A) (h : exn → M A) :
  keeps R P m → (∀ e, keeps R P (h e)) → keeps R P (try_catch m h).
Proof.
  intros Hm Hh w. unfold try_catch.
  destruct (Hm w) as (Hx & HR & t & Ht & HP).
  destruct (m w) as [[a|e|n] w1] eqn:Hmw; simpl in *.
  - split; [done|]. split; [done|]. eauto.
  - destruct (Hh e w1) as (Hx' & HR' & t' & Ht' & HP').
    split; [done|]. split; [eauto|].
    exists (t ++ t'). rewrite Ht', Ht, app_assoc. split; [done|].
    by apply Forall_app.
  - by destruct (Hx n).
Qed.

Lemma keeps_for_each {A} (l : list A) (f : A → M unit) :
  (∀ x, x ∈ l → keeps R P (f x)) → keeps R P (for_each l f).
Proof.
  induction l as [|x l IH]; intros H; simpl.
  - apply keeps_ret.
  - apply keeps_bind; [apply H; left|].
    intros _. apply IH. intros y Hy. apply H. by right.
Qed.

Lemma keeps_some {A} (f : A → M bool) (l : list A) :
  (∀ x, keeps R P (f x)) → keeps R P (some f l).
Proof.
  intros H. induction l as [|x l IH]; simpl.
  - apply keeps_ret.
  - apply keeps_bind; [done|]. intros [|]; [apply keeps_ret|done].
Qed.

Lemma keeps_reduce {A B} (f : B → A → M B) (l : list A) (b : B) :
  (∀ b x, keeps R P (f b x)) → keeps R P (reduce f l b).
Proof.
  intros H. revert b. induction l as [|x l IH]; intros b; simpl.
  - apply keeps_ret.
  - apply keeps_bind; [done|]. intros b'. apply IH.
Qed.

Lemma keeps_emit a : P a → keeps R P (emit a).
Proof.
  intros H w. split; [done|]. split; [apply R_trace|].
  exists [a]. split; [done|]. by constructor.
Qed.

Lemma keeps_stat path : keeps R P (stat path).
Proof.
  intros w. unfold stat. destruct (files w !! path);
    (split; [done|]; split; [apply R_refl|]; exists []; by rewrite app_nil_r).
Qed.

Lemma keeps_readFile path : keeps R P (readFile path).
Proof.
  apply keeps_bind; [apply keeps_stat|]. intros. apply keeps_ret.
Qed.

Lemma keeps_readdir path : keeps R P (readdir path).
Proof.
  intros w. unfold readdir. destruct (dirs w !! path);
    (split; [done|]; split; [apply R_refl|]; exists []; by rewrite app_nil_r).
Qed.

Lemma keeps_modify f :
  (∀ w, R w (f w)) → (∀ w, trace (f w) = trace w) → keeps R P (modify f).
Proof.
  intros HR Ht w. split; [done|]. split; [apply HR|].
  exists []. simpl. by rewrite Ht, app_nil_r.
Qed.

Lemma keeps_writeFile path c : W path → keeps R P (writeFile path c).
Proof.
  intros HW. apply keeps_bind; [by apply keeps_emit, P_write|].
  intros _. apply keeps_modify; [|done].
  intros w. eapply R_trans; [by apply R_write|]. apply R_dirs.
Qed.

Lemma keeps_mkdir path : keeps R P (mkdir path).
Proof.
  apply keeps_bind; [by apply keeps_emit|].
  intros _. apply keeps_modify; [|done]. intros w. apply R_dirs.
Qed.

Lemma keeps_sources this : keeps R P (sources this).
Proof.
  apply keeps_bind; [apply keeps_readdir|]. intros. apply keeps_ret.
Qed.

Lemma keeps_declarations this : keeps R P (declarations this).
Proof.
  apply keeps_bind; [apply keeps_gets|]. intros [|]; simpl; [|apply keeps_ret].
  apply keeps_bind; [apply keeps_readdir|]. intros. apply keeps_ret.
Qed.

Lemma keeps_scan_dependencies registry this :
  keeps R P (scan_dependencies registry this).
Proof.
  apply keeps_bind; [apply keeps_gets|]. intros cached.
  apply keeps_bind; [|intros; apply keeps_gets].
  destruct cached; [apply keeps_ret|].
  apply keeps_bind; [by apply keeps_modify|]. intros _.
  apply keeps_bind; [apply keeps_sources|]. intros files.
  apply keeps_for_each. intros file _.
  apply keeps_bind; [apply keeps_readFile|]. intros text.
  apply keeps_for_each. intros m _.
  apply keeps_bind; [apply keeps_gets|]. intros deps.
  destruct (negb _); [|apply keeps_ret].
  destruct (registry !! _); [|apply keeps_ret].
  by apply keeps_modify.
Qed.

Lemma keeps_inputFiles E this : keeps R P (inputFiles E this).
Proof.
  apply keeps_bind; [apply keeps_sources|]. intros own.
  apply keeps_bind; [apply keeps_scan_dependencies|]. intros deps.
  apply keeps_bind; [|intros; apply keeps_ret].
  apply keeps_reduce. intros arr dep.
  apply keeps_bind; [apply keeps_declarations|]. intros. apply keeps_ret.
Qed.

Lemma keeps_fileTime path : keeps R P (fileTime path).
Proof.
  apply keeps_try_catch.
  - apply keeps_bind; [apply keeps_stat|]. intros. apply keeps_ret.
  - intros []; try apply keeps_throw. apply keeps_ret.
Qed.

Lemma keeps_up_to_date E pkg opts : keeps R P (up_to_date E pkg opts).
Proof.
  unfold up_to_date. destruct (negb _); [|apply keeps_ret].
  apply keeps_bind; [apply keeps_fileTime|]. intros cjs.
  apply keeps_bind; [destruct (esm opts); [apply keeps_fileTime|apply keeps_ret]|].
  intros esm. destruct (geq _ _); [|apply keeps_ret].
  apply keeps_bind; [apply keeps_inputFiles|]. intros inputs.
  apply keeps_bind; [|intros; apply keeps_ret].
  apply keeps_some. intros file.
  apply keeps_bind; [apply keeps_fileTime|]. intros. apply keeps_ret.
Qed.

Lemma keeps_rollupConfig E pkg opts : keeps R P (rollupConfig E pkg opts).
Proof.
  apply keeps_bind; [apply keeps_gets|]. intros [c|]; [apply keeps_ret|].
  apply keeps_bind; [apply keeps_gets|]. intros id.
  apply keeps_bind; [by apply keeps_modify|]. intros _.
  apply keeps_bind; [by apply keeps_modify|]. intros _. apply keeps_ret.
Qed.

Lemma keeps_maybeWriteFile path content :
  W path → keeps R P (maybeWriteFile path content).
Proof.
  intros HW. destruct content as [buffer|]; [|apply keeps_throw].
  apply keeps_bind.
  { apply keeps_try_catch.
    - apply keeps_bind; [apply keeps_stat|]. intros. apply keeps_ret.
    - intros []; try apply keeps_throw. apply keeps_ret. }
  intros size. apply keeps_bind.
  { destruct (negb _); [apply keeps_ret|].
    apply keeps_bind; [apply keeps_readFile|]. intros. apply keeps_ret. }
  intros [|]; [by apply keeps_writeFile|apply keeps_ret].
Qed.

Lemma keeps_emit_file out dir a :
  (∀ p, p ∈ emits out dir a → W p) → keeps R P (emit_file out dir a).
Proof.
  intros HW.
  assert (negb (test Pat.dts (fileName a)) || bool_decide (format out = "cjs") = true
          → W (path_join dir (fileName a))) as H1.
  { intros H. apply HW. unfold emits. rewrite H. apply elem_of_app. left. left. }
  assert (is_Some (map a) → W (path_join dir (fileName a +:+ ".map"))) as H2.
  { intros [m Hm]. apply HW. unfold emits. rewrite Hm. apply elem_of_app. right. left. }
  unfold emit_file. apply keeps_bind.
  - destruct (negb (test Pat.dts (fileName a))) eqn:Hd.
    + destruct (code_or_source a); [|apply keeps_throw].
      by apply keeps_writeFile, H1.
    + case_bool_decide as Hc; [|apply keeps_ret].
      apply keeps_bind.
      * destruct (test Pat.dts_map _); [|apply keeps_ret].
        destruct (code_or_source a); [apply keeps_ret|apply keeps_throw].
      * intros content. apply keeps_maybeWriteFile, H1.
        apply orb_true_r.
  - intros _. destruct (map a); [|apply keeps_ret].
    apply keeps_writeFile, H2. eauto.
Qed.

Lemma keeps_emit_output bundle out :
  (∀ result a, bundle out = Some result → a ∈ result →
     ∀ p, p ∈ emits out (dirname (file out)) a → W p) →
  keeps R P (emit_output bundle out).
Proof.
  intros HW. unfold emit_output.
  apply keeps_bind; [by apply keeps_emit|]. intros _.
  destruct (bundle out) as [result|] eqn:Hr; [|apply keeps_throw].
  apply keeps_bind; [apply keeps_mkdir|]. intros _.
  apply keeps_for_each. intros a Ha.
  apply keeps_emit_file. eauto.
Qed.

Lemma keeps_runRollup E config :
  (∀ p, W p) → keeps R P (runRollup E config).
Proof.
  intros HW. unfold runRollup.
  apply keeps_bind; [by apply keeps_emit|]. intros _.
  apply keeps_bind; [apply keeps_gets|]. intros present.
  destruct (bundler E present config) as [bundle|] eqn:Hb; [|apply keeps_throw].
  apply keeps_for_each. intros out Hout.
  apply keeps_emit_output. auto.
Qed.

Lemma keeps_do_build E pkg opts : (∀ p, W p) → keeps R P (do_build E pkg opts).
Proof.
  intros HW. unfold do_build.
  apply keeps_bind; [by apply keeps_emit|]. intros _.
  apply keeps_bind; [apply keeps_gets|]. intros t0.
  apply keeps_bind; [apply keeps_rollupConfig|]. intros config.
  apply keeps_bind; [by apply keeps_runRollup|]. intros _.
  apply keeps_bind; [apply keeps_gets|]. intros t1.
  by apply keeps_emit.
Qed.

Lemma keeps_rebuild E pkg opts : (∀ p, W p) → keeps R P (rebuild E pkg opts).
Proof.
  intros HW. unfold rebuild.
  apply keeps_bind; [apply keeps_up_to_date|].
  intros [|]; [apply keeps_ret|by apply keeps_do_build].
Qed.

End Keeps.

(** ** Versions *)

(** C5. The three scenarios of [bumpVersion], in both revisions: a
    feature bumps the minor component, a fix the patch component, and a
    breaking change under major version 0 the minor component. *)
Theorem bumpVersion_scenarios :
  bumpVersion (Some "1.2.3") {| breaking := []; feature := ["x"]; fix_ := [] |} = Ok "1.3.0"
  ∧ bumpVersion (Some "1.2.3") {| breaking := []; feature := []; fix_ := ["y"] |} = Ok "1.2.4"
  ∧ bumpVersion (Some "0.4.0") {| breaking := ["z"]; feature := []; fix_ := [] |} = Ok "0.5.0"
  ∧ Rev2.bumpVersion (Some "1.2.3") {| breaking := []; feature := ["x"]; fix_ := [] |} = Ok "1.3.0"
  ∧ Rev2.bumpVersion (Some "1.2.3") {| breaking := []; feature := []; fix_ := ["y"] |} = Ok "1.2.4"
  ∧ Rev2.bumpVersion (Some "0.4.0") {| breaking := ["z"]; feature := []; fix_ := [] |} = Ok "0.5.0".
Proof. repeat split; vm_compute; reflexivity. Qed.

Lemma rollupConfig_cached E this opts config w :
  _rollup w !! name this = Some config →
  rollupConfig E this opts w = (Ok config, w).
Proof. intros H. unfold rollupConfig, bind, gets. by rewrite H. Qed.

Lemma rollupConfig_first E this opts w :
  _rollup w !! name this = None →
  rollupConfig E this opts w =
    (Ok (Obj (fresh w) (rollup_config E this opts)),
     set_rollup (<[name this := Obj (fresh w) (rollup_config E this opts)]>)
       (set_fresh S w)).
Proof. intros H. unfold rollupConfig, bind, gets. by rewrite H. Qed.

Lemma rollupConfig_total E this opts w :
  ∃ config w1, rollupConfig E this opts w = (Ok config, w1)
    ∧ _rollup w1 !! name this = Some config
    ∧ match _rollup w !! name this with
      | Some c => config = c ∧ w1 = w
      | None => config = Obj (fresh w) (rollup_config E this opts)
      end.
Proof.
  destruct (_rollup w !! name this) as [c|] eqn:H.
  - exists c, w. by rewrite (rollupConfig_cached _ _ _ c).
  - eexists _, _. rewrite rollupConfig_first by done. split; [done|].
    split; [|done]. simpl. by rewrite lookup_insert_eq.
Qed.

Lemma rollupConfig2_total this opts w :
  ∃ config w1, Rev2.rollupConfig this opts w = (Ok config, w1)
    ∧ _rollup w1 !! name this = Some config
    ∧ match _rollup w !! name this with
      | Some c => config = c ∧ w1 = w
      | None => config = Obj (fresh w) (Rev2.rollup_config this opts)
      end.
Proof.
  unfold Rev2.rollupConfig, bind, gets.
  destruct (_rollup w !! name this) as [c|] eqn:H.
  - exists c, w. by rewrite H.
  - eexists _, _. split; [done|]. split; [|done]. simpl. by rewrite lookup_insert_eq.
Qed.

(** C10. [rollupConfig] latches its first argument: after a first call
    with [opts1], every later call, whatever its options, returns the
    same object (same identity, same content) and changes nothing; when
    the package had no configuration yet, that object is the one made
    from [opts1], with the ESM output exactly when [opts1] asks for it.
    In both revisions. *)
Theorem rollupConfig_latches E this opts1 (later : list BuildOptions) w :
  (∃ config w1,
     rollupConfig E this opts1 w = (Ok config, w1)
     ∧ Forall (λ opts2, rollupConfig E this opts2 w1 = (Ok config, w1)) later
     ∧ match _rollup w !! name this with
       | Some c => config = c
       | None =>
           oval config = rollup_config E this opts1
           ∧ format <$> output (oval config)
             = if esm opts1 then ["esm"; "cjs"] else ["cjs"]
       end)
  ∧ (∃ config w1,
       Rev2.rollupConfig this opts1 w = (Ok config, w1)
       ∧ Forall (λ opts2, Rev2.rollupConfig this opts2 w1 = (Ok config, w1)) later
       ∧ match _rollup w !! name this with
         | Some c => config = c
         | None =>
             oval config = Rev2.rollup_config this opts1
             ∧ format <$> output (oval config)
               = if esm opts1 then ["es"; "cjs"] else ["cjs"]
         end).
Proof.
  split.
  - destruct (rollupConfig_total E this opts1 w) as (config & w1 & H1 & Hc & Hw).
    exists config, w1. split; [done|]. split.
    + apply Forall_forall. intros opts2 _. by apply rollupConfig_cached.
    + destruct (_rollup w !! name this); [tauto|].
      subst config. split; [done|]. simpl. by destruct (esm opts1).
  - destruct (rollupConfig2_total this opts1 w) as (config & w1 & H1 & Hc & Hw).
    exists config, w1. split; [done|]. split.
    + apply Forall_forall. intros opts2 _.
      unfold Rev2.rollupConfig, bind, gets. by rewrite Hc.
    + destruct (_rollup w !! name this); [tauto|].
      subst config. split; [done|]. simpl. by destruct (esm opts1).
Qed.

(** C2 (the code differs).  [lr] imports [common] in two statements: its
    dependencies hold [common] twice, in both revisions.  The test
    [includes] looks for the imported name, a string, in an array of
    package objects, and finds none. *)
Theorem dependencies_repeat_a_package :
  (dependencies Sample.E Sample.lr Sample.twice).1
    = Ok [Sample.common; Sample.common]
  ∧ (Rev2.dependencies Sample.E Sample.lr Sample.twice).1
    = Ok [Sample.common; Sample.common]
  ∧ ¬ NoDup [Sample.common; Sample.common].
Proof.
  split; [by vm_compute|]. split; [by vm_compute|].
  intros H. apply NoDup_cons in H as [H _]. apply H. by left.
Qed.

(** ** The watch scheduler *)

Lemma indexOf_lookup (l : list Pkg) p i : indexOf l p = Some i → l !! i = Some p.
Proof.
  revert i. induction l as [|x l IH]; intros i; simpl; [done|].
  case_bool_decide as Hx.
  - intros [= <-]. by subst.
  - destruct (indexOf l p) as [j|] eqn:Hj; simpl; [|done].
    intros [= <-]. simpl. by apply IH.
Qed.

Lemma indexOf_None (l : list Pkg) p : indexOf l p = None ↔ p ∉ l.
Proof.
  induction l as [|x l IH]; simpl.
  - split; [intros _; apply not_elem_of_nil|done].
  - case_bool_decide as Hx.
    + split; [done|]. intros H. exfalso. apply H. subst. left.
    + destruct (indexOf l p) eqn:Hj; simpl.
      * split; [done|]. intros H. exfalso. apply H. right.
        apply dec_stable. intros Hn. apply IH in Hn. done.
      * split; [|done]. intros _ [->|H]%elem_of_cons; [done|].
        by apply IH in H.
Qed.

Lemma indexOf_elem (l : list Pkg) p : p ∈ l → is_Some (indexOf l p).
Proof.
  intros H. destruct (indexOf l p) eqn:Hi; [eauto|].
  by apply indexOf_None in Hi.
Qed.

(** The package that [run] picks is in [work], comes first in the
    registry among those of [work], and is what leaves [work]. *)
Lemma next_work_first pkgs work p work' :
  next_work pkgs work = Some (p, work') →
  ∃ i k, indexOf pkgs p = Some i ∧ indexOf work p = Some k
    ∧ work' = delete k work
    ∧ ∀ a j, indexOf pkgs a = Some j → a ∈ work → (i ≤ j)%nat.
Proof.
  induction pkgs as [|q rest IH]; simpl; [done|].
  destruct (indexOf work q) as [k|] eqn:Hq.
  - intros [= <- <-]. exists O, k. rewrite bool_decide_eq_true_2 by done.
    repeat split; try done. intros; lia.
  - intros H. destruct (IH H) as (i & k & Hi & Hk & Hw & Hmin).
    assert (q ≠ p) as Hne.
    { intros ->. by rewrite Hk in Hq. }
    exists (S i), k. rewrite bool_decide_eq_false_2 by done.
    rewrite Hi. repeat split; try done.
    intros a j. case_bool_decide as Ha.
    + subst a. intros _ Hin. apply indexOf_None in Hq. done.
    + destruct (indexOf rest a) as [j'|] eqn:Hj; simpl; [|done].
      intros [= <-] Hin. specialize (Hmin a j' Hj Hin). lia.
Qed.

Lemma next_work_precedes pkgs work p work' a :
  next_work pkgs work = Some (p, work') →
  a ∈ work → a ∈ pkgs → a ≠ p → precedes pkgs p a.
Proof.
  intros H Ha Hp Hne.
  destruct (next_work_first _ _ _ _ H) as (i & k & Hi & Hk & Hw & Hmin).
  destruct (indexOf_elem _ _ Hp) as [j Hj].
  exists i, j. repeat split; try done.
  specialize (Hmin a j Hj Ha).
  destruct (decide (i = j)) as [->|]; [|lia].
  apply indexOf_lookup in Hi, Hj. congruence.
Qed.

Lemma next_work_stays pkgs work p work' a :
  next_work pkgs work = Some (p, work') → a ∈ work → a ≠ p → a ∈ work'.
Proof.
  intros H Ha Hne.
  destruct (next_work_first _ _ _ _ H) as (i & k & Hi & Hk & -> & Hmin).
  apply indexOf_lookup in Hk.
  apply list_elem_of_lookup in Ha as [n Hn].
  destruct (decide (n < k)%nat).
  - apply list_elem_of_lookup. exists n. by rewrite list_lookup_delete_lt.
  - assert (n ≠ k) by congruence.
    apply list_elem_of_lookup. exists (pred n).
    rewrite list_lookup_delete_ge by lia. replace (S (pred n)) with n by lia. done.
Qed.

Lemma next_work_sub pkgs work p work' a :
  next_work pkgs work = Some (p, work') → a ∈ work' → a ∈ work.
Proof.
  intros H Ha.
  destruct (next_work_first _ _ _ _ H) as (i & k & Hi & Hk & -> & Hmin).
  by apply list_elem_of_delete_inv in Ha.
Qed.

Lemma next_work_Some pkgs work p :
  p ∈ work → p ∈ pkgs → is_Some (next_work pkgs work).
Proof.
  intros Hw. induction pkgs as [|q rest IH]; simpl.
  - by intros ?%elem_of_nil.
  - destruct (indexOf work q) eqn:Hq; [eauto|].
    intros [->|H]%elem_of_cons; [|eauto].
    apply indexOf_None in Hq. done.
Qed.

Lemma balanced_app h1 h2 : balanced h1 → balanced h2 → balanced (h1 ++ h2).
Proof. induction 1; simpl; [done|]. intros. constructor. auto. Qed.

Lemma balanced_one_at_a_time h : balanced h → one_at_a_time h.
Proof. induction 1; simpl; done. Qed.

Lemma balanced_open h p : balanced h → one_at_a_time (h ++ [Started p]).
Proof. induction 1; simpl; done. Qed.

Lemma balanced_close h p ok :
  balanced h → balanced ((h ++ [Started p]) ++ [Finished p ok]).
Proof.
  intros H. rewrite <- app_assoc. apply balanced_app; [done|].
  simpl. repeat constructor.
Qed.

Lemma Inv_one_at_a_time registry s : Inv registry s → one_at_a_time (history s).
Proof.
  intros (_ & _ & _ & H). destruct (running s).
  - destruct H as (_ & h0 & -> & Hb). by apply balanced_open.
  - destruct H as [_ Hb]. by apply balanced_one_at_a_time.
Qed.

Lemma Inv_init registry opts :
  Inv registry (scheduler_of {| pkgs := registry; w_options := opts;
                                work := []; working := false |}).
Proof.
  repeat split; simpl; try done.
  - by intros p ?%elem_of_nil.
  - constructor.
Qed.

Lemma Watcher_run_shape registry t :
  pkgs (watcher t) = registry → stuck t = false →
  (∀ p, p ∈ work (watcher t) → p ∈ registry) →
  working (watcher t) = true →
  running t = None →
  balanced (history t) →
  let t' := Watcher_run t in
  Inv registry t'
  ∧ ((history t' = history t ∧ running t' = None
      ∧ work (watcher t') = work (watcher t) ∧ work (watcher t) = [])
     ∨ pick_step registry t t' []).
Proof.
  intros Hp Hs Hw Hwk Hr Hb. unfold Watcher_run.
  destruct (work (watcher t)) as [|x l] eqn:Hwork.
  - split.
    + unfold Inv. simpl. rewrite Hr, Hwork. repeat split; try done.
    + left. simpl. by rewrite Hwork.
  - rewrite Hp.
    destruct (next_work registry (x :: l)) as [[p work']|] eqn:Hn.
    + split.
      * unfold Inv. simpl. repeat split; try done.
        -- intros a Ha. apply Hw. eapply next_work_sub; eauto.
        -- eauto.
      * right. exists p, work'. simpl. repeat split; try done.
        by rewrite Hwork.
    + exfalso. assert (x ∈ x :: l) as Hx by left.
      destruct (next_work_Some registry (x :: l) x Hx) as [? Hsome].
      * apply Hw. left.
      * congruence.
Qed.

Lemma step_shape registry t e :
  Inv registry t →
  let t' := step t e in
  Inv registry t'
  ∧ (quiet_step t t'
     ∨ (e = Timeout ∧ running t = None ∧ working (watcher t) = false
        ∧ pick_step registry t t' [])
     ∨ (∃ q ok, e = Settled ok ∧ running t = Some q
          ∧ (pick_step registry t t' [Finished q ok] ∨ end_step t t' q ok))).
Proof.
  intros (Hp & Hs & Hw & Hr). unfold step. rewrite Hs.
  destruct e as [pkg| |ok].
  - (* a change *)
    case_bool_decide as Hin.
    2:{ split; [by repeat split|]. left. repeat split; auto. }
    unfold Watcher_trigger. destruct (negb _) eqn:Hinc; simpl.
    + split.
      * unfold Inv. simpl. repeat split; try done.
        intros p [H|H%list_elem_of_singleton]%elem_of_app; [auto|].
        subst p. by rewrite <- Hp.
      * left. repeat split; simpl; eauto.
    + split; [by repeat split|]. left. repeat split; auto.
  - (* a timer *)
    destruct (timers t) as [|n] eqn:Ht.
    { split; [by repeat split|]. left. repeat split; auto. }
    unfold Watcher_startWork. simpl.
    destruct (working (watcher t)) eqn:Hwk.
    + split.
      * unfold Inv. simpl. by rewrite Hwk.
      * left. repeat split; simpl; auto.
    + destruct (running t) as [q|] eqn:Hrun; [by destruct Hr|].
      destruct Hr as [_ Hb].
      set (t1 := set_working true _).
      destruct (Watcher_run_shape registry t1) as [HI Hsh]; try done.
      split; [done|].
      destruct Hsh as [(Hh & Hr' & Hw' & He)|Hpick].
      * left. split; [done|]. split; [by rewrite Hr', Hrun|].
        split; [|by left].
        destruct HI as (_ & _ & _ & HI). rewrite Hr' in HI.
        destruct HI as [HI _]. by rewrite HI.
      * right. left. repeat split; try done.
  - (* the end of a rebuild *)
    destruct (running t) as [q|] eqn:Hrun.
    2:{ split; [unfold Inv; by rewrite Hrun|]. left. repeat split; auto. }
    destruct Hr as (Hwk & h0 & Hh & Hb).
    set (t1 := {| watcher := watcher t; timers := timers t; running := None;
                  stuck := false; history := history t ++ [Finished q ok] |}).
    destruct ok.
    + destruct (Watcher_run_shape registry t1) as [HI Hsh]; try done.
      { simpl. rewrite Hh. by apply balanced_close. }
      split; [done|]. right. right. exists q, true. split; [done|]. split; [done|].
      destruct Hsh as [(Hh' & Hr' & Hw' & He)|(p & work' & Hn & Hh' & Hr' & Hw')].
      * right. repeat split; auto.
      * left. exists p, work'. repeat split; try done.
        rewrite Hh'. simpl. by rewrite <- app_assoc.
    + split.
      * unfold Inv. simpl. repeat split; try done.
        rewrite Hh. by apply balanced_close.
      * right. right. exists q, false. split; [done|]. split; [done|]. right.
        repeat split; done.
Qed.

Lemma Inv_steps registry s es : Inv registry s → Inv registry (steps s es).
Proof.
  revert s. induction es as [|e es IH]; intros s H; simpl; [done|].
  apply IH. by apply step_shape.
Qed.

Lemma precedes_ne pkgs a b : precedes pkgs a b → a ≠ b.
Proof. intros (i & j & Hi & Hj & Hlt) ->. rewrite Hi in Hj. injection Hj. lia. Qed.

Lemma precedes_asym pkgs a b : precedes pkgs a b → ¬ precedes pkgs b a.
Proof.
  intros (i & j & Hi & Hj & Hlt) (j' & i' & Hj' & Hi' & Hlt').
  rewrite Hi in Hi'. rewrite Hj in Hj'. simplify_eq. lia.
Qed.

Lemma phase_step registry a b t h0 h e :
  Inv registry t → precedes registry a b →
  history t = h0 ++ h → phase a b t h →
  ∃ h', history (step t e) = h0 ++ h' ∧ phase a b (step t e) h'.
Proof.
  intros HI Hab Hh Hph.
  pose proof (precedes_ne _ _ _ Hab) as Hne.
  assert (a ∈ registry) as Ha.
  { destruct Hab as (i & _ & Hi%indexOf_lookup & _). by eapply list_elem_of_lookup_2. }
  destruct (step_shape registry t e HI) as [HI' Hsh].
  set (t' := step t e) in *.
  destruct Hph as [[Hw Hb]|[(Hr & h1 & -> & Hb)|(h1 & ok & h2 & -> & Hb)]].
  - (* [a] is pending *)
    destruct Hsh as [(Hh' & Hr' & _ & Hw')|[(_ & _ & _ & Hpick)|(q & ok & _ & Hq & [Hpick|Hend])]].
    + exists h. split; [congruence|]. left. split; [|done].
      destruct Hw' as [->|[p ->]]; [done|]. apply elem_of_app. by left.
    + destruct Hpick as (p & work' & Hn & Hh' & Hr' & Hw').
      exists (h ++ [Started p]). split.
      { rewrite Hh', Hh. simpl. by rewrite app_assoc. }
      destruct (decide (p = a)) as [->|Hpa].
      * right. left. split; [done|]. eauto.
      * left. split.
        { rewrite Hw'. eapply next_work_stays; eauto. }
        intros [?|Hin%list_elem_of_singleton]%elem_of_app; [done|].
        injection Hin as <-.
        eapply precedes_asym; [exact Hab|].
        eapply next_work_precedes; eauto.
    + destruct Hpick as (p & work' & Hn & Hh' & Hr' & Hw').
      exists (h ++ [Finished q ok; Started p]). split.
      { rewrite Hh', Hh. simpl. by rewrite app_assoc. }
      destruct (decide (p = a)) as [->|Hpa].
      * right. left. split; [done|]. exists (h ++ [Finished q ok]).
        split; [by rewrite <- app_assoc|].
        intros [?|?%list_elem_of_singleton]%elem_of_app; [done|congruence].
      * left. split; [rewrite Hw'; eapply next_work_stays; eauto|].
        intros [?|Hin]%elem_of_app; [done|].
        apply elem_of_cons in Hin as [?|Hin%list_elem_of_singleton]; [congruence|].
        injection Hin as <-.
        eapply precedes_asym; [exact Hab|].
        eapply next_work_precedes; eauto.
    + destruct Hend as (Hh' & Hr' & Hw').
      exists (h ++ [Finished q ok]). split.
      { rewrite Hh', Hh. by rewrite app_assoc. }
      left. split; [by rewrite Hw'|].
      intros [?|?%list_elem_of_singleton]%elem_of_app; [done|congruence].
  - (* the rebuild of [a] runs *)
    destruct Hsh as [(Hh' & Hr' & _ & Hw')|[(_ & Hnone & _)|(q & ok & _ & Hq & [Hpick|Hend])]].
    + exists (h1 ++ [Started a]). split; [congruence|]. right. left.
      split; [congruence|eauto].
    + congruence.
    + destruct Hpick as (p & work' & Hn & Hh' & Hr' & Hw').
      assert (q = a) as -> by congruence.
      exists (h1 ++ Started a :: Finished a ok :: [Started p]). split.
      { rewrite Hh', Hh. simpl. by rewrite <- !app_assoc. }
      right. right. eauto.
    + destruct Hend as (Hh' & Hr' & Hw').
      assert (q = a) as -> by congruence.
      exists (h1 ++ Started a :: Finished a ok :: []). split.
      { rewrite Hh', Hh. simpl. by rewrite <- !app_assoc. }
      right. right. eauto.
  - (* the rebuild of [a] has ended *)
    assert (∃ g, history t' = history t ++ g) as [g Hg].
    { destruct Hsh as [(Hh' & _)|[(_ & _ & _ & Hpick)|(q & ok' & _ & Hq & [Hpick|Hend])]].
      - exists []. by rewrite app_nil_r.
      - destruct Hpick as (p & work' & Hn & Hh' & _). eauto.
      - destruct Hpick as (p & work' & Hn & Hh' & _). eauto.
      - destruct Hend as (Hh' & _). eauto. }
    exists (h1 ++ Started a :: Finished a ok :: (h2 ++ g)). split.
    { rewrite Hg, Hh. rewrite <- !app_assoc. done. }
    right. right. eauto.
Qed.

Lemma phase_steps registry a b t h0 h es :
  Inv registry t → precedes registry a b →
  history t = h0 ++ h → phase a b t h →
  ∃ h', history (steps t es) = h0 ++ h' ∧ phase a b (steps t es) h'.
Proof.
  revert t h. induction es as [|e es IH]; intros t h HI Hab Hh Hph; simpl.
  - eauto.
  - destruct (phase_step registry a b t h0 h e) as (h' & Hh' & Hph'); try done.
    eapply IH; eauto. by apply step_shape.
Qed.

Lemma phase_completes a b t h : a ≠ b → phase a b t h → completes_before a b h.
Proof.
  intros Hne [[_ Hb]|[(_ & h1 & -> & Hb)|(h1 & ok & h2 & -> & Hb)]] i Hi.
  - exfalso. apply Hb. by eapply list_elem_of_lookup_2.
  - exfalso. apply lookup_app_Some in Hi as [Hi|[_ Hi]].
    + apply Hb. by eapply list_elem_of_lookup_2.
    + apply list_lookup_singleton_Some in Hi as [_ Hi]. congruence.
  - apply lookup_app_Some in Hi as [Hi|[Hlen Hi]].
    { exfalso. apply Hb. by eapply list_elem_of_lookup_2. }
    destruct (i - List.length h1)%nat as [|[|n]] eqn:Hn; simpl in Hi; try congruence.
    exists (List.length h1), ok. split; [lia|]. split.
    + rewrite lookup_app_r by lia. by rewrite Nat.sub_diag.
    + rewrite lookup_app_r by lia. by replace (S (List.length h1) - List.length h1)%nat with 1%nat by lia.
Qed.

Lemma pick_step_first registry t t' before p q g :
  Inv registry t →
  pick_step registry t t' before →
  history t' = history t ++ g ++ [Started p] →
  p ∈ work (watcher t)
  ∧ (q ∈ work (watcher t) → q ≠ p → precedes registry p q).
Proof.
  intros (_ & _ & Hw & _) (p' & work' & Hn & Hh & _) Hg.
  rewrite Hh in Hg. apply app_inv_head in Hg.
  apply app_inj_tail in Hg as [_ [= ->]].
  destruct (next_work_first _ _ _ _ Hn) as (i & k & Hi & Hk%indexOf_lookup & _).
  split; [by eapply list_elem_of_lookup_2|].
  intros Hq Hne. eapply next_work_precedes; eauto.
Qed.

Lemma includes_work (l : list Pkg) p :
  includes (VPkg <$> l) (VPkg p) = bool_decide (p ∈ l).
Proof.
  assert (Inj (=) (=) VPkg) by (by intros ?? [=]).
  unfold includes. apply bool_decide_ext.
  by apply (list_elem_of_fmap_inj VPkg).
Qed.

(** Where something is pending, [run] starts the rebuild of the first
    pending package in registry order. *)
Lemma Watcher_run_starts registry t :
  pkgs (watcher t) = registry →
  (∀ p, p ∈ work (watcher t) → p ∈ registry) →
  work (watcher t) ≠ [] →
  ∃ p, running (Watcher_run t) = Some p
       ∧ history (Watcher_run t) = history t ++ [Started p]
       ∧ working (watcher (Watcher_run t)) = working (watcher t)
       ∧ p ∈ work (watcher t)
       ∧ ∀ q, q ∈ work (watcher t) → q ≠ p → precedes registry p q.
Proof.
  intros Hp Hw Hne. unfold Watcher_run.
  destruct (work (watcher t)) as [|x l] eqn:Hwork; [done|].
  destruct (next_work_Some (pkgs (watcher t)) (x :: l) x) as [[p work'] Hn].
  { left. } { rewrite Hp. apply Hw. left. }
  rewrite Hn. exists p. cbn [running history watcher working].
  repeat split; try done.
  - destruct (next_work_first _ _ _ _ Hn) as (i & k & _ & Hk%indexOf_lookup & _).
    by eapply list_elem_of_lookup_2.
  - intros q Hq Hqp. rewrite <-Hp. eapply next_work_precedes; eauto.
    rewrite Hp. by apply Hw.
Qed.

(** C3. The drain loop of the watch scheduler, from a new watcher and
    after any events [es].  When [a] and [b] are both pending and [a]
    comes before [b] in the registry, then in whatever follows, every
    start of the rebuild of [b] comes after a start and the end of a
    rebuild of [a].  A rebuild that starts is that of the first pending
    package in registry order.  A rebuild ends before the next one
    starts.  While a drain runs, a change or a timer starts nothing:
    the change only adds to the pending packages.  And rebuilds do
    start: the change of a watched package that is not pending makes it
    pending and sets a timer; when no drain runs, the end of a timer
    starts the rebuild of the first pending package in registry order;
    and when a rebuild succeeds and packages are pending, the rebuild of
    the first of them in registry order starts at once. *)
Theorem scheduler_follows_registry_order (registry : list Pkg)
    (opts : BuildOptions) (es es' : list event) :
  let s := steps (fresh_scheduler registry opts) es in
  (∀ a b, a ∈ work (watcher s) → b ∈ work (watcher s) → precedes registry a b →
     completes_before a b
       (drop (List.length (history s)) (history (steps s es'))))
  ∧ (∀ e p before,
       history (step s e) = history s ++ before ++ [Started p] →
       p ∈ work (watcher s)
       ∧ ∀ q, q ∈ work (watcher s) → q ≠ p → precedes registry p q)
  ∧ one_at_a_time (history (steps s es'))
  ∧ (working (watcher s) = true →
     ∀ e, (e = Timeout ∨ ∃ p, e = Changed p) → quiet_step s (step s e))
  ∧ (∀ p, p ∈ registry → p ∉ work (watcher s) →
       work (watcher (step s (Changed p))) = work (watcher s) ++ [p]
       ∧ timers (step s (Changed p)) = S (timers s))
  ∧ (working (watcher s) = false → timers s ≠ O → work (watcher s) ≠ [] →
     ∃ p, running (step s Timeout) = Some p
          ∧ history (step s Timeout) = history s ++ [Started p]
          ∧ working (watcher (step s Timeout)) = true
          ∧ p ∈ work (watcher s)
          ∧ ∀ q, q ∈ work (watcher s) → q ≠ p → precedes registry p q)
  ∧ (∀ q, running s = Some q → work (watcher s) ≠ [] →
       ∃ p, running (step s (Settled true)) = Some p
            ∧ history (step s (Settled true))
              = history s ++ [Finished q true; Started p]
            ∧ p ∈ work (watcher s)
            ∧ ∀ q', q' ∈ work (watcher s) → q' ≠ p → precedes registry p q').
Proof.
  intros s.
  assert (Inv registry s) as HI by apply Inv_steps, Inv_init.
  split; [|split; [|split; [|split; [|split; [|split]]]]].
  - intros a b Ha Hb Hab.
    destruct (phase_steps registry a b s (history s) [] es') as (h' & Hh & Hph);
      try done.
    { by rewrite app_nil_r. }
    { left. split; [done|]. apply not_elem_of_nil. }
    rewrite Hh, drop_app_length.
    eapply phase_completes; eauto. by eapply precedes_ne.
  - intros e p before Hh.
    destruct (step_shape registry s e HI) as [_ Hsh].
    destruct Hsh as [(Hh' & _)|[(_ & _ & _ & Hpick)|(q & ok & _ & Hq & [Hpick|Hend])]].
    + rewrite Hh' in Hh. rewrite <- (app_nil_r (history s)) in Hh at 1.
      apply app_inv_head in Hh. by destruct before.
    + split; [|intros q']; eapply pick_step_first; eauto.
    + split; [|intros q']; eapply pick_step_first; eauto.
    + destruct Hend as (Hh' & _). rewrite Hh' in Hh.
      apply app_inv_head in Hh.
      change [Finished q ok] with ([] ++ [Finished q ok]) in Hh.
      by apply app_inj_tail in Hh as [_ ?].
  - eapply Inv_one_at_a_time, Inv_steps, HI.
  - intros Hwk e He.
    destruct (step_shape registry s e HI) as [_ Hsh].
    destruct Hsh as [Hq|[(_ & _ & Hf & _)|(q & ok & Hs & _)]]; [done|congruence|].
    destruct He as [->|[p ->]]; discriminate.
  - intros p Hp Hnew. destruct HI as (Hpk & Hst & _).
    unfold step. rewrite Hst, Hpk. rewrite bool_decide_eq_true_2 by done.
    unfold Watcher_trigger. rewrite includes_work.
    rewrite bool_decide_eq_false_2 by done. done.
  - intros Hwk Ht Hne. destruct HI as (Hpk & Hst & Hw & _).
    unfold step. rewrite Hst. destruct (timers s) as [|n]; [done|].
    unfold Watcher_startWork. cbn [watcher]. rewrite Hwk.
    destruct (Watcher_run_starts registry
                (set_working true
                   {| watcher := watcher s; timers := n; running := running s;
                      stuck := false; history := history s |}))
      as (p & Hr & Hh & Hwk' & Hp & Hfirst); try done.
    exists p. split; [exact Hr|]. split; [exact Hh|].
    split; [by rewrite Hwk'|]. split; [exact Hp|exact Hfirst].
  - intros q Hq Hne. destruct HI as (Hpk & Hst & Hw & _).
    unfold step. rewrite Hst, Hq.
    destruct (Watcher_run_starts registry
                {| watcher := watcher s; timers := timers s; running := None;
                   stuck := false; history := history s ++ [Finished q true] |})
      as (p & Hr & Hh & _ & Hp & Hfirst); try done.
    exists p. split; [exact Hr|]. split; [|split; [exact Hp|exact Hfirst]].
    rewrite Hh. cbn [history]. by rewrite <-app_assoc.
Qed.

(** A run for which the hypotheses of the order hold: [lr] then [common]
    change, the timer ends and both rebuilds succeed; [common] is rebuilt
    first and [lr] after it. *)
Lemma scheduler_follows_registry_order_witness :
  let registry := [Sample.common; Sample.lr] in
  let s := steps (fresh_scheduler registry {| esm := false; always := false |})
             [Changed Sample.lr; Changed Sample.common] in
  (Sample.common ∈ work (watcher s) ∧ Sample.lr ∈ work (watcher s)
   ∧ precedes registry Sample.common Sample.lr)
  ∧ completes_before Sample.common Sample.lr
      (drop (List.length (history s))
         (history (steps s [Timeout; Settled true; Settled true])))
  ∧ (∃ p, running (step s Timeout) = Some p
          ∧ history (step s Timeout) = history s ++ [Started p]
          ∧ working (watcher (step s Timeout)) = true
          ∧ p ∈ work (watcher s)
          ∧ ∀ q, q ∈ work (watcher s) → q ≠ p → precedes registry p q)
  ∧ (∃ p, running (step (step s Timeout) (Settled true)) = Some p
          ∧ history (step (step s Timeout) (Settled true))
            = history (step s Timeout) ++ [Finished Sample.common true; Started p]
          ∧ p ∈ work (watcher (step s Timeout))
          ∧ ∀ q', q' ∈ work (watcher (step s Timeout)) → q' ≠ p →
              precedes registry p q')
  ∧ history (steps s [Timeout; Settled true; Settled true])
    = [Started Sample.common; Finished Sample.common true;
       Started Sample.lr; Finished Sample.lr true].
Proof.
  intros registry s.
  assert (Sample.common ∈ work (watcher s)) as Ha by (apply (bool_decide_unpack _); vm_compute; exact I).
  assert (Sample.lr ∈ work (watcher s)) as Hb by (apply (bool_decide_unpack _); vm_compute; exact I).
  assert (precedes registry Sample.common Sample.lr) as Hab.
  { exists 0%nat, 1%nat. vm_compute. repeat split; lia. }
  split; [done|]. split; [|split; [|split; [|reflexivity]]].
  - exact (proj1 (scheduler_follows_registry_order registry
                    {| esm := false; always := false |}
                    [Changed Sample.lr; Changed Sample.common]
                    [Timeout; Settled true; Settled true])
             Sample.common Sample.lr Ha Hb Hab).
  - destruct (scheduler_follows_registry_order registry
                {| esm := false; always := false |}
                [Changed Sample.lr; Changed Sample.common] [])
      as (_ & _ & _ & _ & _ & Hstart & _).
    apply Hstart; [reflexivity|by vm_compute|by vm_compute].
  - destruct (scheduler_follows_registry_order registry
                {| esm := false; always := false |}
                [Changed Sample.lr; Changed Sample.common; Timeout] [])
      as (_ & _ & _ & _ & _ & _ & Hnext).
    apply (Hnext Sample.common); [reflexivity|by vm_compute].
Defined.

(** ** The staleness check *)

Lemma fileTime_eq path w : fileTime path w = (Ok (At (file_time w path)), w).
Proof.
  unfold fileTime, try_catch, bind, stat, file_time.
  by destruct (files w !! path).
Qed.

Lemma some_fileTime time inputs w :
  some (λ file, let* t := fileTime file in ret (geq t (At time))) inputs w
  = (Ok (bool_decide (Exists (λ f, time ≤ file_time w f) inputs)), w).
Proof.
  induction inputs as [|f inputs IH]; simpl.
  - done.
  - unfold bind at 1. unfold bind at 1. rewrite fileTime_eq.
    unfold ret at 1. unfold geq at 1.
    destruct (bool_decide (time ≤ file_time w f)) eqn:Hf.
    + apply bool_decide_eq_true in Hf. unfold ret.
      rewrite bool_decide_eq_true_2; [done|]. by left.
    + apply bool_decide_eq_false in Hf.
      rewrite IH. f_equal. f_equal. apply bool_decide_ext.
      rewrite Exists_cons. tauto.
Qed.

Lemma inputFiles_frame E pkg w :
  (∀ n, (inputFiles E pkg w).1 ≠ Exit n)
  ∧ same_files w (inputFiles E pkg w).2
  ∧ trace (inputFiles E pkg w).2 = trace w.
Proof.
  destruct (keeps_inputFiles same_files (λ _, False)) with (E := E) (this := pkg) (w := w)
    as (Hx & HR & t & Ht & HP).
  - by repeat split.
  - intros w1 w2 w3 (?&?&?&?&?) (?&?&?&?&?). repeat split; congruence.
  - by repeat split.
  - split; [done|]. split; [done|].
    destruct t as [|a t]; [by rewrite app_nil_r in Ht|].
    by apply Forall_cons in HP as [[] _].
Qed.

Lemma foldr_max_le t ts x :
  x ≤ foldr Z.max t ts ↔ x ≤ t ∨ Exists (λ u, x ≤ u) ts.
Proof.
  induction ts as [|u ts IH]; simpl.
  - rewrite Exists_nil. tauto.
  - rewrite Exists_cons, Z.max_le_iff, IH. tauto.
Qed.

Lemma newest_Exists ts x :
  (∃ m, newest ts = Some m ∧ x ≤ m) ↔ Exists (λ t, x ≤ t) ts.
Proof.
  destruct ts as [|t ts]; simpl.
  - split; [by intros (?&?&?)|by intros ?%Exists_nil].
  - rewrite Exists_cons, <- foldr_max_le. split.
    + by intros (m & [= <-] & H).
    + eauto.
Qed.

Lemma required_dec w pkg opts inputs :
  required w pkg opts inputs ↔
  always opts = true ∨ oldest_output w pkg opts < 0
  ∨ Exists (λ f, oldest_output w pkg opts ≤ file_time w f) inputs.
Proof.
  unfold required, newest_input. rewrite newest_Exists, Exists_fmap. tauto.
Qed.

Lemma oldest_output_time pkg opts w :
  Math_min (At (file_time w (cjsFile pkg)))
    (if esm opts then At (file_time w (esmFile pkg)) else Infinity)
  = At (oldest_output w pkg opts).
Proof.
  unfold oldest_output. destruct (esm opts); simpl; [|done].
  by rewrite Z.min_comm.
Qed.

Lemma file_time_same w w' path : files w' = files w → file_time w' path = file_time w path.
Proof. unfold file_time. by intros ->. Qed.

(** What [rebuild] decides, on the input files that [inputFiles] gives. *)
Lemma up_to_date_spec E pkg opts w inputs w1 :
  inputFiles E pkg w = (Ok inputs, w1) →
  ∃ b w2, up_to_date E pkg opts w = (Ok b, w2)
        ∧ (b = false ↔ required w pkg opts inputs)
        ∧ same_files w w2 ∧ trace w2 = trace w.
Proof.
  intros Hin.
  destruct (inputFiles_frame E pkg w) as (_ & Hsame & Htrace). rewrite Hin in *. simpl in *.
  assert (same_files w w) as Hrefl by by repeat split.
  unfold up_to_date. destruct (always opts) eqn:Ha; simpl.
  { exists false, w. repeat split; try done. intros _. apply required_dec. by left. }
  unfold bind at 1. rewrite fileTime_eq.
  unfold bind at 1.
  assert ((if esm opts then fileTime (esmFile pkg) else ret Infinity) w
          = (Ok (if esm opts then At (file_time w (esmFile pkg)) else Infinity), w)) as ->.
  { destruct (esm opts); [apply fileTime_eq|done]. }
  rewrite oldest_output_time. unfold geq at 1.
  case_bool_decide as Ht.
  - unfold bind at 1. rewrite Hin. unfold bind at 1. rewrite some_fileTime.
    eexists _, w1. split; [done|]. split; [|done].
    rewrite negb_false_iff, bool_decide_eq_true.
    rewrite required_dec. rewrite Ha.
    assert (Exists (λ f, oldest_output w pkg opts ≤ file_time w1 f) inputs
            ↔ Exists (λ f, oldest_output w pkg opts ≤ file_time w f) inputs) as ->.
    { apply Exists_proper; [|done]. intros f.
      rewrite (file_time_same w w1) by apply Hsame. done. }
    split; [tauto|]. intros [?|[?|?]]; [done|lia|done].
  - exists false, w. repeat split; try done. intros _.
    apply required_dec. right. left. lia.
Qed.

Lemma performed_app {A} (m : M A) w t :
  trace (m w).2 = trace w ++ t → performed m w = t.
Proof. intros H. unfold performed. by rewrite H, drop_app_length. Qed.

Lemma grows_for_each_output bundle outs w :
  ∃ t, trace (for_each outs (emit_output bundle) w).2 = trace w ++ t.
Proof.
  destruct (keeps_for_each (λ _ _, True) (λ _, True)) with (l := outs)
    (f := emit_output bundle) (w := w) as (_ & _ & t & Ht & _); [done|done| |eauto].
  intros out _. by apply (keeps_emit_output _ _ (λ _, True)).
Qed.

Lemma runRollup_starts E config w :
  ∃ t, trace (runRollup E config w).2 = trace w ++ Rollup (input config) :: t.
Proof.
  unfold runRollup, bind, emit, modify, gets. simpl.
  destruct (bundler E (files w) config) as [bundle|].
  - destruct (grows_for_each_output bundle (output config)
                (set_trace (λ t, t ++ [Rollup (input config)]) w)) as [t Ht].
    exists t. rewrite Ht. simpl. by rewrite <- app_assoc.
  - exists []. done.
Qed.

Lemma do_build_unfold E pkg opts w :
  do_build E pkg opts w =
  let w1 := set_trace (λ t, t ++ [Log (Text ("Building " +:+ name pkg +:+ "..."))]) w in
  match rollupConfig E pkg opts w1 with
  | (Ok config, w2) =>
      match runRollup E (oval config) w2 with
      | (Ok _, w3) =>
          (Ok (), set_trace (λ t, t ++ [Log (Text ("Done in "
                     +:+ pretty (now w3 - now w1) +:+ "ms"))]) w3)
      | (Throw e, w3) => (Throw e, w3)
      | (Exit n, w3) => (Exit n, w3)
      end
  | (Throw e, w2) => (Throw e, w2)
  | (Exit n, w2) => (Exit n, w2)
  end.
Proof.
  unfold do_build, bind, console_log, emit, modify, gets. simpl.
  destruct (rollupConfig E pkg opts _) as [[config|e|n] w2]; try done.
Qed.

Lemma rollupConfig_frame E pkg opts w :
  ∃ config w1, rollupConfig E pkg opts w = (Ok config, w1)
    ∧ trace w1 = trace w ∧ files w1 = files w ∧ dirs w1 = dirs w ∧ now w1 = now w
    ∧ match _rollup w !! name pkg with
      | Some c => config = c
      | None => config = Obj (fresh w) (rollup_config E pkg opts)
      end.
Proof.
  destruct (_rollup w !! name pkg) as [c|] eqn:H.
  - exists c, w. by rewrite (rollupConfig_cached _ _ _ c).
  - eexists _, _. rewrite rollupConfig_first by done. by repeat split.
Qed.

(** A build starts by saying so, and then calls the bundler. *)
Lemma do_build_starts E pkg opts w :
  ∃ config rest,
    performed (do_build E pkg opts) w
    = Log (Text ("Building " +:+ name pkg +:+ "...")) :: Rollup (input config) :: rest.
Proof.
  set (w1 := set_trace (λ t, t ++ [Log (Text ("Building " +:+ name pkg +:+ "..."))]) w).
  destruct (rollupConfig_frame E pkg opts w1) as (config & w2 & Hc & Ht & _).
  destruct (runRollup_starts E (oval config) w2) as [t Hr].
  exists (oval config). unfold performed. rewrite do_build_unfold. fold w1. simpl.
  rewrite Hc.
  destruct (runRollup E (oval config) w2) as [[[]|e|n] w3] eqn:Hrun; simpl in Hr.
  - exists (t ++ [Log (Text ("Done in " +:+ pretty (now w3 - now w1) +:+ "ms"))]).
    simpl. rewrite Hr, Ht. simpl. rewrite <- !app_assoc. by rewrite drop_app_length.
  - exists t. simpl. rewrite Hr, Ht. simpl. rewrite <- !app_assoc. by rewrite drop_app_length.
  - exists t. simpl. rewrite Hr, Ht. simpl. rewrite <- !app_assoc. by rewrite drop_app_length.
Qed.

(** C1, amended.  On the input files of the package: when the oldest
    required output is not newer than the newest input, or the build is
    forced, or that output time is negative (the time of a missing
    file), [rebuild] says that it builds and calls the bundler;
    otherwise it returns with nothing printed, the bundler not called
    and the files as they were. *)
Theorem rebuild_staleness E pkg opts w inputs w1 :
  inputFiles E pkg w = (Ok inputs, w1) →
  (required w pkg opts inputs →
     ∃ config rest,
       performed (rebuild E pkg opts) w
       = Log (Text ("Building " +:+ name pkg +:+ "..."))
         :: Rollup (input config) :: rest)
  ∧ (¬ required w pkg opts inputs → no_op (rebuild E pkg opts) w).
Proof.
  intros Hin.
  destruct (up_to_date_spec E pkg opts w inputs w1 Hin) as (b & w2 & Hu & Hb & Hsame & Ht).
  split; intros Hreq.
  - destruct (do_build_starts E pkg opts w2) as (config & rest & Hp).
    exists config, rest. rewrite <- Hp. unfold performed, rebuild, bind.
    rewrite Hu. apply Hb in Hreq as ->. by rewrite Ht.
  - unfold no_op, performed, rebuild, bind. rewrite Hu.
    destruct b; [|by destruct Hreq; apply Hb]. simpl.
    rewrite Ht, drop_all. destruct Hsame as (? & ? & _). done.
Qed.

Lemma pair_eta {A B} (p : A * B) (a : A) : p.1 = a → p = (a, p.2).
Proof. destruct p. simpl. by intros ->. Qed.

(** The theorem at the sample world in which the bundle of [common] is
    as old as its one input: the build is required, and done. *)
Lemma rebuild_staleness_witness :
  let opts := {| esm := false; always := false |} in
  let r := inputFiles Sample.E Sample.common Sample.tie in
  r = (Ok ["/lz/common/src/index.ts"], r.2)
  ∧ required Sample.tie Sample.common opts ["/lz/common/src/index.ts"]
  ∧ ∃ config rest,
      performed (rebuild Sample.E Sample.common opts) Sample.tie
      = Log (Text ("Building " +:+ name Sample.common +:+ "..."))
        :: Rollup (input config) :: rest.
Proof.
  intros opts r.
  assert (r = (Ok ["/lz/common/src/index.ts"], r.2)) as H
    by (apply pair_eta; vm_compute; reflexivity).
  assert (required Sample.tie Sample.common opts ["/lz/common/src/index.ts"]) as Hreq.
  { left. exists 100. split; vm_compute; [reflexivity|discriminate]. }
  split; [exact H|]. split; [exact Hreq|].
  exact (proj1 (rebuild_staleness Sample.E Sample.common opts Sample.tie _ _ H) Hreq).
Defined.

(** C1, as stated, fails where the bundle is exactly as old as the newest
    input: no output is missing, the build is not forced and the oldest
    output is not strictly older than the input, yet [rebuild] builds. *)
Lemma staleness_tie_counterexample :
  ¬ staleness_as_specified Sample.E Sample.common
      {| esm := false; always := false |} Sample.tie.
Proof.
  intros H.
  specialize (H ["/lz/common/src/index.ts"]
                (inputFiles Sample.E Sample.common Sample.tie).2).
  destruct H as [_ H]; [apply pair_eta; vm_compute; reflexivity|].
  destruct H as [(m & Hm & Hlt)|[Ha|(p & Hp & Hnone)]].
  - intros (_ & Hp & _). vm_compute in Hp. discriminate.
  - vm_compute in Hm. injection Hm as <-. vm_compute in Hlt. discriminate.
  - discriminate.
  - apply list_elem_of_singleton in Hp as ->. vm_compute in Hnone. discriminate.
Qed.

(** ** The [watch] command *)

Lemma keeps_baseline E l : keeps (λ _ _, True) no_watch (baseline E l).
Proof.
  apply keeps_for_each; try done. intros pkg _.
  apply keeps_try_catch; try done.
  - by apply (keeps_rebuild _ _ (λ _, True)).
  - intros e. by apply keeps_emit.
Qed.

Lemma baseline_returns E l w : ∃ w', baseline E l w = (Ok (), w').
Proof.
  revert w. induction l as [|pkg l IH]; intros w; simpl.
  - by exists w.
  - unfold baseline. simpl. unfold bind, try_catch.
    destruct (keeps_rebuild (λ _ _, True) (λ _, True) (λ _, True))
      with (E := E) (pkg := pkg) (opts := {| esm := false; always := false |}) (w := w)
      as (Hx & _); try done.
    destruct (rebuild E pkg _ w) as [[[]|e|n] w1]; simpl in *.
    + apply IH.
    + apply IH.
    + by destruct (Hx n).
Qed.

(** C7 (the code differs).  In any world, the command [watch] ends the
    process with status 1: after the baseline pass, over all packages
    and with their failures printed, reading [target] throws, and that
    error is printed last.  No watch is registered. *)
Theorem watch_registers_nothing E w :
  ∃ w1 t,
    baseline E (packages E) w = (Ok (), w1)
    ∧ trace w1 = trace w ++ t
    ∧ Forall no_watch t
    ∧ start E ["watch"] w
      = (Exit 1,
         set_trace
           (λ t, t ++ [LogError (Thrown (ReferenceError "target is not defined"))])
           w1).
Proof.
  destruct (baseline_returns E (packages E) w) as [w1 Hb].
  destruct (keeps_baseline E (packages E) w) as (_ & _ & t & Ht & HP).
  rewrite Hb in Ht. simpl in Ht.
  exists w1, t. repeat split; try done.
  unfold start. simpl. unfold bind at 1. simpl.
  unfold try_catch, watch. fold (baseline E (packages E)).
  unfold bind at 1. rewrite Hb. done.
Qed.

(** ** Configuration errors *)

Lemma bind_ext {A B} (m m' : M A) (f f' : A → M B) w :
  m w = m' w → (∀ a w', f a w' = f' a w') → bind m f w = bind m' f' w.
Proof. intros Hm Hf. unfold bind. rewrite Hm. destruct (m' w) as [[]]; auto. Qed.

Lemma for_each_ext {A} (l : list A) (f g : A → M unit) w :
  (∀ x w', x ∈ l → f x w' = g x w') → for_each l f w = for_each l g w.
Proof.
  revert w. induction l as [|x l IH]; intros w H; simpl; [done|].
  apply bind_ext; [apply H; left|]. intros _ w'. apply IH.
  intros y w'' Hy. apply H. by right.
Qed.

Lemma for_each_app {A} (l1 l2 : list A) (f : A → M unit) w :
  for_each (l1 ++ l2) f w = (for_each l1 f;; for_each l2 f) w.
Proof.
  revert w. induction l1 as [|x l1 IH]; intros w; simpl; [done|].
  unfold bind. destruct (f x w) as [[[]|e|n] w1]; [|done|done].
  rewrite IH. done.
Qed.










(** ** Releases *)

Lemma release_unfold E pkgName pkg args nv message cur changes w w1 :
  packageNames E !! pkgName = Some pkg →
  release_args args 0 args None "" w = (Ok (nv, message), w) →
  version E pkg w = (Ok cur, w) →
  changelog E pkg cur (Some message) w = (Ok changes, w1) →
  release E pkgName args w =
  (let* newVersion :=
     if given nv then ret (show nv) else lift (bumpVersion cur changes) in
   console_log (Text ("Creating " +:+ pkgName +:+ " " +:+ newVersion));;
   doRelease E pkg changes newVersion) w1.
Proof.
  intros H1 H2 H3 H4. unfold release. rewrite H1.
  unfold bind at 1. rewrite H2. cbn iota beta.
  unfold bind at 1. rewrite H3.
  unfold bind at 1. rewrite H4. done.
Qed.

Lemma release2_unfold E pkgName pkg args nv message cur changes w w1 :
  Rev2.packageNames E !! pkgName = Some pkg →
  Rev2.release_args args args None "" w = (Ok (nv, message), w) →
  version E pkg w = (Ok cur, w) →
  changelog E pkg cur (Some message) w = (Ok changes, w1) →
  Rev2.release E pkgName args w =
  (let* newVersion :=
     if given nv then ret (show nv) else lift (Rev2.bumpVersion cur changes) in
   console_log (Text ("Creating " +:+ pkgName +:+ " " +:+ newVersion));;
   doRelease E pkg changes newVersion) w1.
Proof.
  intros H1 H2 H3 H4. unfold Rev2.release. rewrite H1.
  unfold bind at 1. rewrite H2. cbn iota beta.
  unfold bind at 1. rewrite H3.
  unfold bind at 1. rewrite H4. done.
Qed.

(** [changelog] reads the log and changes nothing else. *)
Lemma changelog_frame E pkg since extra w changes w1 :
  changelog E pkg since extra w = (Ok changes, w1) →
  w1 = set_trace (λ t, t ++ [git_log pkg since]) w.
Proof.
  unfold changelog, run, bind, emit, modify. simpl.
  destruct (command E "git" _ _); [|done]. by intros [= _ <-].
Qed.

Lemma bumpVersion_empty v changes :
  empty changes →
  bumpVersion (Some v) changes = Throw (Error "No new release notes!")
  ∧ Rev2.bumpVersion (Some v) changes = Throw (Error "No new release notes!").
Proof.
  intros (Hb & Hf & Hx). unfold bumpVersion, Rev2.bumpVersion.
  by rewrite Hb, Hf, Hx.
Qed.

Lemma start_release E pkgName args w :
  start E ("release" :: pkgName :: args) w
  = try_catch (release E pkgName args) (λ e, error (Thrown e)) w.
Proof. done. Qed.

(** C6. [release] of a registered package whose arguments give no
    version, when the manifest has a version and the changes since then
    have no entry of any kind, throws "No new release notes!".  All it
    has done is read the log: the files and directories are as they
    were, and from the command line the process ends with status 1
    after printing the error.  In both revisions. *)
Theorem release_without_notes E pkgName pkg args nv message v changes w w1 :
  given nv = false →
  version E pkg w = (Ok (Some v), w) →
  changelog E pkg (Some v) (Some message) w = (Ok changes, w1) →
  empty changes →
  (packageNames E !! pkgName = Some pkg →
   release_args args 0 args None "" w = (Ok (nv, message), w) →
   release E pkgName args w = (Throw (Error "No new release notes!"), w1)
   ∧ performed (release E pkgName args) w = [git_log pkg (Some v)]
   ∧ files w1 = files w ∧ dirs w1 = dirs w
   ∧ start E ("release" :: pkgName :: args) w
     = (Exit 1,
        set_trace (λ t, t ++ [LogError (Thrown (Error "No new release notes!"))]) w1))
  ∧ (Rev2.packageNames E !! pkgName = Some pkg →
     Rev2.release_args args args None "" w = (Ok (nv, message), w) →
     Rev2.release E pkgName args w = (Throw (Error "No new release notes!"), w1)
     ∧ performed (Rev2.release E pkgName args) w = [git_log pkg (Some v)]
     ∧ files w1 = files w ∧ dirs w1 = dirs w).
Proof.
  intros Hnv Hv Hc He.
  pose proof (changelog_frame _ _ _ _ _ _ _ Hc) as Hw1.
  destruct (bumpVersion_empty v changes He) as [Hb1 Hb2].
  split.
  - intros Hp Ha.
    assert (release E pkgName args w = (Throw (Error "No new release notes!"), w1)) as Hr.
    { rewrite (release_unfold E pkgName pkg args nv message (Some v) changes w w1) by done.
      rewrite Hnv. unfold bind, lift. by rewrite Hb1. }
    split; [done|]. split.
    { apply performed_app. rewrite Hr. simpl. by subst w1. }
    split; [by subst w1|]. split; [by subst w1|].
    rewrite start_release. unfold try_catch. by rewrite Hr.
  - intros Hp Ha.
    assert (Rev2.release E pkgName args w = (Throw (Error "No new release notes!"), w1)) as Hr.
    { rewrite (release2_unfold E pkgName pkg args nv message (Some v) changes w w1) by done.
      rewrite Hnv. unfold bind, lift. by rewrite Hb2. }
    split; [done|]. split.
    { apply performed_app. rewrite Hr. simpl. by subst w1. }
    split; by subst w1.
Qed.

(** The theorem where nothing was committed since version 1.2.3 of
    [common] and no argument is given. *)
Lemma release_without_notes_witness :
  let w := Sample.releasable in
  let w1 := set_trace (λ t, t ++ [git_log Sample.common (Some "1.2.3")]) w in
  (given None = false
   ∧ version Sample.E Sample.common w = (Ok (Some "1.2.3"), w)
   ∧ changelog Sample.E Sample.common (Some "1.2.3") (Some "") w = (Ok no_changes, w1)
   ∧ empty no_changes
   ∧ packageNames Sample.E !! "common" = Some Sample.common
   ∧ release_args [] 0 [] None "" w = (Ok (None, ""), w))
  ∧ release Sample.E "common" [] w = (Throw (Error "No new release notes!"), w1).
Proof.
  intros w w1.
  assert (given None = false) as H1 by reflexivity.
  assert (version Sample.E Sample.common w = (Ok (Some "1.2.3"), w)) as H2
    by (vm_compute; reflexivity).
  assert (changelog Sample.E Sample.common (Some "1.2.3") (Some "") w
          = (Ok no_changes, w1)) as H3 by (vm_compute; reflexivity).
  assert (empty no_changes) as H4 by (repeat split).
  assert (packageNames Sample.E !! "common" = Some Sample.common) as H5
    by (vm_compute; reflexivity).
  assert (release_args [] 0 [] None "" w = (Ok (None, ""), w)) as H6 by reflexivity.
  split; [done|].
  exact (proj1 (proj1 (release_without_notes Sample.E "common" Sample.common []
                         None "" "1.2.3" no_changes w w1 H1 H2 H3 H4) H5 H6)).
Defined.

(** What a computation can throw. *)

Lemma raises_bind {A B} Q (m : M A) (f : A → M B) :
  raises Q m → (∀ a, raises Q (f a)) → raises Q (bind m f).
Proof.
  intros Hm Hf w e. unfold bind.
  destruct (m w) as [[a|e'|n] w1] eqn:Hmw; simpl.
  - apply Hf.
  - intros [= <-]. apply (Hm w). by rewrite Hmw.
  - done.
Qed.

Lemma raises_never {A} Q (m : M A) :
  (∀ w, ∃ a w', m w = (Ok a, w')) → raises Q m.
Proof. intros H w e. destruct (H w) as (a & w' & ->). done. Qed.

Lemma raises_readFile path : raises external_failure (readFile path).
Proof.
  intros w e. unfold readFile, bind, stat.
  destruct (files w !! path); simpl; [done|]. by intros [= <-].
Qed.

Lemma raises_writeFile Q path c : raises Q (writeFile path c).
Proof. apply raises_never. intros w. by eexists _, _. Qed.

Lemma raises_run E cmd args wd : raises external_failure (run E cmd args wd).
Proof.
  intros w e. unfold run, bind, emit, modify. simpl.
  destruct (command E cmd args wd); simpl; [done|]. by intros [= <-].
Qed.

Lemma raises_doRelease E pkg changes V :
  raises external_failure (doRelease E pkg changes V).
Proof.
  unfold doRelease.
  apply raises_bind; [|intros _].
  { unfold setModuleVersion.
    apply raises_bind; [apply raises_readFile|intros; apply raises_writeFile]. }
  apply raises_bind; [apply raises_readFile|intros old].
  apply raises_bind; [apply raises_writeFile|intros _].
  do 4 (apply raises_bind; [apply raises_run|intros _]).
  apply raises_never. intros w. by eexists _, _.
Qed.

Lemma append_inj_l (d x y : string) : d +:+ x = d +:+ y → x = y.
Proof. induction d as [|c d IH]; simpl; [done|]. intros [= H]. auto. Qed.

Lemma path_join_ne d a b : a ≠ b → path_join d a ≠ path_join d b.
Proof.
  intros Hne H. unfold path_join in H.
  apply append_inj_l in H. by apply (append_inj_l "/") in H.
Qed.

Lemma doRelease_runs E pkg changes V w m l :
  files w !! path_join (dir pkg) "package.json" = Some m →
  files w !! path_join (dir pkg) "CHANGELOG.md" = Some l →
  Forall (succeeds E) (release_actions E pkg changes V (data m) (data l)) →
  ∃ w', doRelease E pkg changes V w = (Ok (), w')
        ∧ trace w' = trace w ++ release_actions E pkg changes V (data m) (data l).
Proof.
  intros Hm Hl Hs.
  unfold release_actions in *.
  apply Forall_cons in Hs as [_ Hs]. apply Forall_cons in Hs as [_ Hs].
  apply Forall_cons in Hs as [[o1 H1] Hs]. apply Forall_cons in Hs as [[o2 H2] Hs].
  apply Forall_cons in Hs as [[o3 H3] Hs]. apply Forall_cons in Hs as [[o4 H4] _].
  unfold doRelease, setModuleVersion, readFile, writeFile, run, bind, stat,
    emit, modify, ret.
  simpl. rewrite Hm. simpl.
  rewrite lookup_insert_ne by (by apply path_join_ne).
  rewrite Hl. simpl. rewrite H1, H2, H3, H4.
  eexists. split; [done|]. simpl. rewrite <- !app_assoc. done.
Qed.

(** C9, amended.  [release] of a registered package whose arguments end
    with a version that is not empty does not consult [bumpVersion]: it
    goes on to [doRelease] with that version and the changes found, be
    they empty, and cannot end on "No new release notes!".  When the
    manifest and the changelog are there and the git commands succeed,
    it rewrites the manifest, prepends the notes to the changelog, adds
    both, commits and tags.  In both revisions. *)
Theorem release_with_version E pkgName pkg args V message cur changes w w1 :
  V ≠ "" →
  version E pkg w = (Ok cur, w) →
  changelog E pkg cur (Some message) w = (Ok changes, w1) →
  (packageNames E !! pkgName = Some pkg →
   release_args args 0 args None "" w = (Ok (Some V, message), w) →
   proceeds E pkgName pkg V cur changes w w1 (release E pkgName args))
  ∧ (Rev2.packageNames E !! pkgName = Some pkg →
     Rev2.release_args args args None "" w = (Ok (Some V, message), w) →
     proceeds E pkgName pkg V cur changes w w1 (Rev2.release E pkgName args)).
Proof.
  intros HV Hv Hc.
  pose proof (changelog_frame _ _ _ _ _ _ _ Hc) as Hw1.
  assert (given (Some V) = true) as Hg.
  { simpl. unfold truthy. by rewrite bool_decide_eq_false_2. }
  assert (∀ released : M unit,
            released w
            = (console_log (Text ("Creating " +:+ pkgName +:+ " " +:+ V));;
               doRelease E pkg changes V) w1 →
            proceeds E pkgName pkg V cur changes w w1 released) as Hproceeds.
  { intros released Hr. unfold proceeds. split; [done|]. split.
    - rewrite Hr. unfold bind, console_log, emit, modify. simpl.
      intros H. by apply raises_doRelease in H.
    - intros m l Hm Hl Hs.
      set (w2 := set_trace (λ t, t ++ [Log (Text ("Creating " +:+ pkgName +:+ " " +:+ V))]) w1).
      destruct (doRelease_runs E pkg changes V w2 m l) as (w' & Hd & Ht); try done.
      { by subst w2 w1. }
      { by subst w2 w1. }
      assert (released w = (Ok (), w')) as Hrw.
      { rewrite Hr. unfold bind, console_log, emit, modify. simpl. done. }
      split; [by rewrite Hrw|].
      apply performed_app. rewrite Hrw. simpl. rewrite Ht.
      subst w2 w1. simpl. rewrite <- !app_assoc. done. }
  split; intros Hp Ha; apply Hproceeds.
  - rewrite (release_unfold E pkgName pkg args (Some V) message cur changes w w1) by done.
    rewrite Hg. done.
  - rewrite (release2_unfold E pkgName pkg args (Some V) message cur changes w w1) by done.
    rewrite Hg. done.
Qed.

(** The theorem at the release of [common] as version 2.0.0 where
    nothing was committed since version 1.2.3. *)
Lemma release_with_version_witness :
  let w := Sample.releasable in
  let w1 := set_trace (λ t, t ++ [git_log Sample.common (Some "1.2.3")]) w in
  let args := ["--version"; "2.0.0"] in
  ("2.0.0" ≠ ""
   ∧ version Sample.E Sample.common w = (Ok (Some "1.2.3"), w)
   ∧ changelog Sample.E Sample.common (Some "1.2.3") (Some "") w = (Ok no_changes, w1)
   ∧ packageNames Sample.E !! "common" = Some Sample.common
   ∧ release_args args 0 args None "" w = (Ok (Some "2.0.0", ""), w))
  ∧ proceeds Sample.E "common" Sample.common "2.0.0" (Some "1.2.3") no_changes w w1
      (release Sample.E "common" args).
Proof.
  intros w w1 args.
  assert ("2.0.0" ≠ "") as H1 by discriminate.
  assert (version Sample.E Sample.common w = (Ok (Some "1.2.3"), w)) as H2
    by (vm_compute; reflexivity).
  assert (changelog Sample.E Sample.common (Some "1.2.3") (Some "") w
          = (Ok no_changes, w1)) as H3 by (vm_compute; reflexivity).
  assert (packageNames Sample.E !! "common" = Some Sample.common) as H5
    by (vm_compute; reflexivity).
  assert (release_args args 0 args None "" w = (Ok (Some "2.0.0", ""), w)) as H6
    by reflexivity.
  split; [done|].
  exact (proj1 (release_with_version Sample.E "common" Sample.common args "2.0.0"
                  "" (Some "1.2.3") no_changes w w1 H1 H2 H3) H5 H6).
Defined.

(** C9, as stated, fails for the empty version: [release common
    --version ""] where nothing was committed since the last version
    ends on "No new release notes!". *)
Lemma release_empty_version_counterexample :
  ¬ explicit_version_suffices Sample.E "common" "" Sample.releasable.
Proof. intros H. apply H. vm_compute. reflexivity. Qed.

(** ** Writing declarations *)

Lemma length_append (s t : string) :
  String.length (s +:+ t) = (String.length s + String.length t)%nat.
Proof. induction s as [|c s IH]; simpl; [done|]. by rewrite IH. Qed.

Lemma append_ne (s t : string) : t ≠ "" → s +:+ t ≠ s.
Proof.
  intros Ht H. apply (f_equal String.length) in H.
  rewrite length_append in H. destruct t; [done|]. simpl in H. lia.
Qed.

Lemma holds_bind {A B} I P (m : M A) (f : A → M B) :
  holds I P m → (∀ a, holds I P (f a)) → holds I P (bind m f).
Proof.
  intros Hm Hf w Hw. unfold bind.
  destruct (Hm w Hw) as (HI & t & Ht & HP).
  destruct (m w) as [[a|e|n] w1]; simpl in *; [|eauto|eauto].
  destruct (Hf a w1 HI) as (HI' & t' & Ht' & HP').
  split; [done|]. exists (t ++ t'). rewrite Ht', Ht, app_assoc.
  split; [done|]. by apply Forall_app.
Qed.

Lemma holds_for_each {A} I P (l : list A) (f : A → M unit) :
  (∀ x, x ∈ l → holds I P (f x)) → holds I P (for_each l f).
Proof.
  induction l as [|x l IH]; intros H; simpl.
  - intros w Hw. split; [done|]. exists []. by rewrite app_nil_r.
  - apply holds_bind; [apply H; left|].
    intros _. apply IH. intros y Hy. apply H. by right.
Qed.

Lemma holds_keeps {A} I R P (m : M A) :
  (∀ w w', R w w' → I w → I w') → keeps R P m → holds I P m.
Proof.
  intros HR Hk w Hw. destruct (Hk w) as (_ & H & Ht). split; [|done]. eauto.
Qed.

Section Untouched.
Context (path : string) (f0 : File).

Lemma keeps_elsewhere_emit_file out dir a :
  path ∉ emits out dir a →
  holds (still path f0) (elsewhere path) (emit_file out dir a).
Proof.
  intros H. apply (holds_keeps _ (same_at path)).
  { unfold same_at, still. intros w w' ->. done. }
  apply (keeps_emit_file _ _ (λ p, p ≠ path)); try done.
  - intros w1 w2 w3. unfold same_at. congruence.
  - intros w p f Hp. unfold same_at. simpl. by rewrite lookup_insert_ne.
  - intros p c Hp. unfold elsewhere. simpl. by rewrite bool_decide_eq_false_2.
  - intros p Hp ->. done.
Qed.

End Untouched.

(** [maybeWriteFile] writes exactly when the file is not there or holds
    other content. *)
Lemma maybeWriteFile_spec path content w :
  maybeWriteFile path (Some content) w
  = if bool_decide (data <$> files w !! path = Some content)
    then (Ok (), w) else writeFile path content w.
Proof.
  unfold maybeWriteFile, try_catch, readFile, stat, size, bind, ret.
  destruct (files w !! path) as [f|] eqn:Hf; simpl.
  - destruct (bool_decide (Z.of_nat (String.length (data f))
                           = Z.of_nat (String.length content))) eqn:Hsize; simpl.
    + rewrite Hf.
      destruct (bool_decide (content = data f)) eqn:Hdata; simpl.
      * apply bool_decide_eq_true in Hdata as ->.
        by rewrite bool_decide_eq_true_2.
      * apply bool_decide_eq_false in Hdata.
        rewrite bool_decide_eq_false_2; [done|]. congruence.
    + apply bool_decide_eq_false in Hsize.
      rewrite bool_decide_eq_false_2; [done|].
      intros [= <-]. done.
  - rewrite bool_decide_eq_false_2 by lia. simpl. done.
Qed.

(** The inner loop of [runRollup], artifact by artifact. *)
Lemma emit_file_plain out dir a c w :
  test Pat.dts (fileName a) = false → code_or_source a = Some c →
  emit_file out dir a w
  = (writeFile (path_join dir (fileName a)) c;; emit_map dir a) w.
Proof. intros Hd Hc. unfold emit_file. rewrite Hd, Hc. done. Qed.

Lemma emit_file_other_format out dir a w :
  test Pat.dts (fileName a) = true → format out ≠ "cjs" →
  emit_file out dir a w = emit_map dir a w.
Proof.
  intros Hd Hf. unfold emit_file. rewrite Hd. simpl.
  rewrite bool_decide_eq_false_2 by done. done.
Qed.

Lemma emit_file_declaration out dir a c w :
  test Pat.dts (fileName a) = true → format out = "cjs" →
  code_or_source a = Some c →
  emit_file out dir a w
  = ((λ w, if bool_decide (data <$> files w !! path_join dir (fileName a)
                           = Some (declared_content a c))
           then (Ok (), w)
           else writeFile (path_join dir (fileName a)) (declared_content a c) w);;
     emit_map dir a) w.
Proof.
  intros Hd Hf Hc. unfold emit_file. rewrite Hd, Hc. simpl.
  rewrite bool_decide_eq_true_2 by done.
  apply bind_ext; [|done].
  unfold declared_content. destruct (test Pat.dts_map (fileName a)).
  - unfold bind at 1. simpl. apply maybeWriteFile_spec.
  - unfold bind at 1. simpl. apply maybeWriteFile_spec.
Qed.

Lemma holds_emit_map path f0 dir a :
  path_join dir (fileName a) = path →
  holds (still path f0) (elsewhere path) (emit_map dir a).
Proof.
  intros Hp. apply (holds_keeps _ (same_at path)).
  { unfold same_at, still. intros w w' ->. done. }
  unfold emit_map. destruct (map a) as [m|].
  - assert (path_join dir (fileName a +:+ ".map") ≠ path) as Hne.
    { rewrite <- Hp. apply path_join_ne. by apply append_ne. }
    intros w. split; [done|]. split.
    + unfold same_at. simpl. by rewrite lookup_insert_ne.
    + eexists [_]. split; [done|]. constructor; [|done].
      unfold elsewhere. simpl. by rewrite bool_decide_eq_false_2.
  - intros w. split; [done|]. split; [done|]. exists []. by rewrite app_nil_r.
Qed.

(** A declaration of the [cjs] output that is the file on disk is not
    written. *)
Lemma holds_emit_file_same path f0 out dir a c :
  test Pat.dts (fileName a) = true → format out = "cjs" →
  code_or_source a = Some c →
  path_join dir (fileName a) = path →
  data f0 = declared_content a c →
  holds (still path f0) (elsewhere path) (emit_file out dir a).
Proof.
  intros Hd Hf Hc Hp Hsame w Hw.
  assert (emit_file out dir a w = emit_map dir a w) as ->.
  { rewrite (emit_file_declaration out dir a c) by done.
    rewrite Hp. unfold bind at 1.
    rewrite bool_decide_eq_true_2; [done|].
    unfold still in Hw. rewrite Hw. simpl. by rewrite Hsame. }
  by apply holds_emit_map.
Qed.

Lemma holds_emit_output path f0 bundle config out a c out' :
  sole_writer path out a bundle config →
  out' ∈ output config →
  test Pat.dts (fileName a) = true → format out = "cjs" →
  code_or_source a = Some c →
  path_join (dirname (file out)) (fileName a) = path →
  data f0 = declared_content a c →
  holds (still path f0) (elsewhere path) (emit_output bundle out').
Proof.
  intros Hsole Hout Hd Hf Hc Hp Hsame. unfold emit_output.
  assert (∀ x, elsewhere path x → holds (still path f0) (elsewhere path) (emit x)) as Hemit.
  { intros x Hx w Hw. split; [done|]. exists [x]. split; [done|]. by constructor. }
  apply holds_bind; [by apply Hemit|]. intros _.
  destruct (bundle out') as [result'|] eqn:Hb.
  2:{ intros w Hw. split; [done|]. exists []. by rewrite app_nil_r. }
  apply holds_bind.
  { apply holds_bind; [by apply Hemit|]. intros _ w Hw. split; [|exists []; by rewrite app_nil_r].
    done. }
  intros _. apply holds_for_each. intros b Hin.
  destruct (decide (path ∈ emits out' (dirname (file out')) b)) as [Hyes|Hno].
  - destruct (Hsole out' result' b Hout Hb Hin Hyes) as [-> ->].
    by apply (holds_emit_file_same path f0 out _ a c).
  - by apply keeps_elsewhere_emit_file.
Qed.

(** C4, amended.  An artifact whose name has no [.d.ts] is written under
    its name, whatever is on disk.  One whose name has [.d.ts], a
    declaration or its map, is not written for an output of another
    format than [cjs]; for the [cjs] output it is written exactly when
    the file on disk is missing or differs from the content to write,
    which for a name with [.d.ts.map] is the produced text with its
    source root rewritten.  In all three cases the map at the side of
    the artifact is written after it.  Over a whole run of the bundler,
    when such a content is what the file holds and no other artifact
    goes to that path, the file stays as it is and is not written. *)
Theorem declaration_write_suppression E config w bundle out result a c f0 :
  let dir := dirname (file out) in
  let path := path_join dir (fileName a) in
  a ∈ result → code_or_source a = Some c →
  (test Pat.dts (fileName a) = false →
     emit_file out dir a w = (writeFile path c;; emit_map dir a) w)
  ∧ (test Pat.dts (fileName a) = true → format out ≠ "cjs" →
       emit_file out dir a w = emit_map dir a w)
  ∧ (test Pat.dts (fileName a) = true → format out = "cjs" →
       emit_file out dir a w
       = ((λ w, if bool_decide (data <$> files w !! path = Some (declared_content a c))
                then (Ok (), w)
                else writeFile path (declared_content a c) w);;
          emit_map dir a) w)
  ∧ (test Pat.dts (fileName a) = true → format out = "cjs" →
     bundler E (files w) config = Some bundle →
     out ∈ output config → bundle out = Some result →
     sole_writer path out a bundle config →
     files w !! path = Some f0 → data f0 = declared_content a c →
     files (runRollup E config w).2 !! path = Some f0
     ∧ Forall (elsewhere path) (performed (runRollup E config) w)).
Proof.
  intros dir path Ha Hc.
  split; [intros; by apply emit_file_plain|].
  split; [intros; by apply emit_file_other_format|].
  split; [intros; by apply emit_file_declaration|].
  intros Hd Hf Hb Hout Hr Hsole Hf0 Hsame.
  set (w0 := set_trace (λ t, t ++ [Rollup (input config)]) w).
  assert (runRollup E config w = for_each (output config) (emit_output bundle) w0) as Hrun.
  { unfold runRollup, bind, emit, modify, gets. simpl. by rewrite Hb. }
  assert (holds (still path f0) (elsewhere path)
            (for_each (output config) (emit_output bundle))) as Hh.
  { apply holds_for_each. intros out' Hout'.
    by apply (holds_emit_output path f0 bundle config out a c). }
  destruct (Hh w0 Hf0) as (HI & t & Ht & HP).
  rewrite <- Hrun in HI, Ht.
  split; [done|].
  rewrite (performed_app _ _ (Rollup (input config) :: t)).
  - by constructor.
  - rewrite Ht. simpl. by rewrite <- app_assoc.
Qed.

Lemma sample_sole_writer opts :
  sole_writer "/lz/common/dist/index.d.ts" Sample.cjs Sample.declaration_file
    Sample.bundle (rollup_config Sample.E Sample.common opts).
Proof.
  intros out' result' b Hout Hb Hin Hp.
  assert (out' = Sample.cjs
          ∨ out' = {| format := "esm"; file := esmFile Sample.common;
                      sourcemap := true; externalLiveBindings := false |}) as Ho.
  { simpl in Hout. destruct (esm opts); simpl in Hout.
    - apply elem_of_cons in Hout as [->|Hout]; [by right|].
      apply list_elem_of_singleton in Hout as ->. by left.
    - apply list_elem_of_singleton in Hout as ->. by left. }
  destruct Ho as [-> | ->]; injection Hb as <-;
    repeat (apply elem_of_cons in Hin as [->|Hin]);
    try (by apply elem_of_nil in Hin);
    vm_compute in Hp;
    repeat (apply elem_of_cons in Hp as [Hp|Hp]; [try discriminate|]);
    try (by apply elem_of_nil in Hp); done.
Qed.

(** The theorem at the build of [common] where the declaration file on
    disk is the one that the bundler gives: the file keeps its content
    and its time, and nothing is written to it. *)
Lemma declaration_write_suppression_witness :
  let config := rollup_config Sample.E Sample.common Sample.both in
  let path := "/lz/common/dist/index.d.ts" in
  let f0 := Sample.at_ 200 "export declare const x: number" in
  files (runRollup Sample.E config Sample.built).2 !! path = Some f0
  ∧ Forall (elsewhere path) (performed (runRollup Sample.E config) Sample.built).
Proof.
  intros config path f0.
  refine (proj2 (proj2 (proj2
            (declaration_write_suppression Sample.E config Sample.built
               Sample.bundle Sample.cjs
               [Sample.chunk "index.js" "exports.x = 1" "{}";
                Sample.declaration_file; Sample.declaration_map_file]
               Sample.declaration_file "export declare const x: number" f0
               _ _))) _ _ _ _ _ _ _ _).
  - right. left.
  - reflexivity.
  - vm_compute. reflexivity.
  - reflexivity.
  - reflexivity.
  - right. left.
  - vm_compute. reflexivity.
  - apply sample_sole_writer.
  - vm_compute. reflexivity.
  - reflexivity.
Defined.

(** C4, as stated, fails on the declaration map [index.d.ts.map],
    whichever way its name is read.  Read as a declaration artifact:
    the bundler gives the very text that is on disk, yet the build
    writes the file, with the source root rewritten.  Read as another
    artifact: the file on disk holds the rewritten text, and the build
    does not write it. *)
Lemma declaration_map_counterexample :
  ¬ ∃ declaration : string → bool, write_suppression_as_specified declaration.
Proof.
  intros [declaration H].
  set (path := "/lz/common/dist/index.d.ts.map").
  assert (∀ w, _rollup w = ∅ →
            (do_build Sample.E Sample.common Sample.only_cjs w).1 = Ok () →
            if declaration "index.d.ts.map" then
              data <$> files w !! path = Some Sample.declaration_map →
              files (do_build Sample.E Sample.common Sample.only_cjs w).2 !! path
              = files w !! path
            else
              Exists (λ x, writes_to path x = true)
                (performed (do_build Sample.E Sample.common Sample.only_cjs) w)) as H'.
  { intros w Hr Hok.
    apply (H Sample.E Sample.common Sample.only_cjs w _ Sample.bundle Sample.cjs
             [Sample.chunk "index.js" "exports.x = 1" "{}";
              Sample.declaration_file; Sample.declaration_map_file]
             Sample.declaration_map_file Sample.declaration_map).
    - by rewrite Hr.
    - by apply pair_eta.
    - reflexivity.
    - left.
    - reflexivity.
    - reflexivity.
    - right. right. left.
    - reflexivity. }
  destruct (declaration "index.d.ts.map").
  - specialize (H' Sample.printed_map eq_refl).
    assert (files (do_build Sample.E Sample.common Sample.only_cjs Sample.printed_map).2
              !! path = files Sample.printed_map !! path) as Heq.
    { apply H'; vm_compute; reflexivity. }
    vm_compute in Heq. discriminate.
  - specialize (H' Sample.rewritten_map eq_refl).
    assert (Exists (λ x, writes_to path x = true)
              (performed (do_build Sample.E Sample.common Sample.only_cjs)
                 Sample.rewritten_map)) as Hex.
    { apply H'. vm_compute. reflexivity. }
    vm_compute in Hex.
    repeat (apply Exists_cons in Hex as [Hex|Hex]; [discriminate|]).
    by apply Exists_nil in Hex.
Qed.

(** * Further properties *)

(** ** Text and numbers *)

Lemma chars_app (s t : string) : chars (s +:+ t) = chars s ++ chars t.
Proof. induction s as [|c s IH]; simpl; [done|]. unfold chars in *. simpl. by rewrite IH. Qed.

Lemma text_chars (s : string) : text (chars s) = s.
Proof. apply string_of_list_ascii_of_string. Qed.

Lemma chars_text (l : list ascii) : chars (text l) = l.
Proof. apply list_ascii_of_string_of_list_ascii. Qed.

Lemma chars_inj (a b : string) : chars a = chars b → a = b.
Proof. intros H. by rewrite <-(text_chars a), <-(text_chars b), H. Qed.

Lemma text_app (l k : list ascii) : text (l ++ k) = text l +:+ text k.
Proof. induction l as [|c l IH]; simpl; [done|]. unfold text in *. simpl. by rewrite IH. Qed.

Lemma append_assoc (s t u : string) : (s +:+ t) +:+ u = s +:+ (t +:+ u).
Proof.
  induction s as [|c s IH]; [done|].
  change (String c ((s +:+ t) +:+ u) = String c (s +:+ (t +:+ u))). by f_equal.
Qed.

Lemma split_loop_no_sep sep cur l :
  Forall (λ c, same c sep = false) l →
  split_loop sep cur l = [text (rev cur ++ l)].
Proof.
  revert cur. induction l as [|c l IH]; intros cur H; simpl.
  - by rewrite app_nil_r.
  - inversion H as [|? ? Hc Hl]; subst. rewrite Hc, IH by done.
    simpl. by rewrite <-app_assoc.
Qed.

Lemma split_loop_sep sep cur l rest :
  Forall (λ c, same c sep = false) l →
  split_loop sep cur (l ++ [sep] ++ rest)
  = text (rev cur ++ l) :: split_loop sep [] rest.
Proof.
  revert cur. induction l as [|c l IH]; intros cur H; simpl.
  - unfold same at 1. rewrite bool_decide_eq_true_2 by done. by rewrite app_nil_r.
  - inversion H as [|? ? Hc Hl]; subst. rewrite Hc, IH by done.
    simpl. by rewrite <-app_assoc.
Qed.

Lemma pretty_N_char_digit x :
  (x < 10)%N →
  digit (pretty_N_char x) = true
  ∧ Z.of_nat (ord (pretty_N_char x) - 48) = Z.of_N x.
Proof.
  intros H.
  assert (x = 0 ∨ x = 1 ∨ x = 2 ∨ x = 3 ∨ x = 4 ∨ x = 5 ∨ x = 6 ∨ x = 7
          ∨ x = 8 ∨ x = 9)%N as Hx by lia.
  repeat destruct Hx as [->|Hx]; try subst x; by vm_compute.
Qed.

Lemma pretty_N_go_app x s : pretty_N_go x s = pretty_N_go x "" +:+ s.
Proof.
  revert s. induction (N.lt_wf_0 x) as [x _ IH]; intros s.
  assert (x = 0 ∨ 0 < x)%N as [->|?] by lia; [done|].
  rewrite (pretty_N_go_step x s), (pretty_N_go_step x "") by done.
  assert (x `div` 10 < x)%N as Hlt by (by apply N.div_lt).
  rewrite (IH _ Hlt (String _ s)), (IH _ Hlt (String _ "")).
  by rewrite append_assoc.
Qed.

(** ** Numbers: the integers up to [2^53] *)

Lemma lowest_pow (k : nat) (z : Z) : lowest k (z * 2 ^ Z.of_nat k) = (z, O).
Proof.
  induction k as [|k IH]; [by rewrite Z.mul_1_r|].
  rewrite Nat2Z.inj_succ, Z.pow_succ_r by lia. cbn [lowest].
  replace (z * (2 * 2 ^ Z.of_nat k)) with (2 * (z * 2 ^ Z.of_nat k)) by lia.
  rewrite Z.even_mul. cbn [Z.even orb].
  replace (2 * (z * 2 ^ Z.of_nat k) / 2) with (z * 2 ^ Z.of_nat k).
  - apply IH.
  - symmetry. rewrite (Z.mul_comm 2), Z.div_mul; lia.
Qed.

Lemma floor_log2_int (z : Z) : 0 < z → floor_log2 z 1 = Z.log2 z.
Proof.
  intros Hz. unfold floor_log2. change (Z.log2 1) with 0. rewrite Z.sub_0_r.
  pose proof (Z.log2_nonneg z) as Hn.
  rewrite (proj2 (Z.leb_le 0 (Z.log2 z))) by done.
  destruct (Z.log2_spec z Hz) as [Hlo _].
  rewrite (proj2 (Z.leb_le _ _)); [done|lia].
Qed.

Lemma pow2_53_1024 : 2 ^ 53 < 2 ^ 1024.
Proof. apply Z.pow_lt_mono_r; lia. Qed.

(** An integer below [2^53] is a double. *)
Lemma nearest_small negative (z : Z) :
  0 < z → z < 2 ^ 53 → nearest negative z 1 = Finite negative z 0.
Proof.
  intros Hz Hlt. unfold nearest. cbv zeta. rewrite floor_log2_int by done.
  assert (0 ≤ Z.log2 z < 53) as He.
  { split; [apply Z.log2_nonneg|]. by apply Z.log2_lt_pow2. }
  rewrite Z.max_l by lia.
  destruct (0 <=? Z.log2 z - 52) eqn:Hu.
  - apply Z.leb_le in Hu. assert (Z.log2 z - 52 = 0) as -> by lia.
    change (2 ^ 0) with 1. rewrite !Z.mul_1_r, Z.div_1_r, Z.mod_1_r.
    change (2 * 0) with 0. change (1 <? 0) with false. change (1 =? 0) with false.
    cbn [orb andb]. pose proof pow2_53_1024.
    rewrite (proj2 (Z.leb_gt _ _)) by lia. change (0 <=? 0) with true. cbn [andb].
    unfold dyadic. change (0 <=? 0) with true. change (2 ^ 0) with 1.
    by rewrite Z.mul_1_r.
  - apply Z.leb_gt in Hu.
    rewrite Z.div_1_r, Z.mod_1_r.
    change (2 * 0) with 0. change (1 <? 0) with false. change (1 =? 0) with false.
    cbn [orb andb]. unfold dyadic. rewrite (proj2 (Z.leb_gt _ _)) by done.
    replace (z * 2 ^ (- (Z.log2 z - 52)))
      with (z * 2 ^ Z.of_nat (Z.to_nat (- (Z.log2 z - 52))))
      by (rewrite Z2Nat.id by lia; done).
    by rewrite lowest_pow.
Qed.

Lemma nearest_exact negative (z : Z) :
  0 < z → z ≤ 2 ^ 53 → nearest negative z 1 = Finite negative z 0.
Proof.
  intros Hz Hle. destruct (decide (z = 2 ^ 53)) as [->|Hne].
  - by destruct negative; vm_compute.
  - apply nearest_small; lia.
Qed.

Lemma decimal_int negative (z : Z) :
  0 ≤ z → z ≤ 2 ^ 53 → decimal negative z 0 = Finite negative z 0.
Proof.
  intros Hz Hle. unfold decimal. destruct (z =? 0) eqn:H0.
  - apply Z.eqb_eq in H0 as ->. done.
  - apply Z.eqb_neq in H0. cbn [Z.leb Z.compare Z.pow]. rewrite Z.mul_1_r.
    apply nearest_exact; lia.
Qed.

(** From [2^53] on, the nearest double is not below [2^53]. *)
Lemma nearest_large (r z : Z) :
  2 ^ 53 ≤ r → z < 2 ^ 53 → nearest false r 1 ≠ Finite false z 0.
Proof.
  intros Hr Hz. unfold nearest. cbv zeta.
  assert (0 < r) as Hpos by (pose proof (Z.pow_pos_nonneg 2 53); lia).
  rewrite floor_log2_int by done.
  assert (53 ≤ Z.log2 r) as He by (by apply Z.log2_le_pow2).
  rewrite Z.max_l by lia. set (u := Z.log2 r - 52).
  assert (1 ≤ u) as Hu by (unfold u; lia).
  rewrite (proj2 (Z.leb_le 0 u)) by lia. rewrite Z.mul_1_l.
  set (d := r / 2 ^ u).
  set (m := if (2 ^ u <? 2 * (r `mod` 2 ^ u))
               || ((2 ^ u =? 2 * (r `mod` 2 ^ u)) && Z.odd d) then d + 1 else d).
  assert (0 < 2 ^ u) as Hp by (apply Z.pow_pos_nonneg; lia).
  assert (2 ^ 52 ≤ d) as Hd.
  { unfold d. apply Z.div_le_lower_bound; [done|].
    rewrite <-Z.pow_add_r by lia. replace (u + 52) with (Z.log2 r) by (unfold u; lia).
    apply Z.log2_spec. done. }
  assert (d ≤ m) as Hm by (unfold m; destruct (_ || _); lia).
  cbn [andb]. destruct (2 ^ 1024 <=? m * 2 ^ u); [done|].
  unfold dyadic. rewrite (proj2 (Z.leb_le 0 u)) by lia.
  intros [= H].
  assert (2 ^ 53 ≤ m * 2 ^ u); [|lia].
  change (2 ^ 53) with (2 ^ 52 * 2 ^ 1).
  apply Z.mul_le_mono_nonneg; try lia.
  apply Z.pow_le_mono_r; lia.
Qed.

(** **** [x + 1] *)

Lemma succ_int (z : Z) :
  0 ≤ z → z < 2 ^ 53 → succ (Finite false z 0) = Finite false (z + 1) 0.
Proof.
  intros Hz Hlt. unfold succ. change (2 ^ Z.of_nat 0) with 1.
  apply nearest_exact; lia.
Qed.

(** **** The decimal numerals *)

Lemma digit_not_space c : digit c = true → space c = false.
Proof.
  unfold digit, space, between, same. intros H.
  apply andb_true_iff in H as [H1 H2].
  apply Nat.leb_le in H1, H2.
  apply orb_false_iff. split.
  - apply andb_false_iff. right. apply Nat.leb_gt. lia.
  - apply bool_decide_eq_false. intros ->. vm_compute in H1. lia.
Qed.

Lemma digit_not c d : digit c = true → digit d = false → same c d = false.
Proof.
  intros Hc Hd. unfold same. apply bool_decide_eq_false. intros ->. congruence.
Qed.

Lemma skip_digits l : Forall (λ c, digit c = true) l → skip_all space l = l.
Proof.
  destruct 1 as [|c l Hc _]; [done|]. simpl. by rewrite digit_not_space.
Qed.

Lemma trim_digits l : Forall (λ c, digit c = true) l → trim l = l.
Proof.
  intros H. unfold trim. rewrite (skip_digits l H).
  rewrite skip_digits by (by apply Forall_rev). apply rev_involutive.
Qed.

Lemma span_digits l : Forall (λ c, digit c = true) l → span digit l = (l, []).
Proof. induction 1 as [|c l Hc _ IH]; [done|]. simpl. by rewrite Hc, IH. Qed.

Lemma radix_literal_digits l :
  Forall (λ c, digit c = true) l → radix_literal l = None.
Proof.
  intros H. destruct l as [|z [|x ds]]; [done..|].
  apply Forall_cons in H as [_ H]. apply Forall_cons in H as [Hx _].
  unfold radix_literal. destruct (same z "0"); [|done].
  unfold base_of.
  by rewrite !(digit_not x _ Hx) by done.
Qed.

Lemma digit_in_10 c : digit c = true → digit_in 10 c = Some (Z.of_nat (ord c - 48)).
Proof.
  intros H. unfold digit_in. unfold digit in H. rewrite H.
  unfold between in H. apply andb_true_iff in H as [H1 H2].
  apply Nat.leb_le in H1, H2.
  rewrite (proj2 (Z.ltb_lt _ _)); [done|lia].
Qed.

Lemma digits_in_snoc acc l c :
  digits_in 10 acc (l ++ [c])
  = match digits_in 10 acc l, digit_in 10 c with
    | Some v, Some d => Some (10 * v + d)
    | _, _ => None
    end.
Proof.
  revert acc. induction l as [|d l IH]; intros acc; simpl.
  - by destruct (digit_in 10 c).
  - destruct (digit_in 10 d); [apply IH|done].
Qed.

Lemma digits_in_pretty_N_go x :
  digits_in 10 0 (chars (pretty_N_go x "")) = Some (Z.of_N x)
  ∧ Forall (λ c, digit c = true) (chars (pretty_N_go x "")).
Proof.
  induction (N.lt_wf_0 x) as [x _ IH].
  assert (x = 0 ∨ 0 < x)%N as [->|?] by lia; [by split|].
  rewrite pretty_N_go_step, pretty_N_go_app, chars_app by done.
  destruct (IH (x `div` 10)%N) as [IH1 IH2]; [by apply N.div_lt|].
  destruct (pretty_N_char_digit (x `mod` 10)) as [Hd Hv]; [by apply N.mod_lt|].
  split.
  - change (chars (String (pretty_N_char (x `mod` 10)) ""))
      with [pretty_N_char (x `mod` 10)].
    rewrite digits_in_snoc, IH1, (digit_in_10 _ Hd), Hv. f_equal.
    rewrite (N.div_mod x 10) at 3 by done. lia.
  - apply Forall_app. split; [done|]. by repeat constructor.
Qed.

Lemma digits_pretty (n : N) :
  digits_in 10 0 (chars (pretty n)) = Some (Z.of_N n)
  ∧ Forall (λ c, digit c = true) (chars (pretty n))
  ∧ chars (pretty n) ≠ [].
Proof.
  unfold pretty, pretty_N. destruct (decide (n = 0%N)) as [->|Hn].
  - by split; [|split; [repeat constructor|]].
  - destruct (digits_in_pretty_N_go n) as [H1 H2]. split; [done|]. split; [done|].
    intros H0. rewrite H0 in H1. injection H1. lia.
Qed.

(** A decimal numeral below [2^53] is read as its value. *)
Lemma Number_pretty (n : N) :
  (n < 2 ^ 53)%N → Number (Some (pretty n)) = Finite false (Z.of_N n) 0.
Proof.
  intros Hn. destruct (digits_pretty n) as (Hv & Hd & Hne).
  unfold Number, StringToNumber. rewrite (trim_digits _ Hd).
  destruct (chars (pretty n)) as [|c l] eqn:Hl; [done|].
  rewrite (radix_literal_digits _ Hd).
  apply Forall_cons in Hd as [Hc Hd'].
  unfold decimal_literal, signed.
  rewrite !(digit_not c _ Hc) by done.
  rewrite bool_decide_eq_false_2.
  2:{ intros [= -> _]. done. }
  rewrite span_digits by (by constructor). rewrite app_nil_r.
  cbn [app]. rewrite Hv. cbn [exponent_part List.length].
  change (0 - Z.of_nat 0) with 0. apply decimal_int; [lia|].
  change (2 ^ 53) with (Z.of_N (2 ^ 53)). lia.
Qed.

Lemma pretty_no_dot (n : N) :
  Forall (λ c, same c (chr 46) = false) (chars (pretty n)).
Proof.
  eapply Forall_impl; [apply (digits_pretty n)|].
  intros c Hc. unfold same. apply bool_decide_eq_false. intros ->. done.
Qed.

Lemma pretty_Z_of_N (n : N) : pretty (Z.of_N n) = pretty n.
Proof. by destruct n. Qed.

Lemma pretty_N_zero (n : N) : pretty n = "0" ↔ n = 0%N.
Proof.
  split; [|by intros ->].
  intros H. by apply (inj pretty).
Qed.

(** **** The text of an integer *)

Lemma pretty_N_times_10 (x : N) :
  (0 < x)%N → pretty (x * 10)%N = pretty x +:+ "0".
Proof.
  intros Hx. unfold pretty, pretty_N.
  rewrite !decide_False by lia.
  rewrite pretty_N_go_step by lia.
  replace ((x * 10) `div` 10)%N with x by (symmetry; by apply N.div_mul).
  replace ((x * 10) `mod` 10)%N with 0%N by (symmetry; by apply N.Div0.mod_mul).
  apply pretty_N_go_app.
Qed.

Lemma zeros_succ (j : nat) : zeros (Z.of_nat (S j)) = "0" +:+ zeros (Z.of_nat j).
Proof. unfold zeros. rewrite !Nat2Z.id. done. Qed.

Lemma zeros_snoc (j : nat) : zeros (Z.of_nat (S j)) = zeros (Z.of_nat j) +:+ "0".
Proof.
  unfold zeros. rewrite !Nat2Z.id.
  change (S j) with (1 + j)%nat. rewrite Nat.add_comm, replicate_add, text_app. done.
Qed.

Lemma pretty_N_times_pow10 (x : N) (j : nat) :
  (0 < x)%N → pretty (x * 10 ^ N.of_nat j)%N = pretty x +:+ zeros (Z.of_nat j).
Proof.
  intros Hx. induction j as [|j IH].
  - rewrite N.mul_1_r. unfold zeros. simpl.
    clear. induction (pretty x) as [|c s IH]; [done|].
    change (String c s = String c (s +:+ "")). by f_equal.
  - rewrite Nat2N.inj_succ, N.pow_succ_r', zeros_snoc.
    replace (x * (10 * 10 ^ N.of_nat j))%N with (x * 10 ^ N.of_nat j * 10)%N by lia.
    rewrite pretty_N_times_10.
    2:{ apply N.mul_pos_pos; [done|]. assert (10 ^ N.of_nat j ≠ 0)%N; [|lia].
        by apply N.pow_nonzero. }
    by rewrite IH, append_assoc.
Qed.

Lemma pretty_Z_to_N (z : Z) : 0 ≤ z → pretty z = pretty (Z.to_N z).
Proof. by destruct z. Qed.

Lemma length_pretty_N_go (m : nat) (n : N) :
  (n < 10 ^ N.of_nat m)%N → (String.length (pretty_N_go n "") ≤ m)%nat.
Proof.
  revert n. induction m as [|m IH]; intros n Hn.
  - assert (n = 0%N) as -> by (simpl in Hn; lia). done.
  - assert (n = 0 ∨ 0 < n)%N as [->|Hpos] by lia; [simpl; lia|].
    rewrite pretty_N_go_step, pretty_N_go_app, length_append by done.
    assert (n `div` 10 < 10 ^ N.of_nat m)%N as Hd.
    { apply N.Div0.div_lt_upper_bound.
      rewrite Nat2N.inj_succ, N.pow_succ_r' in Hn. lia. }
    specialize (IH _ Hd). simpl. lia.
Qed.

Lemma length_pretty_N (m : nat) (n : N) :
  (n < 10 ^ N.of_nat m)%N → (1 ≤ m)%nat → (String.length (pretty n) ≤ m)%nat.
Proof.
  intros Hn Hm. unfold pretty, pretty_N. destruct (decide (n = 0%N)) as [->|?].
  - simpl. lia.
  - by apply length_pretty_N_go.
Qed.

Lemma length_zeros (j : Z) : String.length (zeros j) = Z.to_nat j.
Proof.
  unfold zeros. induction (Z.to_nat j) as [|n IH]; [done|].
  simpl. by rewrite IH.
Qed.

Lemma pretty_times_pow10 (s j : Z) :
  0 < s → 0 ≤ j → pretty (s * 10 ^ j) = pretty s +:+ zeros j.
Proof.
  intros Hs Hj.
  assert (0 < 10 ^ j) as Hp by (apply Z.pow_pos_nonneg; lia).
  rewrite !pretty_Z_to_N by lia.
  rewrite Z2N.inj_mul, Z2N.inj_pow by lia.
  rewrite <-(N2Nat.id (Z.to_N j)).
  rewrite pretty_N_times_pow10 by lia.
  do 2 f_equal. lia.
Qed.

Lemma decimal_small (s j : Z) :
  0 ≤ s → 0 ≤ j → s * 10 ^ j ≤ 2 ^ 53 →
  decimal false s j = Finite false (s * 10 ^ j) 0.
Proof.
  intros Hs Hj Hle. unfold decimal. destruct (s =? 0) eqn:H0.
  - apply Z.eqb_eq in H0 as ->. done.
  - apply Z.eqb_neq in H0. rewrite (proj2 (Z.leb_le 0 j)) by done.
    apply nearest_exact; [|done]. apply Z.mul_pos_pos; [lia|].
    apply Z.pow_pos_nonneg; lia.
Qed.

Lemma decimal_large (s j z : Z) :
  0 < s → 0 ≤ j → 2 ^ 53 ≤ s * 10 ^ j → z < 2 ^ 53 →
  decimal false s j ≠ Finite false z 0.
Proof.
  intros Hs Hj Hle Hz. unfold decimal.
  rewrite (proj2 (Z.eqb_neq s 0)) by lia.
  rewrite (proj2 (Z.leb_le 0 j)) by done. by apply nearest_large.
Qed.

(** The candidates of [d] digits for an integer below [2^53]: the one
    below reads back when it is the integer itself, the one above never
    does. *)
Lemma candidate_int (z d : Z) :
  0 < z → z < 2 ^ 53 →
  let L := Z.of_nat (String.length (pretty z)) in
  1 ≤ d → d ≤ L →
  candidate (Finite false z 0) z 0 d
  = if z `mod` 10 ^ (L - d) =? 0 then Some (z / 10 ^ (L - d), L - d) else None.
Proof.
  intros Hz Hlt L Hd HL. unfold candidate, decade.
  change (2 ^ Z.of_nat 0) with 1. rewrite Z.div_1_r.
  rewrite (proj2 (Z.ltb_lt 0 z)) by done. fold L. set (j := L - d).
  assert (0 ≤ j) as Hj by (unfold j; lia).
  rewrite (proj2 (Z.leb_le 0 j)) by done. rewrite Z.mul_1_l. cbv beta iota zeta.
  assert (0 < 10 ^ j) as Hp by (apply Z.pow_pos_nonneg; lia).
  set (lo := z / 10 ^ j).
  assert (0 ≤ lo) as Hlo by (apply Z.div_pos; lia).
  assert (lo * 10 ^ j ≤ z) as Hbelow.
  { unfold lo. rewrite Z.mul_comm. apply Z.mul_div_le. done. }
  assert (z < (lo + 1) * 10 ^ j) as Habove.
  { unfold lo. rewrite Z.mul_comm. apply Z.mul_succ_div_gt. done. }
  assert (bool_decide (decimal false (lo + 1) j = Finite false z 0) = false) as ->.
  { apply bool_decide_eq_false.
    destruct (decide ((lo + 1) * 10 ^ j ≤ 2 ^ 53)) as [Hs|Hs].
    - rewrite decimal_small by lia. intros [= H]. lia.
    - apply decimal_large; lia. }
  rewrite decimal_small by lia.
  destruct (z `mod` 10 ^ j =? 0) eqn:Hm.
  - apply Z.eqb_eq in Hm.
    assert (lo * 10 ^ j = z) as Heq.
    { unfold lo. rewrite Z.mul_comm. symmetry. apply Z.div_exact; lia. }
    rewrite bool_decide_eq_true_2 by (by rewrite Heq). done.
  - apply Z.eqb_neq in Hm.
    rewrite bool_decide_eq_false_2; [done|].
    intros [= Heq]. apply Hm. rewrite <-Heq. apply Z.mod_mul. lia.
Qed.

Lemma shortest_int (fuel : nat) (z d : Z) :
  0 < z → z < 2 ^ 53 →
  let L := Z.of_nat (String.length (pretty z)) in
  1 ≤ d → d ≤ L → L - d < Z.of_nat fuel →
  ∃ s j, shortest fuel (Finite false z 0) z 0 d = (s, j)
         ∧ 0 < s ∧ 0 ≤ j ∧ s * 10 ^ j = z.
Proof.
  intros Hz Hlt L. revert d. induction fuel as [|fuel IH]; intros d Hd HL Hf; [lia|].
  cbn [shortest]. rewrite candidate_int by done. fold L.
  assert (0 < 10 ^ (L - d)) as Hp by (apply Z.pow_pos_nonneg; lia).
  destruct (z `mod` 10 ^ (L - d) =? 0) eqn:Hm.
  - apply Z.eqb_eq in Hm. exists (z / 10 ^ (L - d)), (L - d).
    assert (z / 10 ^ (L - d) * 10 ^ (L - d) = z) as Heq.
    { rewrite Z.mul_comm. symmetry. apply Z.div_exact; lia. }
    split; [done|]. split; [|split; [lia|done]].
    destruct (decide (0 < z / 10 ^ (L - d))) as [|Hn]; [done|].
    assert (0 ≤ z / 10 ^ (L - d)) by (apply Z.div_pos; lia).
    assert (z / 10 ^ (L - d) = 0) as H0 by lia. rewrite H0 in Heq. lia.
  - apply Z.eqb_neq in Hm.
    assert (d < L) as Hd'.
    { destruct (decide (d = L)) as [->|]; [|lia].
      rewrite Z.sub_diag in Hm. change (10 ^ 0) with 1 in Hm.
      by rewrite Z.mod_1_r in Hm. }
    apply IH; lia.
Qed.

Lemma num_text_small (z : Z) :
  0 < z → z < 2 ^ 53 → num_text (Finite false z 0) = pretty z.
Proof.
  intros Hz Hlt. unfold num_text. rewrite (proj2 (Z.eqb_neq z 0)) by lia.
  assert (String.length (pretty z) ≤ 16)%nat as HL.
  { rewrite pretty_Z_to_N by lia. apply length_pretty_N; [|lia].
    change (10 ^ N.of_nat 16)%N with (Z.to_N (10 ^ 16)).
    assert (2 ^ 53 < 10 ^ 16) by done. lia. }
  assert (1 ≤ String.length (pretty z))%nat as HL1.
  { destruct z as [|p|p]; try lia. rewrite pretty_Z_to_N by lia.
    unfold pretty, pretty_N. simpl. rewrite pretty_N_go_step by lia.
    rewrite pretty_N_go_app, length_append. simpl. lia. }
  destruct (shortest_int 17 z 1 Hz Hlt) as (s & j & -> & Hs & Hj & Heq); try lia.
  assert (pretty z = pretty s +:+ zeros j) as Hpz.
  { rewrite <-Heq. by apply pretty_times_pow10. }
  assert (Z.of_nat (String.length (pretty z))
          = j + Z.of_nat (String.length (pretty s))) as Hlen.
  { rewrite Hpz, length_append, length_zeros. lia. }
  rewrite (proj2 (Z.leb_le _ _)) by lia.
  rewrite (proj2 (Z.leb_le _ _)) by lia.
  cbn [andb]. rewrite Hpz.
  replace (j + Z.of_nat (String.length (pretty s))
           - Z.of_nat (String.length (pretty s))) with j by lia.
  done.
Qed.

(** An integer from 0 to [2^53] is printed with all its digits. *)
Lemma num_text_int (z : Z) :
  0 ≤ z → z ≤ 2 ^ 53 → num_text (Finite false z 0) = pretty z.
Proof.
  intros Hz Hle. destruct (decide (z = 0)) as [->|H0]; [done|].
  destruct (decide (z = 2 ^ 53)) as [->|Hne]; [by vm_compute|].
  apply num_text_small; lia.
Qed.

Lemma succ_Number_pretty (n : N) :
  (n < 2 ^ 53)%N → num_text (succ (Number (Some (pretty n)))) = pretty (n + 1)%N.
Proof.
  intros Hn. rewrite Number_pretty by done.
  assert (Z.of_N n < 2 ^ 53) by (change (2 ^ 53) with (Z.of_N (2 ^ 53)); lia).
  rewrite succ_int, num_text_int by lia.
  replace (Z.of_N n + 1) with (Z.of_N (n + 1)) by lia. apply pretty_Z_of_N.
Qed.

(** A version of three decimal components, and its parts. *)
Lemma split_version (a b c : N) :
  split (chr 46) (pretty a +:+ "." +:+ pretty b +:+ "." +:+ pretty c)
  = [pretty a; pretty b; pretty c].
Proof.
  unfold split. rewrite !chars_app.
  change (chars ".") with [chr 46].
  rewrite (split_loop_sep _ [] (chars (pretty a))) by apply pretty_no_dot.
  rewrite (split_loop_sep _ [] (chars (pretty b))) by apply pretty_no_dot.
  rewrite split_loop_no_sep by apply pretty_no_dot.
  cbn [rev app]. by rewrite !text_chars.
Qed.

(** ** Versions *)

Lemma bumpVersion_parts (a b c : N) :
  let parts := split (chr 46) (pretty a +:+ "." +:+ pretty b +:+ "." +:+ pretty c) in
  parts !! 0%nat = Some (pretty a) ∧ parts !! 1%nat = Some (pretty b)
  ∧ parts !! 2%nat = Some (pretty c).
Proof. simpl. by rewrite split_version. Qed.

Lemma major_is_zero (a : N) :
  bool_decide (Some (pretty a) = Some "0") = bool_decide (a = 0%N).
Proof.
  apply bool_decide_ext. split.
  - intros [= H]. by apply pretty_N_zero.
  - by intros ->.
Qed.

Lemma bump_decimal (a b c : N) (changes : Changes) :
  (a < 2 ^ 53)%N → (b < 2 ^ 53)%N → (c < 2 ^ 53)%N →
  bumpVersion (Some (pretty a +:+ "." +:+ pretty b +:+ "." +:+ pretty c)) changes
  = if nonempty (breaking changes) && negb (bool_decide (a = 0%N))
    then Ok (pretty (a + 1)%N +:+ ".0.0")
    else if nonempty (feature changes) || nonempty (breaking changes)
    then Ok (pretty a +:+ "." +:+ pretty (b + 1)%N +:+ ".0")
    else if nonempty (fix_ changes)
    then Ok (pretty a +:+ "." +:+ pretty b +:+ "." +:+ pretty (c + 1)%N)
    else Throw (Error "No new release notes!").
Proof.
  intros Ha Hb Hc. unfold bumpVersion.
  destruct (bumpVersion_parts a b c) as (-> & -> & ->).
  by rewrite major_is_zero, !succ_Number_pretty.
Qed.

(** The largest integer that the numbers of the language count up to. *)
Lemma split_2_53 :
  split (chr 46) "9007199254740992.0.0" = ["9007199254740992"; "0"; "0"].
Proof. by vm_compute. Qed.

Lemma succ_2_53 : num_text (succ (Number (Some "9007199254740992"))) = "9007199254740992".
Proof. by vm_compute. Qed.

(** X1. [bumpVersion] of the first revision on a version of three decimal
    components [a.b.c] below [2^53], up to which the numbers of the
    language count: a breaking change under a major version other than 0
    gives [(a+1).0.0]; otherwise a feature or a breaking change gives
    [a.(b+1).0]; otherwise a fix gives [a.b.(c+1)]; with no change at all
    it throws.  The bound is sharp: at the major version [2^53] a
    breaking change gives back the version it was given. *)
Theorem bumpVersion_decimal (changes : Changes) :
  (∀ a b c : N,
     (a < 2 ^ 53)%N → (b < 2 ^ 53)%N → (c < 2 ^ 53)%N →
     bumpVersion (Some (pretty a +:+ "." +:+ pretty b +:+ "." +:+ pretty c)) changes
     = if nonempty (breaking changes) && negb (bool_decide (a = 0%N))
       then Ok (pretty (a + 1)%N +:+ ".0.0")
       else if nonempty (feature changes) || nonempty (breaking changes)
       then Ok (pretty a +:+ "." +:+ pretty (b + 1)%N +:+ ".0")
       else if nonempty (fix_ changes)
       then Ok (pretty a +:+ "." +:+ pretty b +:+ "." +:+ pretty (c + 1)%N)
       else Throw (Error "No new release notes!"))
  ∧ (nonempty (breaking changes) = true →
     bumpVersion (Some "9007199254740992.0.0") changes
     = Ok "9007199254740992.0.0").
Proof.
  split.
  - intros a b c. apply bump_decimal.
  - intros Hb. unfold bumpVersion. rewrite split_2_53. cbn [lookup list_lookup].
    rewrite Hb, succ_2_53. done.
Qed.

(** The theorem at the version 1.2.3 with a fix, and at the major
    version [2^53] with a breaking change. *)
Lemma bumpVersion_decimal_witness :
  bumpVersion (Some "1.2.3") {| fix_ := ["y"]; feature := []; breaking := [] |}
  = Ok "1.2.4"
  ∧ bumpVersion (Some "9007199254740992.0.0")
      {| fix_ := []; feature := []; breaking := ["z"] |}
    = Ok "9007199254740992.0.0".
Proof.
  split.
  - apply (proj1 (bumpVersion_decimal
                    {| fix_ := ["y"]; feature := []; breaking := [] |}) 1 2 3)%N;
      reflexivity.
  - apply (proj2 (bumpVersion_decimal
                    {| fix_ := []; feature := []; breaking := ["z"] |})).
    reflexivity.
Defined.

Lemma bump2_decimal (a b c : N) (changes : Changes) :
  (a < 2 ^ 53)%N → (b < 2 ^ 53)%N → (c < 2 ^ 53)%N →
  Rev2.bumpVersion (Some (pretty a +:+ "." +:+ pretty b +:+ "." +:+ pretty c)) changes
  = if bool_decide (a = 0%N) then
      if nonempty (breaking changes)
      then Ok ("0." +:+ pretty (b + 1)%N +:+ ".0")
      else if nonempty (fix_ changes) || nonempty (feature changes)
      then Ok ("0." +:+ pretty b +:+ "." +:+ pretty (c + 1)%N)
      else Throw (Error "No new release notes!")
    else
      if nonempty (breaking changes)
      then Ok (pretty (a + 1)%N +:+ ".0.0")
      else if nonempty (feature changes)
      then Ok (pretty a +:+ "." +:+ pretty (b + 1)%N +:+ ".0")
      else if nonempty (fix_ changes)
      then Ok (pretty a +:+ "." +:+ pretty b +:+ "." +:+ pretty (c + 1)%N)
      else Throw (Error "No new release notes!").
Proof.
  intros Ha Hb Hc. unfold Rev2.bumpVersion.
  destruct (bumpVersion_parts a b c) as (-> & -> & ->).
  rewrite major_is_zero, !succ_Number_pretty by done.
  case_bool_decide as Ha0; [subst a|];
    destruct (breaking changes), (feature changes), (fix_ changes); done.
Qed.

(** X2. [bumpVersion] of the second revision on [a.b.c] with components
    below [2^53]: under major version 0 a feature counts as a fix and
    gives [0.b.(c+1)], and only a breaking change gives [0.(b+1).0]; from
    major version 1 on the rule is that of the first revision.  At the
    major version [2^53] a breaking change gives back the version it was
    given. *)
Theorem bumpVersion2_decimal (changes : Changes) :
  (∀ a b c : N,
     (a < 2 ^ 53)%N → (b < 2 ^ 53)%N → (c < 2 ^ 53)%N →
     Rev2.bumpVersion
       (Some (pretty a +:+ "." +:+ pretty b +:+ "." +:+ pretty c)) changes
     = if bool_decide (a = 0%N) then
         if nonempty (breaking changes)
         then Ok ("0." +:+ pretty (b + 1)%N +:+ ".0")
         else if nonempty (fix_ changes) || nonempty (feature changes)
         then Ok ("0." +:+ pretty b +:+ "." +:+ pretty (c + 1)%N)
         else Throw (Error "No new release notes!")
       else
         if nonempty (breaking changes)
         then Ok (pretty (a + 1)%N +:+ ".0.0")
         else if nonempty (feature changes)
         then Ok (pretty a +:+ "." +:+ pretty (b + 1)%N +:+ ".0")
         else if nonempty (fix_ changes)
         then Ok (pretty a +:+ "." +:+ pretty b +:+ "." +:+ pretty (c + 1)%N)
         else Throw (Error "No new release notes!"))
  ∧ (nonempty (breaking changes) = true →
     Rev2.bumpVersion (Some "9007199254740992.0.0") changes
     = Ok "9007199254740992.0.0").
Proof.
  split.
  - intros a b c. apply bump2_decimal.
  - intros Hb. unfold Rev2.bumpVersion. rewrite split_2_53. cbn [lookup list_lookup].
    rewrite Hb, succ_2_53. done.
Qed.

(** The theorem at the version 0.4.1 with a feature, and at the major
    version [2^53] with a breaking change. *)
Lemma bumpVersion2_decimal_witness :
  Rev2.bumpVersion (Some "0.4.1") {| fix_ := []; feature := ["x"]; breaking := [] |}
  = Ok "0.4.2"
  ∧ Rev2.bumpVersion (Some "9007199254740992.0.0")
      {| fix_ := []; feature := []; breaking := ["z"] |}
    = Ok "9007199254740992.0.0".
Proof.
  split.
  - apply (proj1 (bumpVersion2_decimal
                    {| fix_ := []; feature := ["x"]; breaking := [] |}) 0 4 1)%N;
      reflexivity.
  - apply (proj2 (bumpVersion2_decimal
                    {| fix_ := []; feature := []; breaking := ["z"] |})).
    reflexivity.
Defined.

(** X3. [bumpVersion] does not check the version it is given: on a text
    without a dot, a fix gives that text with [.undefined.NaN] after it,
    in both revisions. *)
Theorem bumpVersion_unvalidated (v x : string) :
  chr 46 ∉ chars v →
  bumpVersion (Some v) {| fix_ := [x]; feature := []; breaking := [] |}
  = Ok (v +:+ ".undefined.NaN")
  ∧ Rev2.bumpVersion (Some v) {| fix_ := [x]; feature := []; breaking := [] |}
    = Ok (v +:+ ".undefined.NaN").
Proof.
  intros Hv.
  assert (split (chr 46) v = [v]) as Hs.
  { unfold split. rewrite split_loop_no_sep; [cbn [rev app]; by rewrite text_chars|].
    apply Forall_forall. intros c Hc. unfold same.
    apply bool_decide_eq_false. by intros ->. }
  unfold bumpVersion, Rev2.bumpVersion. rewrite Hs. simpl.
  split; reflexivity.
Qed.

Lemma bumpVersion_unvalidated_witness :
  (chr 46 ∉ chars "1")
  ∧ bumpVersion (Some "1") {| fix_ := ["x"]; feature := []; breaking := [] |}
    = Ok "1.undefined.NaN".
Proof.
  assert (chr 46 ∉ chars "1") as H.
  { intros H. by repeat (apply elem_of_cons in H as [H|H]; [|]); try apply elem_of_nil in H. }
  split; [exact H|]. exact (proj1 (bumpVersion_unvalidated "1" "x" H)).
Defined.

(** ** The registry *)

Lemma index_by_name_snoc (l : list Pkg) (x : Pkg) :
  index_by_name (l ++ [x]) = <[name x := x]> (index_by_name l).
Proof. unfold index_by_name. by rewrite foldl_app. Qed.

Lemma filter_name_absent (l : list Pkg) (n : string) :
  n ∉ name <$> l → filter (λ q, name q = n) l = [].
Proof.
  induction l as [|x l IH]; intros Hn; [done|].
  rewrite fmap_cons, not_elem_of_cons in Hn. destruct Hn as [Hx Hn].
  rewrite filter_cons_False by done. by apply IH.
Qed.

Lemma filter_name_unique (l : list Pkg) (p : Pkg) :
  NoDup (name <$> l) → p ∈ l → filter (λ q, name q = name p) l = [p].
Proof.
  induction l as [|x l IH]; intros Hnd Hp; [by apply elem_of_nil in Hp|].
  rewrite fmap_cons in Hnd. apply NoDup_cons in Hnd as [Hx Hnd].
  apply elem_of_cons in Hp as [->|Hp].
  - rewrite filter_cons_True by done. f_equal. by apply filter_name_absent.
  - rewrite filter_cons_False; [by apply IH|].
    intros Hn. apply Hx. rewrite Hn. by apply list_elem_of_fmap_2.
Qed.

Lemma registry_names E :
  NoDup (name <$> packages E) ∧ NoDup (name <$> Rev2.packages E).
Proof. split; apply (bool_decide_unpack _); by vm_compute. Qed.

(** X4. [packageNames] is filled by assignment in registry order: a name
    leads to the last package of the list that has it, and to nothing
    when no package has it.  The names of both registries are distinct,
    so every registered package is found under its own name. *)
Theorem packageNames_lookup :
  (∀ (l : list Pkg) (n : string),
     index_by_name l !! n = last (filter (λ p, name p = n) l))
  ∧ (∀ E p, p ∈ packages E → packageNames E !! name p = Some p)
  ∧ (∀ E p, p ∈ Rev2.packages E → Rev2.packageNames E !! name p = Some p).
Proof.
  assert (∀ (l : list Pkg) (n : string),
            index_by_name l !! n = last (filter (λ p, name p = n) l)) as H.
  { intros l n. induction l as [|x l IH] using rev_ind; [done|].
    rewrite index_by_name_snoc, filter_app.
    destruct (decide (name x = n)) as [Hn|Hn].
    - rewrite filter_cons_True, filter_nil by done.
      rewrite last_snoc. subst n. by rewrite lookup_insert_eq.
    - rewrite filter_cons_False, filter_nil, app_nil_r by done.
      by rewrite lookup_insert_ne. }
  split; [exact H|].
  split; intros E p Hp.
  - unfold packageNames. rewrite H, filter_name_unique; [done| |done].
    apply registry_names.
  - unfold Rev2.packageNames. rewrite H, filter_name_unique; [done| |done].
    apply registry_names.
Qed.

(** ** Loops that only add to the trace *)

Lemma set_trace_nil w : set_trace (λ t, t ++ []) w = w.
Proof. destruct w. unfold set_trace. simpl. by rewrite app_nil_r. Qed.

Lemma set_trace_app a b w :
  set_trace (λ t, t ++ b) (set_trace (λ t, t ++ a) w)
  = set_trace (λ t, t ++ (a ++ b)) w.
Proof. unfold set_trace. simpl. by rewrite app_assoc. Qed.

(** A loop whose rounds add [acts x] to the trace and go on. *)
Lemma for_each_trace {A} (l : list A) (body : A → M unit)
    (acts : A → list action) w :
  Forall (λ x, ∀ w, body x w = (Ok (), set_trace (λ t, t ++ acts x) w)) l →
  for_each l body w = (Ok (), set_trace (λ t, t ++ (l ≫= acts)) w).
Proof.
  revert w. induction l as [|x l IH]; intros w H; simpl.
  - by rewrite set_trace_nil.
  - inversion H as [|? ? Hx Hl]; subst. unfold bind at 1. rewrite Hx.
    rewrite IH by done. by rewrite set_trace_app.
Qed.

(** A loop that a round leaves: the rounds after it do not run. *)
Lemma for_each_stops {A} (before after : list A) (x : A) (body : A → M unit)
    (acts : A → list action) (r : outcome unit) w :
  Forall (λ x, ∀ w, body x w = (Ok (), set_trace (λ t, t ++ acts x) w)) before →
  (∀ w, body x w = (r, set_trace (λ t, t ++ acts x) w)) →
  r ≠ Ok () →
  for_each (before ++ x :: after) body w
  = (r, set_trace (λ t, t ++ ((before ++ [x]) ≫= acts)) w).
Proof.
  intros Hb Hx Hr. rewrite for_each_app. unfold bind at 1.
  rewrite (for_each_trace before body acts) by done.
  simpl. unfold bind at 1. rewrite Hx.
  rewrite bind_app, set_trace_app. simpl. rewrite app_nil_r.
  destruct r as [[]| |]; done.
Qed.

(** ** A command of the user in every package *)

Lemma run_shown_cases E cmd args wd w :
  trace (run_shown E cmd args wd w).2 = trace w ++ [Exec cmd args wd]
  ∧ ((run_shown E cmd args wd w).1 = Ok ()
     ∨ (run_shown E cmd args wd w).1 = Throw (CommandFailed cmd args)
     ∨ ∃ code, (run_shown E cmd args wd w).1 = Throw (SpawnFailed cmd code)).
Proof.
  unfold run_shown, bind, emit, modify, gets, throw. cbn [fst snd].
  destruct (program E cmd args wd _ _) as [[[| |code] f] d]; cbn; eauto.
Qed.

Lemma visit_round E cmd args (cont : bool) pkg w :
  match run_shown E cmd args (dir pkg) w with
  | (Ok _, w1) => visit E cont cmd args pkg w = (Ok (), w1)
  | (Throw e, w1) =>
      visit E cont cmd args pkg w
      = (if cont then Ok () else Exit 1,
         set_trace (λ t, t ++ [LogError (Text (describe e))]) w1)
  | (Exit _, _) => False
  end.
Proof.
  unfold visit, try_catch.
  destruct (run_shown_cases E cmd args (dir pkg) w) as [_ Hr].
  destruct (run_shown E cmd args (dir pkg) w) as [[[]|e|n] w1]; cbn [fst] in Hr.
  - done.
  - unfold bind, console_error, emit, modify, exit, ret. cbn. by destruct cont.
  - destruct Hr as [|[|[? ?]]]; done.
Qed.

Lemma carried_cons E cmd args (x : Pkg) (l : list Pkg) w :
  carried E cmd args (x :: l) w
  = carried E cmd args l (run_shown E cmd args (dir x) w).2.
Proof. done. Qed.

Lemma carried_trace E cmd args (l : list Pkg) w :
  trace (carried E cmd args l w) = trace w ++ visits cmd args l.
Proof.
  revert w. induction l as [|x l IH]; intros w.
  - cbn. by rewrite app_nil_r.
  - rewrite carried_cons, IH. destruct (run_shown_cases E cmd args (dir x) w) as [-> _].
    unfold visits. rewrite fmap_cons, <-app_assoc. done.
Qed.

Lemma for_each_step {A} (x : A) (l : list A) (body : A → M unit) w w1 :
  body x w = (Ok (), w1) → for_each (x :: l) body w = for_each l body w1.
Proof. intros H. cbn [for_each]. unfold bind at 1. by rewrite H. Qed.

Lemma visits_all E cmd args (l : list Pkg) w :
  (for_each l (visit E true cmd args) w).1 = Ok ()
  ∧ ∃ t, trace (for_each l (visit E true cmd args) w).2 = trace w ++ t
         ∧ commands t = visits cmd args l ∧ Forall runs_or_reports t.
Proof.
  revert w. induction l as [|x l IH]; intros w.
  - split; [done|]. exists []. by rewrite app_nil_r.
  - pose proof (visit_round E cmd args true x w) as Hx.
    destruct (run_shown_cases E cmd args (dir x) w) as [Ht _].
    destruct (run_shown E cmd args (dir x) w) as [[[]|e|n] w1]; [| |done];
      cbn [fst snd] in Ht.
    + rewrite (for_each_step x l (visit E true cmd args) w w1 Hx).
      destruct (IH w1) as (Ho & t & Htr & Hc & Hf). split; [done|].
      exists (Exec cmd args (dir x) :: t). rewrite Htr, Ht, <-app_assoc.
      split; [done|]. split; [|by constructor].
      unfold commands in *. cbn. by rewrite Hc.
    + rewrite (for_each_step x l (visit E true cmd args) w _ Hx).
      destruct (IH (set_trace (λ t, t ++ [LogError (Text (describe e))]) w1))
        as (Ho & t & Htr & Hc & Hf).
      split; [done|].
      exists (Exec cmd args (dir x) :: LogError (Text (describe e)) :: t).
      rewrite Htr. cbn [trace set_trace]. rewrite Ht, <-!app_assoc.
      split; [done|]. split; [|by repeat constructor].
      unfold commands in *. cbn. by rewrite Hc.
Qed.

Lemma visits_succeed E cmd args (l : list Pkg) w :
  (∀ before pkg after,
     l = before ++ pkg :: after →
     (run_shown E cmd args (dir pkg) (carried E cmd args before w)).1 = Ok ()) →
  for_each l (visit E false cmd args) w = (Ok (), carried E cmd args l w).
Proof.
  revert w. induction l as [|x l IH]; intros w H; [done|].
  pose proof (visit_round E cmd args false x w) as Hx.
  pose proof (H [] x l eq_refl) as H0.
  change (carried E cmd args [] w) with w in H0.
  destruct (run_shown E cmd args (dir x) w) as [[[]|e|n] w1] eqn:Hr; [|done..].
  rewrite (for_each_step x l (visit E false cmd args) w w1 Hx), carried_cons, Hr.
  cbn [snd]. apply IH. intros before pkg after ->.
  specialize (H (x :: before) pkg after eq_refl).
  by rewrite carried_cons, Hr in H.
Qed.

Lemma visits_stop E cmd args (before after : list Pkg) pkg e w w' :
  (∀ b1 p b2,
     before = b1 ++ p :: b2 →
     (run_shown E cmd args (dir p) (carried E cmd args b1 w)).1 = Ok ()) →
  run_shown E cmd args (dir pkg) (carried E cmd args before w) = (Throw e, w') →
  for_each (before ++ pkg :: after) (visit E false cmd args) w
  = (Exit 1, set_trace (λ t, t ++ [LogError (Text (describe e))]) w').
Proof.
  revert w. induction before as [|x before IH]; intros w H Hfail.
  - pose proof (visit_round E cmd args false pkg w) as Hx.
    change (carried E cmd args [] w) with w in Hfail. rewrite Hfail in Hx.
    cbn [app for_each]. unfold bind at 1. by rewrite Hx.
  - pose proof (visit_round E cmd args false x w) as Hx.
    pose proof (H [] x before eq_refl) as H0.
  change (carried E cmd args [] w) with w in H0.
    destruct (run_shown E cmd args (dir x) w) as [[[]|e0|n] w1] eqn:Hr; [|done..].
    cbn [app]. rewrite (for_each_step x _ (visit E false cmd args) w w1 Hx).
    apply IH.
    + intros b1 p b2 ->. specialize (H (x :: b1) p b2 eq_refl).
      by rewrite carried_cons, Hr in H.
    + by rewrite carried_cons, Hr in Hfail.
Qed.

Lemma runs_in_each_loop E (l : list Pkg) (runCmd : list string → M unit) :
  (∀ args w,
     runCmd args w
     = let cont := bool_decide (args !! 0%nat = Some "--cont") in
       let args := if cont then drop 1 args else args in
       for_each l (λ pkg,
         try_catch
           match args with
           | cmd :: rest => run_shown E cmd rest (dir pkg)
           | [] => throw (TypeError "The file argument must be of type string")
           end
           (λ e, console_error (Text (describe e));;
                 if negb cont then exit 1 else ret ())) w) →
  runs_in_each E l runCmd.
Proof.
  intros Hdef cmd args w.
  assert (runCmd ("--cont" :: cmd :: args) w
          = for_each l (visit E true cmd args) w) as Hcont by (by rewrite Hdef).
  assert (cmd ≠ "--cont" →
          runCmd (cmd :: args) w = for_each l (visit E false cmd args) w) as Hstop.
  { intros Hcmd. rewrite Hdef. cbn [lookup list_lookup].
    by rewrite bool_decide_eq_false_2 by (by intros [= ?]). }
  split; [|split; [apply carried_trace|intros Hcmd; split]].
  - destruct (visits_all E cmd args l w) as (Ho & t & Ht & Hc & Hf).
    rewrite (performed_app _ w t) by (by rewrite Hcont).
    by rewrite Hcont.
  - intros Hall. rewrite Hstop by done. by apply visits_succeed.
  - intros before pkg after e w' -> Hall Hfail. split.
    + rewrite Hstop by done. by apply visits_stop.
    + destruct (run_shown_cases E cmd args (dir pkg)
                  (carried E cmd args before w)) as [_ Hr].
      rewrite Hfail in Hr. cbn [fst] in Hr.
      destruct Hr as [?|[[= ->]|[code [= ->]]]]; [done|by left|right; eauto].
Qed.

(** X5. [runCmd] in both revisions.  With [--cont] the command runs in
    the directory of every package, in registry order, whatever fails;
    nothing is done but to run it and to print the errors, and the call
    returns.  Without it the call returns when the command succeeds in
    every package, each time on the files as the packages before have
    left them; at the first package in which it fails, the error is
    printed, with the command and its arguments, and the process ends
    with status 1 on the files as the failed command has left them: the
    command is not run in the packages after it. *)
Theorem runCmd_in_each_package E :
  runs_in_each E (packages E) (runCmd E)
  ∧ runs_in_each E (Rev2.packages E) (Rev2.runCmd E).
Proof. split; by apply runs_in_each_loop. Qed.

(** The theorem where [sh -c "exit 3"] fails in the first package: its
    error is printed and the others are not visited. *)
Lemma runCmd_in_each_package_witness :
  runCmd failing ["sh"; "-c"; "exit 3"] Sample.unbuilt
  = (Exit 1,
     set_trace
       (λ t, t ++ [Exec "sh" ["-c"; "exit 3"] "/lz/common";
                   LogError (Text "Error: Command failed: sh -c exit 3")])
       Sample.unbuilt).
Proof.
  destruct (proj1 (runCmd_in_each_package failing) "sh" ["-c"; "exit 3"]
              Sample.unbuilt) as (_ & _ & H).
  destruct (H ltac:(done)) as [_ Hstop].
  destruct (Hstop [] (new_Pkg failing "common" no_options)
              (drop 1 (packages failing))
              (CommandFailed "sh" ["-c"; "exit 3"])
              (set_trace (λ t, t ++ [Exec "sh" ["-c"; "exit 3"] "/lz/common"])
                 Sample.unbuilt)) as [Hrun _].
  - reflexivity.
  - intros b1 p b2 Hb. by destruct b1.
  - reflexivity.
  - rewrite Hrun. reflexivity.
Defined.

Lemma report_round E pkg w :
  (let* output := run E "git" ["status"; "-sb"] (dir pkg) in
   if negb (bool_decide (output = "## main...origin/main" +:+ nl))
   then console_log (Text (name pkg +:+ ":" +:+ nl +:+ output))
   else ret ()) w
  = (match command E "git" ["status"; "-sb"] (dir pkg) with
     | Some _ => Ok ()
     | None => Throw (CommandFailed "git" ["status"; "-sb"])
     end,
     set_trace (λ t, t ++ report E pkg) w).
Proof.
  unfold run, bind, emit, modify, console_log, report. simpl.
  destruct (command E "git" _ (dir pkg)) as [output|]; simpl; [|done].
  fold level. case_bool_decide; simpl; [done|].
  unfold emit, modify. by rewrite set_trace_app.
Qed.

(** X6. [status] runs [git status -sb] in every package, in registry
    order, and prints the output of those that are not level with
    [origin/main]; when the command fails in a package, the error is
    thrown and the packages after it are not looked at.  Nothing but the
    trace changes. *)
Theorem status_reports E w :
  (Forall (λ pkg, is_Some (command E "git" ["status"; "-sb"] (dir pkg)))
     (Rev2.packages E) →
   Rev2.status E w
   = (Ok (), set_trace (λ t, t ++ (Rev2.packages E ≫= report E)) w))
  ∧ (∀ before pkg after,
       Rev2.packages E = before ++ pkg :: after →
       Forall (λ pkg, is_Some (command E "git" ["status"; "-sb"] (dir pkg))) before →
       command E "git" ["status"; "-sb"] (dir pkg) = None →
       Rev2.status E w
       = (Throw (CommandFailed "git" ["status"; "-sb"]),
          set_trace (λ t, t ++ ((before ++ [pkg]) ≫= report E)) w)).
Proof.
  split.
  - intros Hall. unfold Rev2.status. apply for_each_trace.
    eapply Forall_impl; [exact Hall|]. intros pkg [out Hout] w'. simpl.
    rewrite report_round. by rewrite Hout.
  - intros before pkg after Hl Hall Hfail. unfold Rev2.status. rewrite Hl.
    apply for_each_stops; [| |done].
    + eapply Forall_impl; [exact Hall|]. intros p [out Hout] w'. simpl.
      rewrite report_round. by rewrite Hout.
    + intros w'. rewrite report_round. by rewrite Hfail.
Qed.

(** ** Arguments that are refused *)

Lemma release_args_refuses all pairs bad rest i nv msg w :
  Forall (λ kv, kv.1 ∈ ["--version"; "-m"]) pairs →
  bad ∉ ["--version"; "-m"] →
  release_args all i (flat pairs ++ bad :: rest) nv msg w
  = (Exit 1,
     set_trace
       (λ t, t ++ [LogError (Text ("Invalid arguments to release "
                                   +:+ pretty (i + 2 * List.length pairs)%nat
                                   +:+ JS.join "," all))]) w).
Proof.
  intros Hp Hbad. revert i nv msg.
  induction pairs as [|[k v] pairs IH]; intros i nv msg.
  - simpl. rewrite !bool_decide_eq_false_2.
    + by rewrite Nat.add_0_r.
    + intros ->. apply Hbad. right. left.
    + intros ->. apply Hbad. left.
  - inversion Hp as [|? ? Hk Hp']; subst. simpl in Hk.
    change (flat ((k, v) :: pairs) ++ bad :: rest)
      with (k :: v :: (flat pairs ++ bad :: rest)).
    cbn [release_args].
    apply elem_of_cons in Hk as [->|Hk].
    + rewrite bool_decide_eq_true_2 by done. rewrite IH by done.
      by replace (i + 2 * List.length (("--version", v) :: pairs))%nat
        with (i + 2 + 2 * List.length pairs)%nat by (simpl; lia).
    + apply list_elem_of_singleton in Hk as ->.
      rewrite bool_decide_eq_false_2 by done.
      rewrite bool_decide_eq_true_2 by done. rewrite IH by done.
      by replace (i + 2 * List.length (("-m", v) :: pairs))%nat
        with (i + 2 + 2 * List.length pairs)%nat by (simpl; lia).
Qed.

Lemma release2_args_refuses all pairs bad rest nv msg w :
  Forall (λ kv, kv.1 ∈ ["--version"; "-m"]) pairs →
  bad ∉ ["--version"; "-m"] →
  Rev2.release_args all (flat pairs ++ bad :: rest) nv msg w
  = (Exit 1,
     set_trace
       (λ t, t ++ [LogError (Text ("Invalid arguments to release "
                                   +:+ JS.join "," all))]) w).
Proof.
  intros Hp Hbad. revert nv msg.
  induction pairs as [|[k v] pairs IH]; intros nv msg.
  - simpl. rewrite !bool_decide_eq_false_2; [done| |].
    + intros ->. apply Hbad. right. left.
    + intros ->. apply Hbad. left.
  - inversion Hp as [|? ? Hk Hp']; subst. simpl in Hk.
    change (flat ((k, v) :: pairs) ++ bad :: rest)
      with (k :: v :: (flat pairs ++ bad :: rest)).
    cbn [Rev2.release_args].
    apply elem_of_cons in Hk as [->|Hk].
    + rewrite bool_decide_eq_true_2 by done. by rewrite IH.
    + apply list_elem_of_singleton in Hk as ->.
      rewrite bool_decide_eq_false_2 by done.
      rewrite bool_decide_eq_true_2 by done. by rewrite IH.
Qed.

(** X7. [release] of a registered package goes through its arguments
    before it reads anything: at the first argument that is neither
    [--version] nor [-m] where an option is due, it prints "Invalid
    arguments to release" and ends the process with status 1, and nothing
    but the trace has changed.  The first revision prints the index of
    that argument and then the arguments joined by commas, with nothing
    in between; the second prints the arguments only. *)
Theorem release_refuses_arguments E pkgName pkg pairs bad rest w :
  Forall (λ kv, kv.1 ∈ ["--version"; "-m"]) pairs →
  bad ∉ ["--version"; "-m"] →
  let args := flat pairs ++ bad :: rest in
  (packageNames E !! pkgName = Some pkg →
   release E pkgName args w
   = (Exit 1,
      set_trace
        (λ t, t ++ [LogError (Text ("Invalid arguments to release "
                                    +:+ pretty (2 * List.length pairs)%nat
                                    +:+ JS.join "," args))]) w))
  ∧ (Rev2.packageNames E !! pkgName = Some pkg →
     Rev2.release E pkgName args w
     = (Exit 1,
        set_trace
          (λ t, t ++ [LogError (Text ("Invalid arguments to release "
                                      +:+ JS.join "," args))]) w)).
Proof.
  intros Hp Hbad args. split; intros Hpkg.
  - unfold release. rewrite Hpkg. unfold bind at 1. subst args.
    by rewrite release_args_refuses.
  - unfold Rev2.release. rewrite Hpkg. unfold bind at 1. subst args.
    by rewrite release2_args_refuses.
Qed.

Lemma release_refuses_arguments_witness :
  release Sample.E "common" ["-m"; "note"; "--dry-run"] Sample.releasable
  = (Exit 1,
     set_trace
       (λ t, t ++ [LogError (Text "Invalid arguments to release 2-m,note,--dry-run")])
       Sample.releasable).
Proof.
  refine (proj1 (release_refuses_arguments Sample.E "common" Sample.common
                   [("-m", "note")] "--dry-run" [] Sample.releasable _ _) _).
  - repeat constructor.
  - intros H. repeat (apply elem_of_cons in H as [H|H]; [discriminate|]).
    by apply elem_of_nil in H.
  - reflexivity.
Defined.

Lemma releaseAll_args_refuses E pairs bad rest messages w :
  Forall (λ kv, release_all_option E kv.1) pairs →
  ¬ release_all_option E bad →
  releaseAll_args E (flat pairs ++ bad :: rest) messages w
  = (Exit 1,
     set_trace (λ t, t ++ [LogError (Text "Invalid arguments to release-all")]) w).
Proof.
  intros Hp Hbad. revert messages.
  induction pairs as [|[k v] pairs IH]; intros messages.
  - simpl. rewrite bool_decide_eq_false_2.
    2:{ intros ->. apply Hbad. by left. }
    destruct (bool_decide (slice_to 2 bad = "--")
              && bool_decide (is_Some (packageNames E !! slice_from 2 bad))) eqn:Hk;
      [|done].
    exfalso. apply andb_prop in Hk as [H1 H2].
    apply bool_decide_eq_true in H1, H2. apply Hbad. right.
    exists (slice_from 2 bad). split; [|done].
    rewrite <-H1. unfold slice_to, slice_from.
    rewrite <-text_app, take_drop. by rewrite text_chars.
  - inversion Hp as [|? ? Hk Hp']; subst. simpl in Hk.
    change (flat ((k, v) :: pairs) ++ bad :: rest)
      with (k :: v :: (flat pairs ++ bad :: rest)).
    cbn [releaseAll_args].
    destruct Hk as [->|(n & -> & Hn)].
    + rewrite bool_decide_eq_true_2 by done. by rewrite IH.
    + case_bool_decide; [by rewrite IH|].
      assert (slice_to 2 ("--" +:+ n) = "--") as -> by done.
      assert (slice_from 2 ("--" +:+ n) = n) as ->.
      { unfold slice_from. rewrite chars_app. simpl. apply text_chars. }
      rewrite bool_decide_eq_true_2 by done.
      rewrite bool_decide_eq_true_2 by done. simpl. by rewrite IH.
Qed.

(** X8. [release-all] goes through its arguments before it reads or
    writes anything: at the first argument that is neither [--grammar]
    nor [--] and the name of a registered package where an option is due,
    it prints "Invalid arguments to release-all" and ends the process with
    status 1, and nothing but the trace has changed. *)
Theorem releaseAll_refuses_arguments E pairs bad rest w :
  Forall (λ kv, release_all_option E kv.1) pairs →
  ¬ release_all_option E bad →
  releaseAll E (flat pairs ++ bad :: rest) w
  = (Exit 1,
     set_trace (λ t, t ++ [LogError (Text "Invalid arguments to release-all")]) w).
Proof.
  intros Hp Hbad. unfold releaseAll, bind at 1.
  by rewrite releaseAll_args_refuses.
Qed.

Lemma releaseAll_refuses_arguments_witness :
  releaseAll Sample.E ["--common"; "FIX: a note"; "--nothing"; "x"] Sample.releasable
  = (Exit 1,
     set_trace (λ t, t ++ [LogError (Text "Invalid arguments to release-all")])
       Sample.releasable).
Proof.
  apply (releaseAll_refuses_arguments Sample.E [("--common", "FIX: a note")]
           "--nothing" ["x"]).
  - constructor; [|constructor]. right. exists "common". split; [done|].
    apply (bool_decide_unpack _). by vm_compute.
  - intros [H|(n & H & Hn)]; [discriminate|].
    change ("--" +:+ n) with (String "-" (String "-" n)) in H.
    injection H as <-. apply (bool_decide_pack _) in Hn. by vm_compute in Hn.
Defined.

(** ** A release that fails half-way *)

(** X9. [doRelease] rewrites the manifest before it reads the changelog.
    When the manifest is missing it throws with nothing done.  When the
    manifest is there and [CHANGELOG.md] is missing, it throws for the
    changelog after the manifest has got the new version: that write is
    all it has done, no git command has run, and the manifest stays
    rewritten. *)
Theorem doRelease_not_atomic E pkg changes V w :
  let manifest_ := path_join (dir pkg) "package.json" in
  let log := path_join (dir pkg) "CHANGELOG.md" in
  (files w !! manifest_ = None →
   doRelease E pkg changes V w = (Throw (ENOENT manifest_), w))
  ∧ (∀ m, files w !! manifest_ = Some m → files w !! log = None →
       let rewritten :=
         replace_first Pat.version
           (dq +:+ "version" +:+ dq +:+ ": " +:+ dq +:+ V +:+ dq) (data m) in
       (doRelease E pkg changes V w).1 = Throw (ENOENT log)
       ∧ performed (doRelease E pkg changes V) w = [WriteFile manifest_ rewritten]
       ∧ files (doRelease E pkg changes V w).2 !! manifest_
         = Some {| data := rewritten; mtimeMs := now w |}).
Proof.
  intros manifest_ log. split.
  - intros Hm. unfold doRelease, setModuleVersion, readFile, stat, bind.
    fold manifest_. by rewrite Hm.
  - intros m Hm Hl rewritten.
    assert (manifest_ ≠ log) as Hne by (by apply path_join_ne).
    assert (doRelease E pkg changes V w
            = (Throw (ENOENT log),
               set_dirs (alter (add_entry (basename manifest_)) (dirname manifest_))
                 (set_files (<[manifest_ := {| data := rewritten; mtimeMs := now w |}]>)
                    (set_trace (λ t, t ++ [WriteFile manifest_ rewritten]) w)))) as Hrun.
    { unfold doRelease, setModuleVersion, readFile, stat, writeFile, bind,
        emit, modify. fold manifest_ log. rewrite Hm. simpl.
      rewrite lookup_insert_ne by done. by rewrite Hl. }
    split; [by rewrite Hrun|]. split.
    + apply performed_app. by rewrite Hrun.
    + rewrite Hrun. simpl. by rewrite lookup_insert_eq.
Qed.

(** ** The pending work of the watcher *)

Lemma scheduler_eta (s : scheduler) :
  {| watcher := watcher s; timers := timers s; running := running s;
     stuck := stuck s; history := history s |} = s.
Proof. by destruct s. Qed.

Lemma NoDup_Watcher_run s :
  NoDup (work (watcher s)) → NoDup (work (watcher (Watcher_run s))).
Proof.
  intros H. unfold Watcher_run.
  destruct (work (watcher s)) as [|x l] eqn:Hw; simpl; [by rewrite Hw|].
  destruct (next_work _ _) as [[p work']|] eqn:Hn; simpl; [|by rewrite Hw].
  destruct (next_work_first _ _ _ _ Hn) as (i & k & _ & _ & -> & _).
  eapply sublist_NoDup; [exact H|apply sublist_delete].
Qed.

Lemma NoDup_step s e :
  NoDup (work (watcher s)) → NoDup (work (watcher (step s e))).
Proof.
  intros H. unfold step. destruct (stuck s); [done|].
  destruct e as [pkg| |ok].
  - case_bool_decide; [|done]. unfold Watcher_trigger.
    rewrite includes_work. case_bool_decide as Hin; simpl; [done|].
    apply NoDup_app. split; [done|]. split; [|apply NoDup_singleton].
    intros x Hx ->%list_elem_of_singleton. done.
  - destruct (timers s); [done|]. unfold Watcher_startWork. simpl.
    destruct (working (watcher s)); [done|]. by apply NoDup_Watcher_run.
  - destruct (running s); [|done].
    destruct ok; [by apply NoDup_Watcher_run|done].
Qed.

Lemma NoDup_steps s es :
  NoDup (work (watcher s)) → NoDup (work (watcher (steps s es))).
Proof.
  revert s. induction es as [|e es IH]; intros s H; simpl; [done|].
  by apply IH, NoDup_step.
Qed.

Lemma step_pending s p : p ∈ work (watcher s) → step s (Changed p) = s.
Proof.
  intros Hp. unfold step. destruct (stuck s) eqn:Hs; [done|].
  case_bool_decide; [|done]. unfold Watcher_trigger.
  rewrite includes_work, bool_decide_eq_true_2 by done. simpl.
  rewrite <-Hs. apply scheduler_eta.
Qed.

(** X10. The pending work of the watcher, from a new watcher and after any
    events: no package is pending twice, and the change of a package
    that is pending changes nothing: it is not queued again and no timer
    is set for it. *)
Theorem pending_work_is_a_set registry opts es :
  let s := steps (fresh_scheduler registry opts) es in
  NoDup (work (watcher s))
  ∧ ∀ p, p ∈ work (watcher s) → step s (Changed p) = s.
Proof.
  intros s. split.
  - apply NoDup_steps. simpl. constructor.
  - intros p. apply step_pending.
Qed.

Lemma idle_step s pending e :
  running s = None → timers s = O →
  (∀ q, q ∈ pending → q ∈ work (watcher s)) →
  idle pending e → step s e = s.
Proof.
  intros Hr Ht Hp [->|[[ok ->]|(q & -> & Hq)]].
  - unfold step. rewrite Ht. by destruct (stuck s).
  - unfold step. rewrite Hr. by destruct (stuck s).
  - by apply step_pending, Hp.
Qed.

Lemma idle_steps s pending es :
  running s = None → timers s = O →
  (∀ q, q ∈ pending → q ∈ work (watcher s)) →
  Forall (idle pending) es → steps s es = s.
Proof.
  intros Hr Ht Hp. induction 1 as [|e es He _ IH]; simpl; [done|].
  by rewrite (idle_step s pending e).
Qed.

(** X11. A rebuild that fails ends the drain and leaves the rest of the
    work where it is: with no timer set, [working] is cleared, the
    packages that were pending stay pending, and nothing is started by
    later timers or by changes of those packages, whatever their number.
    Only the change of a package that is not pending sets the watcher
    going again. *)
Theorem failed_rebuild_strands_work registry opts es p :
  let s := steps (fresh_scheduler registry opts) es in
  running s = Some p → timers s = O →
  let s' := step s (Settled false) in
  working (watcher s') = false
  ∧ running s' = None
  ∧ work (watcher s') = work (watcher s)
  ∧ history s' = history s ++ [Finished p false]
  ∧ ∀ es', Forall (idle (work (watcher s))) es' → steps s' es' = s'.
Proof.
  intros s Hr Ht s'.
  assert (Inv registry s) as (_ & Hs & _) by apply Inv_steps, Inv_init.
  assert (s' = set_working false
                 {| watcher := watcher s; timers := timers s; running := None;
                    stuck := stuck s; history := history s ++ [Finished p false] |})
    as Hs'.
  { unfold s', step. by rewrite Hs, Hr. }
  rewrite Hs'. simpl. repeat split; try done.
  intros es' Hes. by eapply idle_steps.
Qed.

Lemma failed_rebuild_strands_work_witness :
  let registry := [Sample.common; Sample.lr] in
  let s := steps (fresh_scheduler registry Sample.only_cjs)
             [Changed Sample.lr; Changed Sample.common; Timeout; Timeout] in
  (running s = Some Sample.common ∧ timers s = O ∧ work (watcher s) = [Sample.lr])
  ∧ steps (step s (Settled false)) [Changed Sample.lr; Timeout; Changed Sample.lr]
    = step s (Settled false).
Proof.
  intros registry s.
  assert (running s = Some Sample.common) as Hr by by vm_compute.
  assert (timers s = O) as Ht by by vm_compute.
  assert (work (watcher s) = [Sample.lr]) as Hw by by vm_compute.
  split; [done|].
  apply (failed_rebuild_strands_work registry Sample.only_cjs
           [Changed Sample.lr; Changed Sample.common; Timeout; Timeout]
           Sample.common Hr Ht).
  fold s. rewrite Hw.
  constructor; [right; right; eexists; split; [done|left]|].
  constructor; [by left|].
  constructor; [right; right; eexists; split; [done|left]|].
  constructor.
Defined.

Lemma filter_ext_in {A} (P Q : A → Prop) `{∀ x, Decision (P x)}
    `{∀ x, Decision (Q x)} (l : list A) :
  (∀ x, x ∈ l → P x ↔ Q x) → filter P l = filter Q l.
Proof.
  induction l as [|x l IH]; intros Hl; [done|].
  assert (filter P l = filter Q l) as Hf.
  { apply IH. intros y Hy. apply Hl. by right. }
  destruct (decide (P x)) as [Hx|Hx].
  - rewrite !filter_cons_True; [by rewrite Hf| |done]. apply Hl; [left|done].
  - rewrite !filter_cons_False; [done| |done]. intros HQ. apply Hx, Hl; [left|done].
Qed.

Lemma elem_of_delete_NoDup (l : list Pkg) k x y :
  NoDup l → l !! k = Some x → y ∈ delete k l ↔ y ∈ l ∧ y ≠ x.
Proof.
  intros Hnd Hk.
  rewrite <-(take_drop_middle l k x Hk) in Hnd.
  apply NoDup_app in Hnd as (_ & Hx & Hnd). apply NoDup_cons in Hnd as [Hx' _].
  rewrite delete_take_drop.
  rewrite <-(take_drop_middle l k x Hk) at 3.
  rewrite !elem_of_app, elem_of_cons. split.
  - intros [Hy|Hy]; (split; [tauto|]); intros ->.
    + apply (Hx x Hy). left.
    + done.
  - intros [[Hy|[->|Hy]] Hne]; tauto.
Qed.

Lemma next_work_in_order registry W q W' :
  NoDup registry → NoDup W →
  next_work registry W = Some (q, W') →
  in_order registry W = q :: in_order registry W'.
Proof.
  unfold in_order. intros Hr HW. induction registry as [|x rest IH]; [done|].
  apply NoDup_cons in Hr as [Hx Hr]. simpl.
  destruct (indexOf W x) as [k|] eqn:Hk.
  - intros [= <- <-]. apply indexOf_lookup in Hk.
    assert (x ∈ W) as Hin by (by eapply list_elem_of_lookup_2).
    rewrite filter_cons_True by done.
    rewrite filter_cons_False.
    2:{ intros H. apply (elem_of_delete_NoDup W k x x HW Hk) in H. tauto. }
    f_equal. apply filter_ext_in. intros y Hy.
    rewrite (elem_of_delete_NoDup W k x y HW Hk).
    split; [|tauto]. intros HyW. split; [done|]. by intros ->.
  - intros Hn. apply indexOf_None in Hk.
    rewrite filter_cons_False by done.
    rewrite filter_cons_False; [by apply IH|].
    intros H. apply Hk. eapply next_work_sub; [exact Hn|exact H].
Qed.

Lemma in_order_nil registry : in_order registry [] = [].
Proof.
  unfold in_order. induction registry as [|x rest IH]; [done|].
  rewrite filter_cons_False; [done|]. apply not_elem_of_nil.
Qed.

Lemma drain registry n :
  NoDup registry →
  ∀ s p, Inv registry s → NoDup (work (watcher s)) → running s = Some p →
    List.length (work (watcher s)) = n →
    let s' := steps s (replicate (S n) (Settled true)) in
    history s'
    = history s ++ Finished p true :: (in_order registry (work (watcher s)) ≫= rebuilt)
    ∧ work (watcher s') = [] ∧ working (watcher s') = false ∧ running s' = None.
Proof.
  intros Hreg. induction n as [|n IH]; intros s p HI Hnd Hr Hlen.
  - destruct (work (watcher s)) as [|? ?] eqn:Hw; [|done].
    destruct HI as (_ & Hs & _). simpl. unfold step. rewrite Hs, Hr.
    unfold Watcher_run. simpl. rewrite Hw. simpl.
    by rewrite in_order_nil, Hw.
  - pose proof HI as (Hp & Hs & Hsub & _).
    destruct (work (watcher s)) as [|x l] eqn:Hw; [done|].
    destruct (next_work_Some registry (x :: l) x) as [[q W'] Hn];
      [left|apply Hsub; left|].
    pose proof (next_work_first _ _ _ _ Hn) as (i & k & _ & Hk & HW' & _).
    change (replicate (S (S n)) (Settled true))
      with (Settled true :: replicate (S n) (Settled true)).
    cbn [steps foldl]. fold (steps (step s (Settled true)) (replicate (S n) (Settled true))).
    assert (step s (Settled true)
            = {| watcher := {| pkgs := pkgs (watcher s);
                               w_options := w_options (watcher s);
                               work := W'; working := working (watcher s) |};
                 timers := timers s; running := Some q; stuck := stuck s;
                 history := (history s ++ [Finished p true]) ++ [Started q] |})
      as Hstep.
    { unfold step. rewrite Hs, Hr. unfold Watcher_run. simpl.
      by rewrite Hw, Hp, Hn. }
    assert (Inv registry (step s (Settled true))) as HI'
        by (by apply step_shape).
    rewrite Hstep in HI' |- *.
    edestruct (IH _ q HI') as (Hh & Hrest).
    + simpl. rewrite HW'. eapply sublist_NoDup; [exact Hnd|apply sublist_delete].
    + done.
    + simpl. rewrite HW', length_delete.
      * simpl in Hlen. simpl. lia.
      * apply indexOf_lookup in Hk. eauto.
    + split; [|exact Hrest].
      rewrite Hh. simpl.
      rewrite (next_work_in_order registry (x :: l) q W') by done.
      rewrite bind_cons. simpl. by rewrite <-!app_assoc.
Qed.

(** X12. A drain runs to the end when every rebuild succeeds and nothing
    else happens: from any state in which a rebuild runs, as many
    successes as there are pending packages, and one for the rebuild
    that runs, rebuild every pending package once, in the order of the
    registry, and leave the watcher with nothing pending and [working]
    cleared. *)
Theorem drain_rebuilds_all_pending registry opts es p :
  NoDup registry →
  let s := steps (fresh_scheduler registry opts) es in
  running s = Some p →
  let s' := steps s (replicate (S (List.length (work (watcher s)))) (Settled true)) in
  history s'
  = history s ++ Finished p true :: (in_order registry (work (watcher s)) ≫= rebuilt)
  ∧ in_order registry (work (watcher s)) ≡ₚ work (watcher s)
  ∧ work (watcher s') = [] ∧ working (watcher s') = false ∧ running s' = None.
Proof.
  intros Hreg s Hr s'.
  assert (Inv registry s) as HI by apply Inv_steps, Inv_init.
  assert (NoDup (work (watcher s))) as Hnd by (apply NoDup_steps; constructor).
  destruct (drain registry _ Hreg s p HI Hnd Hr eq_refl) as (Hh & Hrest).
  split; [exact Hh|]. split; [|exact Hrest].
  apply NoDup_Permutation; [by apply NoDup_filter|done|].
  intros q. unfold in_order. rewrite list_elem_of_filter.
  destruct HI as (_ & _ & Hsub & _). split; [tauto|]. intros Hq. split; [done|].
  by apply Hsub.
Qed.

Lemma drain_rebuilds_all_pending_witness :
  let registry := [Sample.common; Sample.lr] in
  let s := steps (fresh_scheduler registry Sample.only_cjs)
             [Changed Sample.lr; Changed Sample.common; Timeout] in
  (NoDup registry ∧ running s = Some Sample.common
   ∧ work (watcher s) = [Sample.lr])
  ∧ history (steps s [Settled true; Settled true])
    = [Started Sample.common; Finished Sample.common true;
       Started Sample.lr; Finished Sample.lr true].
Proof.
  intros registry s.
  assert (NoDup registry) as Hreg by (apply (bool_decide_unpack _); by vm_compute).
  assert (running s = Some Sample.common) as Hr by by vm_compute.
  split; [by repeat split; try by vm_compute|].
  exact (proj1 (drain_rebuilds_all_pending registry Sample.only_cjs
                  [Changed Sample.lr; Changed Sample.common; Timeout]
                  Sample.common Hreg Hr)).
Defined.

(** ** Patterns and the texts they match *)

Lemma same_eq c d : same c d = true ↔ c = d.
Proof. unfold same. apply bool_decide_eq_true. Qed.

Lemma strip_Some lit s s' : strip lit s = Some s' ↔ s = lit ++ s'.
Proof.
  revert s. induction lit as [|a lit IH]; intros s; simpl.
  - split; [by intros [= ->]|by intros ->].
  - destruct s as [|b s]; [done|].
    destruct (same a b) eqn:Hab.
    + apply same_eq in Hab as ->. rewrite IH. split; [by intros ->|by intros [= ->]].
    + split; [done|]. intros [= -> _]. unfold same in Hab.
      by rewrite bool_decide_eq_true_2 in Hab.
Qed.

Lemma strip_app lit s : strip lit (lit ++ s) = Some s.
Proof. by apply strip_Some. Qed.

(** Where [search] finds a match: at the first index at which the
    pattern matches. *)
Lemma search_found r i s j m :
  search r i s = Some (j, m) →
  ∃ pre post, s = pre ++ post ∧ j = (i + List.length pre)%nat
    ∧ match_at r j post = Some m
    ∧ ∀ pre1 post1, s = pre1 ++ post1 →
        (List.length pre1 < List.length pre)%nat →
        match_at r (i + List.length pre1) post1 = None.
Proof.
  revert i. induction s as [|c s IH]; intros i; simpl.
  - destruct (match_at r i []) as [m'|] eqn:Hm; [|done].
    intros [= <- <-]. exists [], []. rewrite Nat.add_0_r.
    repeat split; try done. simpl. intros; lia.
  - destruct (match_at r i (c :: s)) as [m'|] eqn:Hm.
    + intros [= <- <-]. exists [], (c :: s). rewrite Nat.add_0_r.
      repeat split; try done. simpl. intros; lia.
    + intros H. destruct (IH _ H) as (pre & post & -> & -> & Hj & Hmin).
      exists (c :: pre), post. simpl. rewrite <-Nat.add_succ_comm.
      repeat split; try done.
      intros [|c1 pre1] post1; simpl.
      * intros <- _. by rewrite Nat.add_0_r.
      * intros [= <- Hs] Hlt. rewrite <-Nat.add_succ_comm.
        apply Hmin; [done|lia].
Qed.

Lemma search_at r i pre post m :
  match_at r (i + List.length pre) post = Some m →
  (∀ pre1 post1, pre ++ post = pre1 ++ post1 →
     (List.length pre1 < List.length pre)%nat →
     match_at r (i + List.length pre1) post1 = None) →
  search r i (pre ++ post) = Some ((i + List.length pre)%nat, m).
Proof.
  revert i. induction pre as [|c pre IH]; intros i Hm Hmin.
  - simpl in *. rewrite Nat.add_0_r in *.
    destruct post; simpl; by rewrite Hm.
  - assert (match_at r i (c :: pre ++ post) = None) as H0.
    { rewrite <-(Nat.add_0_r i). apply (Hmin [] (c :: pre ++ post)); [done|].
      simpl. lia. }
    simpl. rewrite H0.
    rewrite <-Nat.add_succ_comm. apply IH.
    + by rewrite Nat.add_succ_comm.
    + intros pre1 post1 Hs Hlt. rewrite Nat.add_succ_comm.
      apply (Hmin (c :: pre1) post1); [simpl; by f_equal|simpl; lia].
Qed.

Lemma search_missed r i s :
  search r i s = None →
  ∀ pre post, s = pre ++ post → match_at r (i + List.length pre) post = None.
Proof.
  revert i. induction s as [|c s IH]; intros i; simpl.
  - destruct (match_at r i []) eqn:Hm; [done|]. intros _ pre post Hs.
    symmetry in Hs. apply app_eq_nil in Hs as [-> ->]. simpl.
    by rewrite Nat.add_0_r.
  - destruct (match_at r i (c :: s)) eqn:Hm; [done|]. intros H [|c1 pre] post; simpl.
    + intros <-. by rewrite Nat.add_0_r.
    + intros [= <- Hs]. rewrite <-Nat.add_succ_comm. by apply IH.
Qed.

Lemma test_true r s :
  test r s = true
  ↔ ∃ pre post, chars s = pre ++ post ∧ is_Some (match_at r (List.length pre) post).
Proof.
  unfold test. rewrite bool_decide_eq_true. split.
  - intros [[j m] H].
    destruct (search_found _ _ _ _ _ H) as (pre & post & Hs & -> & Hm & _).
    exists pre, post. split; [done|]. simpl in Hm. eauto.
  - intros (pre & post & Hs & m & Hm).
    destruct (search r 0 (chars s)) as [x|] eqn:Hx; [eauto|].
    pose proof (search_missed _ _ _ Hx pre post Hs) as Hn. simpl in Hn.
    rewrite Hn in Hm. done.
Qed.

(** [/lit$/] is found in the texts that end with [lit]. *)
Lemma test_ends_with (l s : string) :
  test (Pat.seqs [Lit l; Eol]) s = true ↔ chars l `suffix_of` chars s.
Proof.
  rewrite test_true. split.
  - intros (pre & post & Hs & m & Hm). exists pre. rewrite Hs. f_equal.
    unfold match_at in Hm. simpl in Hm.
    destruct (strip (chars l) post) as [s'|] eqn:Hl; [|done].
    apply strip_Some in Hl. destruct s'; [|done]. by rewrite app_nil_r in Hl.
  - intros [pre Hs]. exists pre, (chars l). split; [done|].
    unfold match_at. simpl.
    rewrite <-(app_nil_r (chars l)) at 2. rewrite strip_app. eauto.
Qed.

(** [/^\.?\//] is found in the texts that start with [/] or [./]. *)
Lemma test_relative (s : string) :
  test Pat.relative s = true
  ↔ chars "/" `prefix_of` chars s ∨ chars "./" `prefix_of` chars s.
Proof.
  rewrite test_true. split.
  - intros (pre & post & Hs & m & Hm). unfold match_at in Hm. simpl in Hm.
    destruct pre as [|c pre]; [|done]. simpl in Hs. rewrite Hs.
    destruct post as [|c1 post]; [done|]. simpl in Hm.
    destruct (same _ c1) eqn:H1.
    + apply same_eq in H1 as <-.
      destruct post as [|c2 post]; [done|]. simpl in Hm.
      destruct (same _ c2) eqn:H2.
      * apply same_eq in H2 as <-. right. by exists post.
      * done.
    + destruct (same "/"%char c1) eqn:H2; [|done].
      apply same_eq in H2 as <-. left. by exists post.
  - intros [[post Hs]|[post Hs]]; exists [], (chars s); (split; [done|]);
      rewrite Hs; unfold match_at; simpl; eauto.
Qed.

(** X13. The [external] test of a configuration, in both revisions: a
    module is left out of the bundle unless it is [tslib] or its name
    starts with [/] or [./].  A name that starts with [../] is left
    out. *)
Theorem external_modules E this opts (id : string) :
  (external (rollup_config E this opts) id = true
   ↔ id ≠ "tslib"
     ∧ ¬ (chars "/" `prefix_of` chars id ∨ chars "./" `prefix_of` chars id))
  ∧ (external (Rev2.rollup_config this opts) id
     = external (rollup_config E this opts) id)
  ∧ (∀ rest, external (rollup_config E this opts) ("../" +:+ rest) = true).
Proof.
  assert (external (rollup_config E this opts) id = true
          ↔ id ≠ "tslib"
            ∧ ¬ (chars "/" `prefix_of` chars id ∨ chars "./" `prefix_of` chars id))
    as H.
  { pose proof (test_relative id) as Hrel.
    cbn [external rollup_config].
    rewrite andb_true_iff, !negb_true_iff, bool_decide_eq_false, <-Hrel.
    destruct (test Pat.relative id); intuition congruence. }
  split; [exact H|]. split; [done|].
  intros rest. cbn [external rollup_config]. apply andb_true_iff. split.
  - apply negb_true_iff, bool_decide_eq_false. intros Hr.
    apply (f_equal chars) in Hr. rewrite chars_app in Hr. discriminate.
  - apply negb_true_iff. destruct (test Pat.relative _) eqn:Ht; [|done].
    apply test_relative in Ht. rewrite chars_app in Ht.
    destruct Ht as [[k Hk]|[k Hk]]; discriminate.
Qed.

(** X14. [sources] lists the entries of [src] whose name ends in [.ts], in
    the order of the directory and with the path of [src] before them,
    and throws when there is no [src].  [declarations] does the same for
    the entries of [dist] that end in [.d.ts], and is empty, and does not
    throw, when there is no [dist]. *)
Theorem sources_and_declarations (this : Pkg) (w : world) :
  let src := path_join (dir this) "src" in
  let dist := path_join (dir this) "dist" in
  sources this w
  = match dirs w !! src with
    | Some entries =>
        (Ok (path_join src
               <$> filter (λ file, chars ".ts" `suffix_of` chars file) entries), w)
    | None => (Throw (ENOENT src), w)
    end
  ∧ (∀ entries, dirs w !! dist = Some entries →
       declarations this w
       = (Ok (path_join dist
                <$> filter (λ file, chars ".d.ts" `suffix_of` chars file) entries), w))
  ∧ (dirs w !! dist = None → files w !! dist = None →
     declarations this w = (Ok [], w)).
Proof.
  intros src dist. split; [|split].
  - unfold sources, bind, readdir. fold src.
    destruct (dirs w !! src) as [entries|]; [|done].
    unfold ret. do 3 f_equal. apply filter_ext_in. intros file _.
    apply test_ends_with.
  - intros entries He. unfold declarations, bind, exists_, gets, readdir.
    fold dist. rewrite He. simpl. rewrite He.
    unfold ret. do 3 f_equal. apply filter_ext_in. intros file _.
    apply test_ends_with.
  - intros Hd Hf. unfold declarations, bind, exists_, gets. fold dist.
    by rewrite Hd, Hf.
Qed.

(** ** The manifests during [install] *)

Lemma match_at_Lit l i s :
  match_at (Lit l) i s
  = (λ s', {| stop := (i + String.length l)%nat; rest := s'; groups := [] |})
      <$> strip (chars l) s.
Proof. unfold match_at. simpl. by destruct (strip (chars l) s). Qed.

(** A literal, replaced where it first occurs by a text without [$]. *)
Lemma replace_first_Lit l by_ s :
  (∀ matched before after gs,
     substitution (chars by_) matched before after gs = chars by_) →
  replace_first (Lit l) by_ s
  = match search (Lit l) 0 (chars s) with
    | Some (i, m) => text (take i (chars s) ++ chars by_ ++ rest m)
    | None => s
    end.
Proof.
  intros Hby. unfold replace_first.
  destruct (search (Lit l) 0 (chars s)) as [[i m]|]; [|done].
  by rewrite Hby.
Qed.

Lemma search_Lit_found l s i m :
  search (Lit l) 0 s = Some (i, m) →
  s = take i s ++ chars l ++ rest m
  ∧ ∀ pre1 post1, s = pre1 ++ post1 → (List.length pre1 < i)%nat →
      strip (chars l) post1 = None.
Proof.
  intros H. destruct (search_found _ _ _ _ _ H) as (pre & post & -> & -> & Hm & Hmin).
  simpl in *. rewrite match_at_Lit in Hm.
  destruct (strip (chars l) post) as [s'|] eqn:Hs; [|done].
  injection Hm as <-. apply strip_Some in Hs as ->. simpl.
  rewrite take_app_length. split; [done|].
  intros pre1 post1 Hs Hlt. specialize (Hmin pre1 post1 Hs Hlt).
  rewrite match_at_Lit in Hmin. by destruct (strip (chars l) post1).
Qed.

Lemma search_Lit_missed l s :
  search (Lit l) 0 s = None →
  ∀ pre post, s = pre ++ post → strip (chars l) post = None.
Proof.
  intros H pre post Hs. pose proof (search_missed _ _ _ H pre post Hs) as Hm.
  rewrite match_at_Lit in Hm. by destruct (strip (chars l) post).
Qed.

Lemma test_Lit_false l s :
  test (Lit l) s = false ↔ ∀ pre post, chars s = pre ++ post → strip (chars l) post = None.
Proof.
  split.
  - intros Ht pre post Hs. destruct (strip (chars l) post) as [r|] eqn:Hr; [|done].
    assert (test (Lit l) s = true) as Ht'; [|congruence].
    apply test_true. exists pre, post. split; [done|].
    rewrite match_at_Lit, Hr. eauto.
  - intros H. destruct (test (Lit l) s) eqn:Ht; [|done].
    apply test_true in Ht as (pre & post & Hs & m & Hm).
    rewrite match_at_Lit, (H pre post Hs) in Hm. done.
Qed.

Lemma app_split_before {A} (pre X pre1 post1 : list A) :
  pre ++ X = pre1 ++ post1 → (List.length pre1 < List.length pre)%nat →
  ∃ u, u ≠ [] ∧ pre = pre1 ++ u ∧ post1 = u ++ X.
Proof.
  revert pre. induction pre1 as [|c pre1 IH]; intros pre Heq Hlt; simpl in *.
  - exists pre. split; [|done]. intros ->. simpl in Hlt. lia.
  - destruct pre as [|c' pre]; [simpl in Hlt; lia|].
    simpl in *. injection Heq as -> Heq.
    destruct (IH pre Heq) as (u & Hu & -> & ->); [lia|]. by exists u.
Qed.

(** Where the longer key is found across the place of the shorter one,
    it was there before. *)
Lemma prepare_overlap (u after : list ascii) :
  u ≠ [] →
  is_Some (strip (chars (dq +:+ "prepareDISABLED" +:+ dq))
             (u ++ chars (dq +:+ "prepareDISABLED" +:+ dq) ++ after)) →
  is_Some (strip (chars (dq +:+ "prepareDISABLED" +:+ dq))
             (u ++ chars (dq +:+ "prepare" +:+ dq) ++ after)).
Proof.
  intros Hu [r Hr]. revert Hr.
  change (chars (dq +:+ "prepareDISABLED" +:+ dq))
    with (DQ :: chars "prepareDISABLED" ++ [DQ]).
  change (chars (dq +:+ "prepare" +:+ dq)) with (DQ :: chars "prepare" ++ [DQ]).
  destruct u as [|c0 u]; [done|]. clear Hu. simpl.
  destruct (same _ c0); [|done].
  do 16 (destruct u as [|? u]; simpl;
         [try done; eauto|destruct (same _ _); [|done]]).
  eauto.
Qed.

Lemma enable_after_disable (json : string) :
  test Pat.prepareDISABLED json = false →
  Rev2.enable_prepare (Rev2.disable_prepare json) = json.
Proof.
  intros Hno. unfold Rev2.enable_prepare, Rev2.disable_prepare.
  unfold Pat.prepare, Pat.prepareDISABLED in *.
  rewrite !replace_first_Lit by reflexivity.
  pose proof (proj1 (test_Lit_false _ _) Hno) as Habsent.
  destruct (search (Lit (dq +:+ "prepare" +:+ dq)) 0 (chars json))
    as [[i m]|] eqn:Hs.
  - destruct (search_Lit_found _ _ _ _ Hs) as (Hjson & Hmin).
    rewrite chars_text.
    rewrite (search_at (Lit (dq +:+ "prepareDISABLED" +:+ dq)) 0
               (take i (chars json))
               (chars (dq +:+ "prepareDISABLED" +:+ dq) ++ rest m)
               {| stop := (0 + List.length (take i (chars json))
                           + String.length (dq +:+ "prepareDISABLED" +:+ dq))%nat;
                  rest := rest m; groups := [] |}).
    + simpl. rewrite take_app_length.
      etrans; [|apply text_chars]. f_equal. symmetry. exact Hjson.
    + by rewrite match_at_Lit, strip_app.
    + intros pre1 post1 Heq Hlt. rewrite match_at_Lit.
      destruct (strip _ post1) as [r|] eqn:Hr; [|done]. exfalso.
      destruct (app_split_before _ _ _ _ Heq Hlt) as (u & Hu & Hpre & ->).
      destruct (prepare_overlap u (rest m) Hu) as [r' Hr']; [eauto|].
      rewrite (Habsent pre1 (u ++ chars (dq +:+ "prepare" +:+ dq) ++ rest m)) in Hr';
        [done|].
      rewrite Hjson, Hpre at 1. by rewrite <-app_assoc.
  - destruct (search (Lit (dq +:+ "prepareDISABLED" +:+ dq)) 0 (chars json))
      as [[i m]|] eqn:Hs2; [|done].
    destruct (search_Lit_found _ _ _ _ Hs2) as (Hjson & _).
    pose proof (Habsent _ _ Hjson) as Hn. by rewrite strip_app in Hn.
Qed.

(** X15. The two rewritings of [install] undo each other on a manifest in
    which the key ["prepareDISABLED"] does not occur: the first occurrence
    of ["prepare"], if there is one, is disabled and then restored.  On a
    manifest that has the key ["prepareDISABLED"] before ["prepare"] they
    do not: the key that was disabled stays disabled and the other one
    is enabled. *)
Theorem prepare_round_trip :
  (∀ json : string,
     test Pat.prepareDISABLED json = false →
     Rev2.enable_prepare (Rev2.disable_prepare json) = json)
  ∧ Rev2.enable_prepare
      (Rev2.disable_prepare
         (dq +:+ "prepareDISABLED" +:+ dq +:+ ", " +:+ dq +:+ "prepare" +:+ dq))
    = dq +:+ "prepare" +:+ dq +:+ ", " +:+ dq +:+ "prepareDISABLED" +:+ dq.
Proof. split; [apply enable_after_disable|by vm_compute]. Qed.

Lemma prepare_round_trip_witness :
  let json := "{" +:+ dq +:+ "scripts" +:+ dq +:+ ": {" +:+ dq +:+ "prepare" +:+ dq
              +:+ ": " +:+ dq +:+ "rollup -c" +:+ dq +:+ "}}" in
  test Pat.prepareDISABLED json = false
  ∧ Rev2.disable_prepare json
    = "{" +:+ dq +:+ "scripts" +:+ dq +:+ ": {" +:+ dq +:+ "prepareDISABLED" +:+ dq
      +:+ ": " +:+ dq +:+ "rollup -c" +:+ dq +:+ "}}"
  ∧ Rev2.enable_prepare (Rev2.disable_prepare json) = json.
Proof.
  intros json.
  assert (test Pat.prepareDISABLED json = false) as H by by vm_compute.
  split; [exact H|]. split; [by vm_compute|].
  exact (proj1 prepare_round_trip json H).
Defined.

(** One round of [updatePackageFiles]. *)
Lemma update_round (f : string → string) (pkg : Pkg) (m : File) w :
  files w !! manifest_of pkg = Some m →
  (let* old := readFile (path_join (dir pkg) "package.json") in
   writeFile (path_join (dir pkg) "package.json") (f old)) w
  = (Ok (),
     set_dirs (alter (add_entry (basename (manifest_of pkg))) (dirname (manifest_of pkg)))
       (set_files (<[manifest_of pkg := {| data := f (data m); mtimeMs := now w |}]>)
          (set_trace (λ t, t ++ [WriteFile (manifest_of pkg) (f (data m))]) w))).
Proof.
  intros Hm. unfold readFile, stat, writeFile, bind, emit, modify.
  fold (manifest_of pkg). by rewrite Hm.
Qed.

Lemma update_loop (f : string → string) (l : list Pkg) w :
  NoDup (manifest_of <$> l) →
  (∀ pkg, pkg ∈ l → is_Some (files w !! manifest_of pkg)) →
  ∃ w',
    for_each l (λ pkg,
      let* old := readFile (path_join (dir pkg) "package.json") in
      writeFile (path_join (dir pkg) "package.json") (f old)) w = (Ok (), w')
    ∧ now w' = now w
    ∧ (∀ pkg m, pkg ∈ l → files w !! manifest_of pkg = Some m →
         files w' !! manifest_of pkg
         = Some {| data := f (data m); mtimeMs := now w |})
    ∧ (∀ path, path ∉ manifest_of <$> l → files w' !! path = files w !! path).
Proof.
  revert w. induction l as [|x l IH]; intros w Hnd Hall.
  - exists w. repeat split; try done. by intros pkg m ?%elem_of_nil.
  - rewrite fmap_cons in Hnd. apply NoDup_cons in Hnd as [Hx Hnd].
    destruct (Hall x) as [mx Hmx]; [left|].
    cbn [for_each]. unfold bind at 1. cbv zeta.
    rewrite (update_round f x mx w Hmx).
    set (w1 := set_dirs _ _).
    assert (∀ path, path ≠ manifest_of x → files w1 !! path = files w !! path)
      as Hother.
    { intros path Hp. unfold w1. simpl. by rewrite lookup_insert_ne. }
    destruct (IH w1 Hnd) as (w' & Hrun & Hnow & Hin & Hout).
    { intros pkg Hpkg. rewrite Hother; [apply Hall; by right|].
      intros Heq. apply Hx. rewrite <-Heq. by apply list_elem_of_fmap_2. }
    exists w'. split; [done|]. split; [done|]. split.
    + intros pkg m [->|Hpkg]%elem_of_cons Hm.
      * rewrite Hout by done. unfold w1. simpl. rewrite lookup_insert_eq.
        congruence.
      * assert (manifest_of pkg ≠ manifest_of x) as Hne.
        { intros Heq. apply Hx. rewrite <-Heq. by apply list_elem_of_fmap_2. }
        rewrite (Hin pkg m Hpkg); [done|]. by rewrite Hother.
    + intros path Hp. rewrite fmap_cons, not_elem_of_cons in Hp.
      destruct Hp as [Hp1 Hp2]. rewrite Hout by done. by apply Hother.
Qed.

Lemma manifests_distinct E : NoDup (manifest_of <$> Rev2.packages E).
Proof.
  change (manifest_of <$> Rev2.packages E)
    with ((λ n, path_join (path_join (root E) n) "package.json")
            <$> (name <$> Rev2.packages E)).
  apply NoDup_fmap_2; [|apply registry_names].
  intros a b H. unfold path_join in H.
  apply (f_equal chars) in H. rewrite !chars_app in H.
  apply app_inv_tail in H. do 2 apply app_inv_head in H.
  rewrite <-(text_chars a), <-(text_chars b). by f_equal.
Qed.

(** X16. [updatePackageFiles] with the two rewritings of [install], one
    after the other: when every package has its manifest and no manifest
    holds the key ["prepareDISABLED"], both passes succeed and every file
    has the content it had before. *)
Theorem install_restores_manifests E w :
  (∀ pkg, pkg ∈ Rev2.packages E →
     ∃ m, files w !! manifest_of pkg = Some m
          ∧ test Pat.prepareDISABLED (data m) = false) →
  ∃ w',
    (Rev2.updatePackageFiles E Rev2.disable_prepare;;
     Rev2.updatePackageFiles E Rev2.enable_prepare) w = (Ok (), w')
    ∧ ∀ path, data <$> files w' !! path = data <$> files w !! path.
Proof.
  intros Hall. unfold Rev2.updatePackageFiles.
  destruct (update_loop Rev2.disable_prepare (Rev2.packages E) w)
    as (w1 & Hrun1 & Hnow1 & Hin1 & Hout1); [apply manifests_distinct| |].
  { intros pkg Hpkg. destruct (Hall pkg Hpkg) as (m & -> & _). eauto. }
  destruct (update_loop Rev2.enable_prepare (Rev2.packages E) w1)
    as (w2 & Hrun2 & Hnow2 & Hin2 & Hout2); [apply manifests_distinct| |].
  { intros pkg Hpkg. destruct (Hall pkg Hpkg) as (m & Hm & _).
    rewrite (Hin1 pkg m Hpkg Hm). eauto. }
  exists w2. split.
  - unfold bind at 1. by rewrite Hrun1, Hrun2.
  - intros path.
    destruct (decide (path ∈ manifest_of <$> Rev2.packages E)) as [Hp|Hp].
    + apply list_elem_of_fmap_1 in Hp as (pkg & -> & Hpkg).
      destruct (Hall pkg Hpkg) as (m & Hm & Hno).
      rewrite (Hin2 pkg _ Hpkg (Hin1 pkg m Hpkg Hm)), Hm. simpl.
      by rewrite enable_after_disable.
    + by rewrite Hout2, Hout1.
Qed.

Lemma install_restores_manifests_witness :
  ∃ w',
    (Rev2.updatePackageFiles Sample.E Rev2.disable_prepare;;
     Rev2.updatePackageFiles Sample.E Rev2.enable_prepare) cloned = (Ok (), w')
    ∧ ∀ path, data <$> files w' !! path = data <$> files cloned !! path.
Proof.
  apply install_restores_manifests. intros pkg Hpkg.
  exists (Sample.at_ 50 prepared).
  repeat (apply elem_of_cons in Hpkg as [->|Hpkg]; [by vm_compute|]).
  by apply elem_of_nil in Hpkg.
Defined.

(** ** The notes of a log *)

Lemma star_greedy_stop {R} p i c (s : list ascii) (k : nat → list ascii → option R) :
  p c = false → star_greedy p i (c :: s) k = k i (c :: s).
Proof. intros H. simpl. by rewrite H. Qed.

(** A lazy star goes on as long as what follows it fails. *)
Lemma star_lazy_until {R} p i (t rest : list ascii)
    (k : nat → list ascii → option R) :
  Forall (λ c, p c = true) t →
  (∀ t1 c t2, t = t1 ++ c :: t2 → k (i + List.length t1)%nat (c :: t2 ++ rest) = None) →
  star_lazy p i (t ++ rest) k
  = match k (i + List.length t)%nat rest with
    | Some r => Some r
    | None =>
        match rest with
        | c :: s' => if p c then star_lazy p (S (i + List.length t)) s' k else None
        | [] => None
        end
    end.
Proof.
  revert i. induction t as [|c t IH]; intros i Hp Hk.
  - simpl. rewrite Nat.add_0_r. by destruct rest.
  - inversion Hp as [|? ? Hc Ht]; subst. simpl.
    pose proof (Hk [] c t eq_refl) as H0. simpl in H0. rewrite Nat.add_0_r in H0.
    rewrite H0, Hc. rewrite IH; [|done|].
    + by rewrite <-!Nat.add_succ_comm.
    + intros t1 c1 t2 ->. rewrite Nat.add_succ_comm. by apply (Hk (c :: t1)).
Qed.

Lemma same_sym c d : same c d = same d c.
Proof. unfold same. by apply bool_decide_ext. Qed.

Lemma ahead_inside j c s cs :
  dot c = true →
  matches ahead j (c :: s) cs (λ _ _ cs', Some cs') = None.
Proof.
  unfold dot. rewrite negb_true_iff, orb_false_iff, !(same_sym c).
  intros [H1 H2]. unfold ahead. simpl. fold LF CR. by rewrite H1, H2.
Qed.

Lemma ahead_after j s cs :
  follows s → matches ahead j s cs (λ _ _ cs', Some cs') = Some cs.
Proof. by intros [->|[->|[s' ->]]]. Qed.

Lemma matches_char {R} c i s cs (k : nat → list ascii → caps → option R) :
  matches (Lit (str c)) i (c :: s) cs k = k (i + 1)%nat s cs.
Proof. simpl. unfold same. by rewrite bool_decide_eq_true_2. Qed.

Lemma matches_opt_absent {R} c d i s cs (k : nat → list ascii → caps → option R) :
  same c d = false → matches (Pat.opt c) i (d :: s) cs k = k i (d :: s) cs.
Proof. intros H. unfold Pat.opt. simpl. by rewrite H. Qed.

Lemma matches_kind {R} k0 i s cs (k : nat → list ascii → caps → option R) :
  matches (Grp (Alt (Lit "BREAKING") (Alt (Lit "FIX") (Lit "FEATURE")))) i
    (chars (kind_text k0) ++ s) cs k
  = k (i + String.length (kind_text k0))%nat s (cs ++ [chars (kind_text k0)]).
Proof.
  destruct k0; simpl.
  - replace (i + 8 - i)%nat with 8%nat by lia. simpl. by destruct (k _ _ _).
  - replace (i + 3 - i)%nat with 3%nat by lia. simpl. by destruct (k _ _ _).
  - replace (i + 7 - i)%nat with 7%nat by lia. done.
Qed.

Lemma matches_one_space {R} i c s cs (k : nat → list ascii → caps → option R) r :
  space c = false →
  k (S i) (c :: s) cs = Some r →
  matches (Star space) i (chr 32 :: c :: s) cs k = Some r.
Proof. intros Hc Hk. simpl. by rewrite Hc, Hk. Qed.

Lemma matches_ahead {R} i s cs (k : nat → list ascii → caps → option R) :
  matches (Seq (Ahead ahead) Eps) i s cs k
  = match matches ahead i s cs (λ _ _ cs', Some cs') with
    | Some cs' => k i s cs'
    | None => None
    end.
Proof. done. Qed.

Lemma matches_text {R} i (t rest : list ascii) cs
    (k : nat → list ascii → caps → option R) r :
  Forall (λ c, dot c = true) t → follows rest →
  k (i + List.length t)%nat rest (cs ++ [t]) = Some r →
  matches (Seq (Grp (StarLazy any)) (Seq (Ahead ahead) Eps)) i (t ++ rest) cs k
  = Some r.
Proof.
  intros Hdot Hrest Hk.
  change (matches (Seq (Grp (StarLazy any)) (Seq (Ahead ahead) Eps)) i (t ++ rest) cs k)
    with (star_lazy any i (t ++ rest)
            (λ i' s', matches (Seq (Ahead ahead) Eps) i' s'
                        (cs ++ [take (i' - i) (t ++ rest)]) k)).
  rewrite star_lazy_until.
  - rewrite matches_ahead, ahead_after by done.
    replace (i + List.length t - i)%nat with (List.length t) by lia.
    by rewrite take_app_length, Hk.
  - by apply Forall_true.
  - intros t1 c t2 ->. rewrite matches_ahead, ahead_inside; [done|].
    apply Forall_app in Hdot as [_ Hdot]. by inversion Hdot.
Qed.

Lemma matches_Seq {R} a b i s cs (k : nat → list ascii → caps → option R) :
  matches (Seq a b) i s cs k
  = matches a i s cs (λ i' s' cs', matches b i' s' cs' k).
Proof. done. Qed.

Lemma match_note i k (t rest : list ascii) :
  match t with c :: _ => space c = false | [] => False end →
  Forall (λ c, dot c = true) t → follows rest →
  match_at Pat.note i (LF :: LF :: chars (kind_text k) ++ chars ": " ++ t ++ rest)
  = Some {| stop := (i + (2 + String.length (kind_text k) + 2 + List.length t))%nat;
            rest := rest; groups := [chars (kind_text k); t] |}.
Proof.
  intros Ht Hdot Hrest. destruct t as [|c t]; [done|].
  unfold match_at.
  change Pat.note
    with (Seq (Lit (str LF)) (Seq (Pat.opt CR) (Seq (Lit (str LF))
           (Seq (Grp (Alt (Lit "BREAKING") (Alt (Lit "FIX") (Lit "FEATURE"))))
              (Seq (Lit (str (chr 58))) (Seq (Star space)
                 (Seq (Grp (StarLazy any)) (Seq (Ahead ahead) Eps)))))))).
  rewrite matches_Seq, matches_char.
  rewrite matches_Seq, matches_opt_absent by done.
  rewrite matches_Seq, matches_char.
  rewrite matches_Seq, matches_kind.
  change (chars ": " ++ (c :: t) ++ rest) with (chr 58 :: chr 32 :: c :: (t ++ rest)).
  rewrite matches_Seq, matches_char.
  rewrite matches_Seq.
  erewrite matches_one_space; [reflexivity|done|].
  change (c :: t ++ rest) with ((c :: t) ++ rest).
  erewrite matches_text; [reflexivity|done|done|].
  simpl. do 2 f_equal. lia.
Qed.

(** *** The scan of a log *)

Lemma exec_skip r i (pre rest : list ascii) :
  exec_loop r i (List.length pre) (pre ++ rest)
  = exec_loop r (i + List.length pre) 0 rest.
Proof.
  revert i. induction pre as [|c pre IH]; intros i; simpl.
  - by rewrite Nat.add_0_r.
  - by rewrite IH, Nat.add_succ_comm.
Qed.

(** A match that takes the text [taken], and the scan after it. *)
Lemma exec_match r i c (taken rest : list ascii) m :
  match_at r i (c :: taken ++ rest) = Some m →
  stop m = (i + S (List.length taken))%nat →
  exec_loop r i 0 (c :: taken ++ rest)
  = groups m :: exec_loop r (i + S (List.length taken)) 0 rest.
Proof.
  intros Hm Hstop. cbn [exec_loop]. rewrite Hm, Hstop.
  replace (i + S (List.length taken) - i - 1)%nat with (List.length taken) by lia.
  by rewrite exec_skip, <-Nat.add_succ_comm.
Qed.

(** A text in which the pattern matches nowhere, and the scan after it. *)
Lemma exec_pass r i (pre rest : list ascii) :
  (∀ p1 c p2, pre = p1 ++ c :: p2 →
     match_at r (i + List.length p1) (c :: p2 ++ rest) = None) →
  exec_loop r i 0 (pre ++ rest) = exec_loop r (i + List.length pre) 0 rest.
Proof.
  revert i. induction pre as [|c pre IH]; intros i H.
  - simpl. by rewrite Nat.add_0_r.
  - pose proof (H [] c pre eq_refl) as H0. simpl in H0.
    rewrite Nat.add_0_r in H0. simpl. rewrite H0. rewrite IH.
    + by rewrite Nat.add_succ_comm.
    + intros p1 c1 p2 ->. rewrite Nat.add_succ_comm. by apply (H (c :: p1)).
Qed.

Lemma note_needs_line_feed i c s :
  same LF c = false → match_at Pat.note i (c :: s) = None.
Proof.
  intros H. unfold match_at, Pat.note. simpl. fold LF. by rewrite H.
Qed.

Lemma strip_app_lit (a b s : list ascii) :
  strip (a ++ b) s = strip a s ≫= strip b.
Proof.
  revert s. induction a as [|c a IH]; intros s; simpl; [done|].
  destruct s as [|d s]; [done|]. by destruct (same c d).
Qed.

(** A text that does not start with [l] does not do so with something
    after it, unless what comes after it takes part. *)
Lemma strip_more (l t rest : list ascii) s' :
  strip l t = None → strip l (t ++ rest) = Some s' →
  ∃ c rest', c ∈ l ∧ rest = c :: rest'.
Proof.
  revert t. induction l as [|a l IH]; intros t; simpl; [done|].
  destruct t as [|b t]; simpl.
  - intros _. destruct rest as [|c rest']; [done|].
    destruct (same a c) eqn:Hac; [|done]. apply same_eq in Hac as ->.
    intros _. exists c, rest'. split; [left|done].
  - destruct (same a b); [|done]. intros H1 H2.
    destruct (IH t H1 H2) as (c & rest' & Hc & ->).
    exists c, rest'. split; [by right|done].
Qed.

Lemma matches_Lit {R} l i s cs (k : nat → list ascii → caps → option R) :
  matches (Lit l) i s cs k
  = match strip (chars l) s with
    | Some s' => k (i + String.length l)%nat s' cs
    | None => None
    end.
Proof. done. Qed.

(** The kinds are not found where none of them stands before a colon. *)
Lemma matches_kind_none {R} i s cs b (k : nat → list ascii → caps → option R) :
  (∀ k0, strip (chars (kind_text k0)) s ≫= strip (chars ":") = None) →
  matches (Grp (Alt (Lit "BREAKING") (Alt (Lit "FIX") (Lit "FEATURE")))) i s cs
    (λ i' s' cs', matches (Seq (Lit ":") b) i' s' cs' k) = None.
Proof.
  intros H.
  pose proof (H BREAKING) as H1. pose proof (H FIX) as H2.
  pose proof (H FEATURE) as H3.
  change (kind_text BREAKING) with "BREAKING" in H1.
  change (kind_text FIX) with "FIX" in H2.
  change (kind_text FEATURE) with "FEATURE" in H3.
  cbv beta delta [matches] iota. fold (@matches).
  destruct (strip (chars "BREAKING") s) as [s1|];
    [change (strip (chars ":") s1 = None) in H1; rewrite H1|];
    (destruct (strip (chars "FIX") s) as [s2|];
     [change (strip (chars ":") s2 = None) in H2; rewrite H2|]);
    (destruct (strip (chars "FEATURE") s) as [s3|];
     [change (strip (chars ":") s3 = None) in H3; rewrite H3|]);
    done.
Qed.

Lemma note_pattern :
  Pat.note
  = Seq (Lit (str LF)) (Seq (Pat.opt CR) (Seq (Lit (str LF))
      (Seq (Grp (Alt (Lit "BREAKING") (Alt (Lit "FIX") (Lit "FEATURE"))))
         (Seq (Lit (str (chr 58))) (Seq (Star space)
            (Seq (Grp (StarLazy any)) (Seq (Ahead ahead) Eps))))))).
Proof. done. Qed.

Lemma note_after_two i s :
  (∀ k0, strip (chars (kind_text k0)) s ≫= strip (chars ":") = None) →
  match_at Pat.note i (LF :: LF :: s) = None.
Proof.
  intros H. unfold match_at. rewrite note_pattern.
  rewrite matches_Seq, matches_char.
  rewrite matches_Seq, matches_opt_absent by done.
  rewrite matches_Seq, matches_char.
  rewrite matches_Seq. by apply matches_kind_none.
Qed.

Lemma note_three i s : match_at Pat.note i (LF :: LF :: LF :: s) = None.
Proof. apply note_after_two. by intros []. Qed.

Lemma note_in_line_feeds i n : match_at Pat.note i (replicate n LF) = None.
Proof.
  destruct n as [|[|[|n]]]; done.
Qed.

Lemma exec_line_feeds i n : exec_loop Pat.note i 0 (replicate n LF) = [].
Proof.
  revert i. induction n as [|n IH]; intros i.
  - done.
  - change (replicate (S n) LF) with (LF :: replicate n LF).
    cbn [exec_loop]. change (LF :: replicate n LF) with (replicate (S n) LF).
    by rewrite note_in_line_feeds, IH.
Qed.

(** Two line feeds at least stand before a paragraph. *)
Lemma gap_starts n s : ∃ s', replicate n LF ++ LF :: LF :: s = LF :: LF :: s'.
Proof.
  destruct n as [|[|n]]; simpl; eauto.
Qed.

Lemma exec_gap i n s :
  exec_loop Pat.note i 0 (replicate n LF ++ LF :: LF :: s)
  = exec_loop Pat.note (i + n) 0 (LF :: LF :: s).
Proof.
  revert i. induction n as [|n IH]; intros i.
  - simpl. by rewrite Nat.add_0_r.
  - change (replicate (S n) LF ++ LF :: LF :: s)
      with (LF :: (replicate n LF ++ LF :: LF :: s)).
    cbn [exec_loop].
    destruct (gap_starts n s) as [s' Hs']. rewrite Hs' at 1.
    by rewrite note_three, IH, Nat.add_succ_comm.
Qed.

Lemma subject_not_a_note (t rest : list ascii) k0 :
  ¬ chars (kind_text k0 +:+ ":") `prefix_of` t →
  match rest with [] => True | c :: _ => c = LF end →
  strip (chars (kind_text k0)) (t ++ rest) ≫= strip (chars ":") = None.
Proof.
  intros Ht Hrest. rewrite <-strip_app_lit, <-chars_app.
  destruct (strip _ (t ++ rest)) as [s'|] eqn:Hs; [|done]. exfalso.
  destruct (strip (chars (kind_text k0 +:+ ":")) t) as [s1|] eqn:Ht1.
  - apply strip_Some in Ht1. apply Ht. by exists s1.
  - destruct (strip_more _ _ _ _ Ht1 Hs) as (c & rest' & Hc & ->). subst c.
    destruct k0; vm_compute in Hc;
      repeat (apply elem_of_cons in Hc as [Hc|Hc]; [discriminate|]);
      by apply elem_of_nil in Hc.
Qed.

Lemma follows_line_feed s :
  follows s → match s with [] => True | c :: _ => c = LF end.
Proof. by intros [->|[->|[s' ->]]]. Qed.

Lemma dot_not_line_feed c : dot c = true → same LF c = false ∧ same CR c = false.
Proof.
  unfold dot. rewrite negb_true_iff, orb_false_iff, !(same_sym c). tauto.
Qed.

Lemma note_after_one i d s :
  dot d = true → match_at Pat.note i (LF :: d :: s) = None.
Proof.
  intros [H1 H2]%dot_not_line_feed. unfold match_at. rewrite note_pattern.
  rewrite matches_Seq, matches_char.
  rewrite matches_Seq, matches_opt_absent by done.
  rewrite matches_Seq, matches_Lit. simpl. fold LF. by rewrite H1.
Qed.

Lemma exec_paragraph i p rest :
  well_formed p → follows rest →
  ∃ j, exec_loop Pat.note i 0 (paragraph_text p ++ rest)
       = found_in p ++ exec_loop Pat.note j 0 rest.
Proof.
  intros Hp Hrest. unfold paragraph_text, well_formed, found_in in *.
  rewrite <-!app_assoc.
  change ([LF; LF] ++ ?x) with (LF :: LF :: x). rewrite exec_gap.
  destruct (is_ p) as [k|].
  - destruct Hp as [Hhead Hdot].
    pose proof (match_note (i + gap p) k (chars (says p)) rest Hhead Hdot Hrest) as Hm.
    assert (∀ a b c d : list ascii,
              LF :: LF :: a ++ b ++ c ++ d = LF :: (LF :: a ++ b ++ c) ++ d) as Hmid.
    { intros. simpl. by rewrite <-!app_assoc. }
    rewrite <-(app_assoc (chars (kind_text k))).
    rewrite Hmid in Hm |- *.
    eexists. erewrite exec_match; [|exact Hm|].
    + reflexivity.
    + simpl. rewrite !length_app. simpl.
      replace (List.length (chars (kind_text k))) with (String.length (kind_text k))
        by (by destruct k).
      lia.
  - destruct Hp as (Hne & Hdot & Hkind).
    destruct (chars (says p)) as [|d t] eqn:Hsays.
    { exfalso. apply Hne. by rewrite <-(text_chars (says p)), Hsays. }
    change (LF :: LF :: [] ++ (d :: t) ++ rest) with ((LF :: LF :: d :: t) ++ rest).
    eexists. rewrite exec_pass; [reflexivity|].
    intros p1 c p2 Hpre.
    destruct p1 as [|c1 [|c2 p1]]; simpl in Hpre.
    + injection Hpre as <- <-. simpl.
      change (LF :: (LF :: d :: t) ++ rest) with (LF :: LF :: (d :: t) ++ rest).
      apply note_after_two. intros k0.
      apply (subject_not_a_note (d :: t) rest k0);
        [apply Hkind|by apply follows_line_feed].
    + injection Hpre as <- <- <-. simpl. apply note_after_one.
      by inversion Hdot.
    + injection Hpre as <- <- Hpre. apply note_needs_line_feed.
      apply dot_not_line_feed.
      rewrite Hpre in Hdot. apply Forall_app in Hdot as [_ Hdot].
      by inversion Hdot.
Qed.

Lemma paragraphs_follow l n :
  follows ((l ≫= paragraph_text) ++ replicate n LF).
Proof.
  destruct l as [|p l].
  - simpl. destruct n as [|[|n]]; [by left|by right; left|].
    right. right. by eexists.
  - right. right. rewrite bind_cons. unfold paragraph_text at 1.
    rewrite <-!app_assoc.
    change ([LF; LF] ++ ?x) with (LF :: LF :: x).
    apply gap_starts.
Qed.

Lemma exec_log i l n :
  Forall well_formed l →
  exec_loop Pat.note i 0 ((l ≫= paragraph_text) ++ replicate n LF)
  = l ≫= found_in.
Proof.
  intros Hl. revert i. induction Hl as [|p l Hp _ IH]; intros i.
  - apply exec_line_feeds.
  - rewrite !bind_cons, <-app_assoc.
    destruct (exec_paragraph i p ((l ≫= paragraph_text) ++ replicate n LF) Hp)
      as [j ->]; [apply paragraphs_follow|].
    by rewrite IH.
Qed.

Lemma exec_first_line i (first rest : list ascii) :
  Forall (λ c, dot c = true) first →
  exec_loop Pat.note i 0 (first ++ rest)
  = exec_loop Pat.note (i + List.length first) 0 rest.
Proof.
  intros Hdot. apply exec_pass. intros p1 c p2 ->.
  apply note_needs_line_feed, dot_not_line_feed.
  apply Forall_app in Hdot as [_ Hdot]. by inversion Hdot.
Qed.

(** A text in which the pattern matches nowhere is left as it is. *)
Lemma replace_pass r by_ whole i s :
  (∀ p1 p2, s = p1 ++ p2 → match_at r (i + List.length p1) p2 = None) →
  replace_loop r by_ whole i 0 s = s.
Proof.
  revert i. induction s as [|c s IH]; intros i H.
  - simpl. pose proof (H [] [] eq_refl) as H0. simpl in H0.
    rewrite Nat.add_0_r in H0. by rewrite H0.
  - pose proof (H [] (c :: s) eq_refl) as H0. simpl in H0.
    rewrite Nat.add_0_r in H0. simpl. rewrite H0. f_equal. apply IH.
    intros p1 p2 ->. rewrite Nat.add_succ_comm. by apply (H (c :: p1)).
Qed.

Lemma newline_in_line (t : string) :
  Forall (λ c, dot c = true) (chars t) → replace_all Pat.newline " " t = t.
Proof.
  intros Hdot. unfold replace_all. rewrite replace_pass; [apply text_chars|].
  intros p1 [|c p2] Hs; [done|].
  rewrite Hs in Hdot. apply Forall_app in Hdot as [_ Hdot].
  inversion Hdot as [|? ? Hc _]; subst.
  apply dot_not_line_feed in Hc as [H1 H2].
  unfold match_at, Pat.newline. simpl. fold LF CR. by rewrite H1, H2.
Qed.

Lemma push_entry (acc : Changes) k (t : string) :
  Forall (λ c, dot c = true) (chars t) →
  push_note acc [chars (kind_text k); chars t]
  = match k with
    | BREAKING => {| fix_ := fix_ acc; feature := feature acc;
                     breaking := breaking acc ++ [t] |}
    | FIX => {| fix_ := fix_ acc ++ [t]; feature := feature acc;
                breaking := breaking acc |}
    | FEATURE => {| fix_ := fix_ acc; feature := feature acc ++ [t];
                    breaking := breaking acc |}
    end.
Proof.
  intros Hdot. unfold push_note. simpl.
  rewrite !text_chars, newline_in_line by done. by destruct k.
Qed.

Lemma well_formed_dot p :
  well_formed p → Forall (λ c, dot c = true) (chars (says p)).
Proof. unfold well_formed. destruct (is_ p); [by intros [_ ?]|by intros (_ & ? & _)]. Qed.

Lemma said_cons k p l :
  said k (p :: l) = (if decide (is_ p = Some k) then [says p] else []) ++ said k l.
Proof.
  unfold said. destruct (decide (is_ p = Some k)).
  - by rewrite filter_cons_True.
  - by rewrite filter_cons_False.
Qed.

Lemma foldl_push acc l :
  Forall well_formed l →
  foldl push_note acc (l ≫= found_in)
  = {| fix_ := fix_ acc ++ said FIX l; feature := feature acc ++ said FEATURE l;
       breaking := breaking acc ++ said BREAKING l |}.
Proof.
  intros Hl. revert acc. induction Hl as [|p l Hp _ IH]; intros acc.
  - destruct acc. simpl. unfold said. simpl. by rewrite !app_nil_r.
  - rewrite bind_cons, foldl_app, IH, !said_cons.
    pose proof (well_formed_dot p Hp) as Hdot.
    unfold found_in. destruct (is_ p) as [k|] eqn:Hk.
    + simpl. rewrite push_entry by done.
      destruct k; simpl; repeat case_decide; try done;
        by rewrite <-?app_assoc.
    + simpl. by repeat case_decide.
Qed.

Lemma notes_in_log first l n :
  Forall (λ c, dot c = true) (chars first) → Forall well_formed l →
  notes_in (log_text first l n) = noted l.
Proof.
  intros Hfirst Hl. unfold notes_in, exec_all, log_text.
  rewrite chars_app, chars_text, exec_first_line, exec_log by done.
  by rewrite foldl_push.
Qed.

Lemma changelog_log E pkg since first l n w :
  Forall (λ c, dot c = true) (chars first) → Forall well_formed l →
  command E "git" ["log"; "--format=%B"; "--reverse"; show since +:+ "..main"]
    (dir pkg) = Some (log_text first l n) →
  changelog E pkg since None w
  = (Ok (noted l), set_trace (λ t, t ++ [git_log pkg since]) w).
Proof.
  intros Hfirst Hl Hout.
  unfold changelog, run, bind, emit, modify. rewrite Hout. simpl.
  unfold ret. by rewrite notes_in_log.
Qed.

Lemma changelog_message E pkg since first l n w k t :
  Forall (λ c, dot c = true) (chars first) → Forall well_formed l →
  command E "git" ["log"; "--format=%B"; "--reverse"; show since +:+ "..main"]
    (dir pkg) = Some (log_text first l n) →
  line t → subject first ∨ first = "" ∧ l = [] →
  changelog E pkg since (Some (kind_text k +:+ ": " +:+ t +:+ nlnl)) w
  = (Ok (noted ({| gap := 0; is_ := Some k; says := t |} :: l)),
     set_trace (λ t, t ++ [git_log pkg since]) w).
Proof.
  intros Hfirst Hl Hout Ht Hcase.
  unfold changelog, run, bind, emit, modify. rewrite Hout.
  assert (given (Some (kind_text k +:+ ": " +:+ t +:+ nlnl)) = true) as ->
    by (by destruct k).
  simpl. unfold ret. do 2 f_equal.
  destruct Hcase as [Hsub|[-> ->]].
  + transitivity
      (notes_in (log_text ""
         ({| gap := 0; is_ := Some k; says := t |}
          :: {| gap := 2; is_ := None; says := first |} :: l) n)).
    * f_equal. apply chars_inj. unfold log_text.
      rewrite !chars_app, !chars_text, !bind_cons. unfold paragraph_text.
      by do 4 (simpl; rewrite <-?app_assoc).
    * rewrite notes_in_log;
        [|done|constructor; [exact Ht|constructor; [exact Hsub|exact Hl]]].
      unfold noted.
      rewrite !(said_cons _ {| gap := 0; is_ := Some k; says := t |}).
      by rewrite !(said_cons _ {| gap := 2; is_ := None; says := first |}).
  + transitivity
      (notes_in (log_text "" [{| gap := 0; is_ := Some k; says := t |}] (4 + n))).
    * f_equal. apply chars_inj. unfold log_text.
      rewrite !chars_app, !chars_text, !bind_cons. unfold paragraph_text.
      by do 4 (simpl; rewrite <-?app_assoc).
    * by rewrite notes_in_log; [|done|constructor; [exact Ht|constructor]].
Qed.

(** X17. [changelog] on a log of one-line paragraphs that are set apart by
    empty lines: the notes, which are the paragraphs of the form
    [KIND: text], are sorted by kind in the order of the log, with their
    texts as they stand; the first line of the log, which no empty line
    precedes, and the paragraphs that do not start with a kind and a
    colon are passed over.  A note given as the extra message, as
    [release] builds it from [-m], comes first under its kind. *)
Theorem changelog_reads_notes E pkg since first l n w :
  Forall (λ c, dot c = true) (chars first) → Forall well_formed l →
  command E "git" ["log"; "--format=%B"; "--reverse"; show since +:+ "..main"]
    (dir pkg) = Some (log_text first l n) →
  changelog E pkg since None w
  = (Ok (noted l), set_trace (λ t, t ++ [git_log pkg since]) w)
  ∧ ∀ k t, line t → subject first ∨ first = "" ∧ l = [] →
      changelog E pkg since (Some (kind_text k +:+ ": " +:+ t +:+ nlnl)) w
      = (Ok (noted ({| gap := 0; is_ := Some k; says := t |} :: l)),
         set_trace (λ t, t ++ [git_log pkg since]) w).
Proof.
  intros Hfirst Hl Hout. split.
  - by apply (changelog_log E pkg since first l n).
  - intros k t Ht Hcase. by apply (changelog_message E pkg since first l n).
Qed.

Lemma changelog_reads_notes_witness :
  let out := "Handle empty input" +:+ nlnl +:+ "FIX: Do not crash on empty input"
             +:+ nlnl +:+ "Add a cache" +:+ nlnl
             +:+ "FEATURE: Trees are cached" +:+ nl in
  changelog (printing out) Sample.common (Some "1.2.3") None Sample.releasable
  = (Ok {| fix_ := ["Do not crash on empty input"];
           feature := ["Trees are cached"]; breaking := [] |},
     set_trace (λ t, t ++ [git_log Sample.common (Some "1.2.3")]) Sample.releasable).
Proof.
  intros out.
  refine (proj1 (changelog_reads_notes (printing out) Sample.common (Some "1.2.3")
                   "Handle empty input"
                   [ {| gap := 0; is_ := Some FIX; says := "Do not crash on empty input" |};
                     {| gap := 0; is_ := None; says := "Add a cache" |};
                     {| gap := 0; is_ := Some FEATURE; says := "Trees are cached" |} ]
                   1 Sample.releasable _ _ _)).
  - apply (bool_decide_unpack _). by vm_compute.
  - repeat constructor; try (apply (bool_decide_unpack _); by vm_compute);
      try done.
    intros k [s Hs]. by destruct k.
  - reflexivity.
Defined.

(** X18. [release] with one note given by [-m] and nothing committed since
    the last version [a.b.c], of components below [2^53]: the note is the
    only change, its kind decides the new version, and the release goes
    on to [doRelease] with that version and that change.  In the first
    revision a fix gives [a.b.(c+1)], a feature [a.(b+1).0] and a
    breaking change [(a+1).0.0], or [0.(b+1).0] under major version 0; in
    the second a feature under major version 0 gives [0.b.(c+1)]. *)
Theorem release_with_note E pkgName pkg k t (a b c : N) w :
  (a < 2 ^ 53)%N → (b < 2 ^ 53)%N → (c < 2 ^ 53)%N →
  line t →
  version E pkg w = (Ok (Some (version_text a b c)), w) →
  command E "git" ["log"; "--format=%B"; "--reverse"; version_text a b c +:+ "..main"]
    (dir pkg) = Some "" →
  let args := ["-m"; kind_text k +:+ ": " +:+ t] in
  let changes := noted [{| gap := 0; is_ := Some k; says := t |}] in
  let w1 := set_trace (λ t, t ++ [git_log pkg (Some (version_text a b c))]) w in
  (packageNames E !! pkgName = Some pkg →
   release E pkgName args w
   = (console_log (Text ("Creating " +:+ pkgName +:+ " " +:+ bumped k a b c));;
      doRelease E pkg changes (bumped k a b c)) w1)
  ∧ (Rev2.packageNames E !! pkgName = Some pkg →
     Rev2.release E pkgName args w
     = (console_log (Text ("Creating " +:+ pkgName +:+ " " +:+ bumped2 k a b c));;
        doRelease E pkg changes (bumped2 k a b c)) w1).
Proof.
  intros Ha Hb Hc' Ht Hv Hlog args changes w1.
  assert (changelog E pkg (Some (version_text a b c))
            (Some (kind_text k +:+ ": " +:+ t +:+ nlnl)) w = (Ok changes, w1)) as Hc.
  { apply (changelog_message E pkg (Some (version_text a b c)) "" [] 0);
      try done. by right. }
  assert ((kind_text k +:+ ": " +:+ t) +:+ nlnl
          = kind_text k +:+ ": " +:+ t +:+ nlnl) as Hmsg
    by (by rewrite !append_assoc).
  split; intros Hpkg.
  - rewrite (release_unfold E pkgName pkg args None
               (kind_text k +:+ ": " +:+ t +:+ nlnl)
               (Some (version_text a b c)) changes w w1); try done.
    2:{ unfold args. cbn [release_args]. rewrite bool_decide_eq_false_2 by done.
        rewrite bool_decide_eq_true_2 by done. cbn [release_args].
        unfold ret. do 2 f_equal. exact (f_equal (pair None) Hmsg). }
    cbn [given]. unfold bind at 1, lift.
    unfold version_text at 1. rewrite bump_decimal by done.
    unfold changes, noted, said.
    destruct k; simpl; try done; by case_bool_decide.
  - rewrite (release2_unfold E pkgName pkg args None
               (kind_text k +:+ ": " +:+ t +:+ nlnl)
               (Some (version_text a b c)) changes w w1); try done.
    2:{ unfold args. cbn [Rev2.release_args].
        rewrite bool_decide_eq_false_2 by done.
        rewrite bool_decide_eq_true_2 by done. cbn [Rev2.release_args].
        unfold ret. do 2 f_equal. exact (f_equal (pair None) Hmsg). }
    cbn [given]. unfold bind at 1, lift.
    unfold version_text at 1. rewrite bump2_decimal by done.
    unfold changes, noted, said.
    destruct k; simpl; case_bool_decide; subst; done.
Qed.

Lemma release_with_note_witness :
  release Sample.E "common" ["-m"; "FIX: Do not crash"] Sample.releasable
  = (console_log (Text "Creating common 1.2.4");;
     doRelease Sample.E Sample.common
       {| fix_ := ["Do not crash"]; feature := []; breaking := [] |} "1.2.4")
      (set_trace (λ t, t ++ [git_log Sample.common (Some "1.2.3")])
         Sample.releasable).
Proof.
  refine (proj1 (release_with_note Sample.E "common" Sample.common FIX
                   "Do not crash" 1 2 3 Sample.releasable _ _ _ _ _ _) _).
  - reflexivity.
  - reflexivity.
  - reflexivity.
  - split; [done|]. apply (bool_decide_unpack _). by vm_compute.
  - by vm_compute.
  - reflexivity.
  - apply (bool_decide_unpack _). by vm_compute.
Defined.

(** ** The version in a manifest *)

Lemma substitution_plain by_ matched before after gs :
  chr 36 ∉ by_ → substitution by_ matched before after gs = by_.
Proof.
  induction by_ as [|c by_ IH]; intros H; [done|].
  apply not_elem_of_cons in H as [Hc H]. cbn [substitution].
  unfold same at 1. rewrite bool_decide_eq_false_2 by done.
  f_equal. by apply IH.
Qed.

(** A greedy star takes all of a run when what follows it then succeeds. *)
Lemma star_greedy_run {R} p i (run : list ascii) c s
    (k : nat → list ascii → option R) r :
  Forall (λ c, p c = true) run → p c = false →
  k (i + List.length run)%nat (c :: s) = Some r →
  star_greedy p i (run ++ c :: s) k = Some r.
Proof.
  revert i. induction run as [|d run IH]; intros i Hrun Hc Hk; simpl.
  - rewrite Hc. by rewrite Nat.add_0_r in Hk.
  - inversion Hrun as [|? ? Hd Hrun']; subst. rewrite Hd.
    rewrite IH; [done|done|done|]. by rewrite Nat.add_succ_comm.
Qed.

Lemma version_pattern :
  Pat.version
  = Seq (Lit version_key) (Seq (Star space) (Seq (Lit (str DQ))
      (Seq (StarLazy dot) (Seq (Lit (str DQ)) Eps)))).
Proof. done. Qed.

Lemma match_version i (ws old post : list ascii) :
  Forall (λ c, space c = true) ws →
  Forall (λ c, dot c = true ∧ c ≠ DQ) old →
  match_at Pat.version i (chars version_key ++ ws ++ DQ :: old ++ DQ :: post)
  = Some {| stop := (i + String.length version_key + List.length ws + 1
                     + List.length old + 1)%nat;
            rest := post; groups := [] |}.
Proof.
  intros Hws Hold. unfold match_at. rewrite version_pattern.
  rewrite matches_Seq, matches_Lit, strip_app.
  rewrite matches_Seq.
  change (matches (Star space) ?i ?s ?cs ?k)
    with (star_greedy space i s (λ i' s', k i' s' cs)).
  erewrite star_greedy_run; [reflexivity|done|done|].
  rewrite matches_Seq, matches_char.
  change (matches (Seq (StarLazy dot) ?b) ?i ?s ?cs ?k)
    with (star_lazy dot i s (λ i' s', matches b i' s' cs k)).
  rewrite star_lazy_until.
  - by rewrite matches_Seq, matches_char.
  - eapply Forall_impl; [exact Hold|]. by intros c [? _].
  - intros t1 c t2 ->. apply Forall_app in Hold as [_ Hold].
    inversion Hold as [|? ? [_ Hc] _]; subst.
    rewrite matches_Seq, matches_Lit. simpl. fold DQ. unfold same.
    by rewrite bool_decide_eq_false_2.
Qed.

(** The key is not found across the place where it stands. *)
Lemma version_overlap (u after : list ascii) r :
  u ≠ [] →
  strip (chars version_key) (u ++ chars version_key ++ after) = Some r →
  is_Some (strip (chars version_key) u).
Proof.
  intros Hu. 
  change (chars version_key) with (DQ :: chars "version" ++ [DQ; chr 58]).
  destruct u as [|c0 u]; [done|]. clear Hu. simpl.
  destruct (same _ c0); [|done].
  do 9 (destruct u as [|? u]; simpl;
        [try done|destruct (same _ _); [|done]]).
  eauto.
Qed.

Lemma replace_version (pre ws old post V : string) :
  test (Lit version_key) pre = false →
  Forall (λ c, space c = true) (chars ws) →
  Forall (λ c, dot c = true ∧ c ≠ DQ) (chars old) →
  chr 36 ∉ chars V →
  replace_first Pat.version (version_field V)
    (pre +:+ version_key +:+ ws +:+ dq +:+ old +:+ dq +:+ post)
  = pre +:+ version_field V +:+ post.
Proof.
  intros Hpre Hws Hold HV. unfold replace_first.
  assert (chars (pre +:+ version_key +:+ ws +:+ dq +:+ old +:+ dq +:+ post)
          = chars pre ++ chars version_key ++ chars ws ++ DQ :: chars old
            ++ DQ :: chars post) as -> by (by rewrite !chars_app).
  pose proof (proj1 (test_Lit_false _ _) Hpre) as Habsent.
  rewrite (search_at Pat.version 0 (chars pre) _ _
             (match_version _ (chars ws) (chars old) (chars post) Hws Hold)).
  - simpl. rewrite take_app_length, substitution_plain.
    + apply chars_inj. change ("" +:+ V +:+ dq) with (V +:+ dq).
      unfold version_field. rewrite chars_text, !chars_app.
      simpl. by rewrite <-?app_assoc.
    + change ("" +:+ V +:+ dq) with (V +:+ dq). rewrite chars_app.
      apply not_elem_of_app. split; [done|].
      intros H. apply elem_of_cons in H as [H|H]; [discriminate|].
      by apply elem_of_nil in H.
  - intros pre1 post1 Heq Hlt.
    destruct (app_split_before _ _ _ _ Heq Hlt) as (u & Hu & Hp & ->).
    unfold match_at. rewrite version_pattern, matches_Seq, matches_Lit.
    destruct (strip _ (u ++ _)) as [r|] eqn:Hr; [|done]. exfalso.
    destruct (version_overlap u _ r Hu Hr) as [r' Hr'].
    by rewrite (Habsent pre1 u Hp) in Hr'.
Qed.

Lemma replace_version_absent (json by_ : string) :
  test (Lit version_key) json = false →
  replace_first Pat.version by_ json = json.
Proof.
  intros Hno. unfold replace_first.
  destruct (search Pat.version 0 (chars json)) as [[i m]|] eqn:Hs; [|done].
  destruct (search_found _ _ _ _ _ Hs) as (pre & post & Hjson & _ & Hm & _).
  unfold match_at in Hm. rewrite version_pattern, matches_Seq, matches_Lit in Hm.
  by rewrite (proj1 (test_Lit_false _ _) Hno pre post Hjson) in Hm.
Qed.

(** X19. [setModuleVersion] rewrites the manifest of the package and no
    other file.  Where the manifest has the key ["version":] for the
    first time, followed by white space and a text in double quotes on
    one line, that field becomes ["version": "V"] and what stands before
    and after it is kept.  A manifest without the key is written back as
    it was. *)
Theorem setModuleVersion_rewrites_field pkg V m w :
  files w !! manifest_of pkg = Some m → chr 36 ∉ chars V →
  ∃ w',
    setModuleVersion pkg V w = (Ok (), w')
    ∧ (∀ path, path ≠ manifest_of pkg → files w' !! path = files w !! path)
    ∧ (∀ pre ws old post,
         data m = pre +:+ version_key +:+ ws +:+ dq +:+ old +:+ dq +:+ post →
         test (Lit version_key) pre = false →
         Forall (λ c, space c = true) (chars ws) →
         Forall (λ c, dot c = true ∧ c ≠ DQ) (chars old) →
         data <$> files w' !! manifest_of pkg
         = Some (pre +:+ version_field V +:+ post))
    ∧ (test (Lit version_key) (data m) = false →
       data <$> files w' !! manifest_of pkg = Some (data m)).
Proof.
  intros Hm HV. eexists. split.
  { unfold setModuleVersion, readFile, stat, writeFile, bind, emit, modify.
    fold (manifest_of pkg). rewrite Hm. reflexivity. }
  simpl. split; [|split].
  - intros path Hp. by rewrite lookup_insert_ne.
  - intros pre ws old post Hdata Hpre Hws Hold.
    rewrite lookup_insert_eq. simpl. f_equal. rewrite Hdata.
    by apply replace_version.
  - intros Hno. rewrite lookup_insert_eq. simpl. f_equal.
    by apply replace_version_absent.
Qed.

Lemma setModuleVersion_rewrites_field_witness :
  ∃ w',
    setModuleVersion Sample.common "2.0.0" Sample.releasable = (Ok (), w')
    ∧ data <$> files w' !! manifest_of Sample.common
      = Some ("{" +:+ dq +:+ "version" +:+ dq +:+ ": " +:+ dq +:+ "2.0.0" +:+ dq +:+ "}").
Proof.
  destruct (setModuleVersion_rewrites_field Sample.common "2.0.0"
              (Sample.at_ 50 ("{" +:+ dq +:+ "version" +:+ dq +:+ ": " +:+ dq
                              +:+ "1.2.3" +:+ dq +:+ "}"))
              Sample.releasable) as (w' & Hrun & _ & Hfield & _).
  - by vm_compute.
  - intros H. repeat (apply elem_of_cons in H as [H|H]; [discriminate|]).
    by apply elem_of_nil in H.
  - exists w'. split; [exact Hrun|].
    apply (Hfield "{" " " "1.2.3" "}").
    + reflexivity.
    + by vm_compute.
    + apply (bool_decide_unpack _). by vm_compute.
    + repeat constructor; by vm_compute.
Defined.

(** ** The version of [release-all] *)

Lemma map_each_pure {A B} (f : A → M B) (l : list A) (r : list B) w :
  Forall2 (λ x y, f x w = (Ok y, w)) l r → map_each f l w = (Ok r, w).
Proof.
  induction 1 as [|x y l r Hx _ IH]; [done|].
  cbn [map_each]. unfold bind at 1. rewrite Hx.
  unfold bind at 1. by rewrite IH.
Qed.

Lemma max2_int (x y : Z) :
  max2 (Finite false x 0) (Finite false y 0) = Finite false (Z.max x y) 0.
Proof.
  unfold max2, below. change (2 ^ Z.of_nat 0) with 1. rewrite !Z.mul_1_r.
  cbn [andb negb]. rewrite andb_false_r, orb_false_r.
  destruct (x <? y) eqn:H; [apply Z.ltb_lt in H|apply Z.ltb_ge in H]; f_equal; lia.
Qed.

Lemma Math_max_from z (l : list N) :
  0 ≤ z →
  foldl max2 (Finite false z 0) ((λ n, Finite false (Z.of_N n) 0) <$> l)
  = Finite false (Z.max z (Z.of_N (foldr N.max 0%N l))) 0.
Proof.
  revert z. induction l as [|n l IH]; intros z Hz.
  - cbn [fmap list_fmap foldl foldr]. f_equal. lia.
  - rewrite fmap_cons. cbn [foldl foldr]. rewrite max2_int, IH by lia.
    f_equal. lia.
Qed.

Lemma Math_max_minors (l : list N) :
  l ≠ [] →
  Math_max ((λ n, Finite false (Z.of_N n) 0) <$> l)
  = Finite false (Z.of_N (foldr N.max 0%N l)) 0.
Proof.
  destruct l as [|n l]; [done|]. intros _. unfold Math_max.
  rewrite fmap_cons. cbn [foldl].
  change (max2 (Infinite true) (Finite false (Z.of_N n) 0))
    with (Finite false (Z.of_N n) 0).
  rewrite Math_max_from by lia. f_equal. simpl. lia.
Qed.

Lemma minor_of_text (v : components) w :
  (v.1.2 < 2 ^ 53)%N →
  minor_of (Some (text_of v)) w = (Ok (Finite false (Z.of_N v.1.2) 0), w).
Proof.
  intros Hv. unfold minor_of, text_of, version_text, ret. rewrite split_version.
  cbn [lookup list_lookup]. do 2 f_equal. by apply Number_pretty.
Qed.

Lemma largest_below (l : list N) (bound : N) :
  (0 < bound)%N → Forall (λ n, (n < bound)%N) l → (foldr N.max 0 l < bound)%N.
Proof. intros Hb. induction 1 as [|n l Hn _ IH]; simpl; lia. Qed.

Lemma Forall2_fmap_Forall {A B C} (Q : A → Prop) (P : B → C → Prop)
    (f : A → B) (g : A → C) l :
  Forall Q l → (∀ x, Q x → P (f x) (g x)) → Forall2 P (f <$> l) (g <$> l).
Proof. intros Hl H. induction Hl; constructor; auto. Qed.

Lemma Forall2_fmap_same {A B C} (P : B → C → Prop) (f : A → B) (g : A → C) l :
  (∀ x, P (f x) (g x)) → Forall2 P (f <$> l) (g <$> l).
Proof. intros H. induction l; constructor; auto. Qed.

Lemma for_each_zip_fmap {A B C} (g : B → C) (l : list A) (r : list B)
    (f : A * C → M unit) w :
  for_each (zip l (g <$> r)) f w = for_each (zip l r) (λ xy, f (xy.1, g xy.2)) w.
Proof.
  revert r w. induction l as [|x l IH]; intros [|y r] w; try done.
  simpl. apply bind_ext; [done|]. intros _ w'. apply IH.
Qed.

(** X20. [release-all] without arguments, when every package has a version
    of three decimal components with a minor component below [2^53]: all
    packages are released under one version, which is [0.(m+1).0] for
    the largest minor component [m] of the current versions, whatever
    their major components.  The dependencies are bumped to that version
    first, and then every package, in registry order, gets the notes of
    its own log and is released. *)
Theorem releaseAll_version E w (vs : list components) :
  Forall (λ v, (v.1.2 < 2 ^ 53)%N) vs →
  Forall2 (λ pkg v, version E pkg w = (Ok (Some (text_of v)), w)) (packages E) vs →
  let V := version_text 0 (largest_minor vs + 1) 0 in
  releaseAll E [] w
  = (bumpDeps E V;;
     for_each (zip (packages E) vs) (λ pv,
       let* changes := changelog E pv.1 (Some (text_of pv.2)) None in
       doRelease E pv.1 changes V)) w.
Proof.
  intros Hsmall Hvs V. unfold releaseAll. cbn [releaseAll_args].
  unfold bind at 1. cbn [ret].
  unfold bind at 1.
  rewrite (map_each_pure (version E) (packages E) ((λ v, Some (text_of v)) <$> vs)).
  2:{ apply Forall2_fmap_r. exact Hvs. }
  unfold bind at 1.
  rewrite (map_each_pure (minor_of) _
             ((λ n, Finite false (Z.of_N n) 0) <$> ((λ v, v.1.2) <$> vs))).
  2:{ rewrite <-list_fmap_compose.
      apply (Forall2_fmap_Forall (λ v, (v.1.2 < 2 ^ 53)%N)); [done|].
      intros v Hv. by apply minor_of_text. }
  assert (vs ≠ []) as Hne.
  { intros ->. apply Forall2_length in Hvs. done. }
  rewrite Math_max_minors by (by destruct vs).
  assert (largest_minor vs < 2 ^ 53)%N as Hm.
  { unfold largest_minor. apply largest_below; [done|]. by apply Forall_fmap. }
  assert ("0." +:+ num_text
                     (succ (Finite false
                              (Z.of_N (foldr N.max 0%N ((λ v, v.1.2) <$> vs))) 0))
          +:+ ".0" = V) as ->.
  { unfold V, version_text. fold (largest_minor vs).
    assert (Z.of_N (largest_minor vs) < 2 ^ 53)
      by (change (2 ^ 53) with (Z.of_N (2 ^ 53)); lia).
    rewrite succ_int, num_text_int by lia.
    replace (Z.of_N (largest_minor vs) + 1)
      with (Z.of_N (largest_minor vs + 1)) by lia.
    by rewrite pretty_Z_of_N. }
  apply bind_ext; [done|]. intros _ w'.
  rewrite for_each_zip_fmap. apply for_each_ext. intros [pkg v] w'' _. simpl.
  apply bind_ext; [|done].
  unfold message_for. rewrite lookup_empty. simpl.
  by destruct (grammar (options pkg)).
Qed.

Lemma releaseAll_version_witness :
  let vs := replicate 14 (1, 2, 3)%N in
  releaseAll Sample.E [] checkout
  = (bumpDeps Sample.E "0.3.0";;
     for_each (zip (packages Sample.E) vs) (λ pv,
       let* changes := changelog Sample.E pv.1 (Some (text_of pv.2)) None in
       doRelease Sample.E pv.1 changes "0.3.0")) checkout.
Proof.
  intros vs. apply (releaseAll_version Sample.E checkout vs).
  - unfold vs. repeat constructor.
  - unfold vs. repeat constructor; by vm_compute.
Defined.

(** ** [notes] reads and prints *)

Lemma world_trace_nil w : set_trace (λ t0, t0 ++ []) w = w.
Proof. destruct w. unfold set_trace. simpl. by rewrite app_nil_r. Qed.

Lemma only_reads_trace {A} (m : M A) w o t :
  m w = (o, set_trace (λ t0, t0 ++ t) w) → Forall reads_or_prints t →
  only_reads m w.
Proof.
  intros H Ht. unfold only_reads. rewrite (performed_app m w t); rewrite H; done.
Qed.

Lemma notes_of_package E pkg w :
  only_reads
    (let* since := version E pkg in
     let* changes := changelog E pkg since None in
     let notes := releaseNotes E changes "XXX" in
     console_log (Text (head notes +:+ body notes))) w.
Proof.
  destruct (files w !! path_join (dir pkg) "package.json") as [f|] eqn:Hf.
  - destruct (manifest E (data f)) as [v|] eqn:Hm.
    + destruct (command E "git"
                  ["log"; "--format=%B"; "--reverse"; show v +:+ "..main"]
                  (dir pkg)) as [out|] eqn:Hc.
      * eapply (only_reads_trace _ _ _ [git_log pkg v; Log _]).
        { unfold version, changelog, run, console_log, emit, modify, bind, gets,
            throw, ret.
          rewrite Hf, Hm, Hc. unfold set_trace. simpl. by rewrite <-app_assoc. }
        constructor; [left; by exists pkg, v|].
        constructor; [right; left; eauto|]. constructor.
      * eapply (only_reads_trace _ _ _ [git_log pkg v]).
        { unfold version, changelog, run, console_log, emit, modify, bind, gets,
            throw, ret.
          by rewrite Hf, Hm, Hc. }
        constructor; [left; by exists pkg, v|]. constructor.
    + eapply (only_reads_trace _ _ _ []); [|done].
      unfold version, bind, gets, throw. rewrite Hf, Hm. by rewrite world_trace_nil.
  - eapply (only_reads_trace _ _ _ []); [|done].
    unfold version, bind, gets, throw. rewrite Hf. by rewrite world_trace_nil.
Qed.

Lemma only_reads_error {A} v w : only_reads (error (A := A) v) w.
Proof.
  apply (only_reads_trace _ _ (Exit 1) [LogError v]); [done|].
  constructor; [right; right; eauto|]. constructor.
Qed.

(** X21. [notes] changes no file and no directory, for any name and in any
    state of the files, in both revisions: all it does is to run
    [git log] in the package and to print, also when the package is not
    known, when its manifest cannot be read and when [git] fails. *)
Theorem notes_only_reads E name_ w :
  only_reads (notes E name_) w ∧ only_reads (Rev2.notes E name_) w.
Proof.
  split.
  - unfold notes. destruct (packageNames E !! name_) as [pkg|].
    + apply notes_of_package.
    + apply only_reads_error.
  - unfold Rev2.notes. destruct (Rev2.packageNames E !! name_) as [pkg|].
    + apply notes_of_package.
    + apply only_reads_error.
Qed.

(** ** The text of the release notes *)

Lemma length_chars (s : string) : List.length (chars s) = String.length s.
Proof. induction s as [|c s IH]; [done|]. unfold chars in *. simpl. by rewrite IH. Qed.

Lemma replace_loop_skip r by_ whole i (p s : list ascii) :
  replace_loop r by_ whole i (List.length p) (p ++ s)
  = replace_loop r by_ whole (i + List.length p) 0 s.
Proof.
  revert i. induction p as [|c p IH]; intros i; simpl.
  - by rewrite Nat.add_0_r.
  - rewrite IH. by rewrite Nat.add_succ_comm.
Qed.

Lemma replace_loop_miss r by_ whole i (p s : list ascii) :
  (∀ p1 p2, p = p1 ++ p2 → p2 ≠ [] →
     match_at r (i + List.length p1) (p2 ++ s) = None) →
  replace_loop r by_ whole i 0 (p ++ s)
  = p ++ replace_loop r by_ whole (i + List.length p) 0 s.
Proof.
  revert i. induction p as [|c p IH]; intros i H.
  - simpl. by rewrite Nat.add_0_r.
  - pose proof (H [] (c :: p) eq_refl) as H0. simpl in H0.
    rewrite Nat.add_0_r in H0. simpl. rewrite H0 by done. f_equal.
    rewrite IH; [by rewrite Nat.add_succ_comm|].
    intros p1 p2 -> Hp2. rewrite Nat.add_succ_comm. by apply (H (c :: p1)).
Qed.

Lemma replace_loop_hit (l : string) by_ whole i s :
  l ≠ "" → chr 36 ∉ by_ →
  replace_loop (Lit l) by_ whole i 0 (chars l ++ s)
  = by_ ++ replace_loop (Lit l) by_ whole (i + String.length l) 0 s.
Proof.
  intros Hl Hby. destruct l as [|c l]; [done|].
  change (chars (String c l)) with (c :: chars l).
  cbn [app replace_loop]. rewrite match_at_Lit.
  change (chars (String c l)) with (c :: chars l).
  change (c :: chars l ++ s) with ((c :: chars l) ++ s). rewrite strip_app.
  cbn [fmap option_fmap option_map stop rest groups].
  rewrite substitution_plain by done. f_equal.
  replace (i + String.length (String c l) =? i)%nat with false
    by (symmetry; apply Nat.eqb_neq; simpl; lia).
  replace (i + String.length (String c l) - i - 1)%nat with (List.length (chars l)).
  2:{ rewrite length_chars. simpl. lia. }
  rewrite replace_loop_skip. f_equal. rewrite length_chars. simpl. lia.
Qed.

(** With a literal for the pattern and no [$] in the replacement, the
    result does not depend on where the text stands. *)
Lemma replace_loop_place l by_ whole whole' i i' k s :
  chr 36 ∉ by_ →
  replace_loop (Lit l) by_ whole i k s = replace_loop (Lit l) by_ whole' i' k s.
Proof.
  intros Hby. revert i i' k. induction s as [|c s IH]; intros i i' k.
  - destruct k; simpl; [|done]. rewrite !match_at_Lit.
    destruct (strip (chars l) []); simpl; [|done].
    by rewrite !substitution_plain.
  - destruct k as [|k]; simpl; [|apply IH]. rewrite !match_at_Lit.
    destruct (strip (chars l) (c :: s)); simpl.
    + rewrite !substitution_plain by done. f_equal.
      replace (i + String.length l - i)%nat with (String.length l) by lia.
      replace (i' + String.length l - i')%nat with (String.length l) by lia.
      destruct (String.length l) as [|n].
      * rewrite !Nat.add_0_r, !Nat.eqb_refl. f_equal. apply IH.
      * replace (i + S n =? i)%nat with false by (symmetry; apply Nat.eqb_neq; lia).
        replace (i' + S n =? i')%nat with false by (symmetry; apply Nat.eqb_neq; lia).
        apply IH.
    + f_equal. apply IH.
Qed.

(** A reference does not start inside a piece and end in the reference
    that follows it. *)
Lemma ref_overlap (u after : list ascii) r :
  u ≠ [] →
  strip (chars "](##") (u ++ chars "](##" ++ after) = Some r →
  is_Some (strip (chars "](##") u).
Proof.
  intros Hu. destruct u as [|c0 u]; [done|]. clear Hu.
  change (chars "](##") with [chr 93; chr 40; chr 35; chr 35].
  simpl. destruct (same _ c0); [|done].
  do 3 (destruct u as [|? u]; simpl;
        [try done|destruct (same _ _); [|done]]).
  eauto.
Qed.

Lemma plain_piece (piece : string) p1 p2 :
  plain piece → chars piece = p1 ++ p2 → strip (chars "](##") p2 = None.
Proof. intros H. by apply (test_Lit_false "](##" piece). Qed.

Lemma references_linked by_ whole i (x : string) (rest : list string) :
  chr 36 ∉ chars by_ → Forall plain (x :: rest) →
  replace_loop Pat.ref (chars by_) whole i 0 (chars (JS.join "](##" (x :: rest)))
  = chars (JS.join by_ (x :: rest)).
Proof.
  intros Hby. revert x i. induction rest as [|y rest IH]; intros x i H.
  - apply Forall_cons in H as [Hx _]. simpl. apply replace_pass.
    intros p1 p2 Hs. unfold Pat.ref. rewrite match_at_Lit.
    by rewrite (plain_piece x p1 p2).
  - apply Forall_cons in H as [Hx H].
    change (JS.join "](##" (x :: y :: rest))
      with (x +:+ "](##" +:+ JS.join "](##" (y :: rest)).
    change (JS.join by_ (x :: y :: rest))
      with (x +:+ by_ +:+ JS.join by_ (y :: rest)).
    rewrite !chars_app. unfold Pat.ref. rewrite replace_loop_miss.
    + f_equal. rewrite replace_loop_hit by done. f_equal. by apply IH.
    + intros p1 p2 Hs Hp2. rewrite match_at_Lit.
      destruct (strip (chars "](##") (p2 ++ _)) as [r|] eqn:Hr; [|done].
      apply ref_overlap in Hr as [r' Hr']; [|done].
      by rewrite (plain_piece x p1 p2) in Hr'.
Qed.

Lemma reference_linked (pieces : list string) :
  Forall plain pieces →
  replace_all Pat.ref ("](" +:+ refTarget +:+ "#") (written pieces) = linked pieces.
Proof.
  intros H. destruct pieces as [|x rest]; [done|].
  unfold replace_all, written, linked. rewrite references_linked; [apply text_chars| |done].
  apply (bool_decide_unpack _). by vm_compute.
Qed.

Lemma foldl_append {A} (g : A → string) (acc : string) (l : list A) :
  foldl (λ body x, body +:+ g x) acc l = acc +:+ foldr (λ x rest, g x +:+ rest) "" l.
Proof.
  revert acc. induction l as [|x l IH]; intros acc; simpl.
  - clear. induction acc as [|c acc IH]; [done|].
    change (String c acc = String c (acc +:+ "")). by f_equal.
  - by rewrite IH, append_assoc.
Qed.

Lemma notes_of_part title (messages : list (list string)) :
  Forall (Forall plain) messages →
  notes_of title (written <$> messages) = part title messages.
Proof.
  intros H. unfold notes_of, part. f_equal.
  - by destruct messages.
  - rewrite (foldl_append (λ m, replace_all Pat.ref ("](" +:+ refTarget +:+ "#") m +:+ nlnl)).
    change ("" +:+ ?x) with x.
    induction H as [|m l Hm _ IH]; [done|]. rewrite fmap_cons.
    cbn [foldr]. rewrite reference_linked by done. rewrite append_assoc.
    by rewrite IH.
Qed.

Lemma part_empty title messages : part title messages = "" ↔ messages = [].
Proof.
  split; [|by intros ->]. destruct messages as [|m l]; [done|].
  unfold part. cbn [nonempty]. by change ("### " +:+ ?x) with (String "#" ("## " +:+ x)).
Qed.

Lemma append_empty (s t : string) : s +:+ t = "" ↔ s = "" ∧ t = "".
Proof.
  destruct s as [|c s]; simpl; (split; [done|]).
  - by intros [_ ->].
  - by intros [? _].
Qed.

(** X22. The body of [releaseNotes], for messages in which the references
    [](##] stand between pieces that hold none: the breaking changes come
    first, then the fixes, then the features, each kind under its title
    when it has a message, every message with a blank line after it and
    with each of its references made a link into the reference
    documentation.  The body is empty only when there is no message. *)
Theorem releaseNotes_body E (bs fs es : list (list string)) V :
  Forall (Forall plain) bs → Forall (Forall plain) fs →
  Forall (Forall plain) es →
  let notes :=
    releaseNotes E {| fix_ := written <$> fs; feature := written <$> es;
                      breaking := written <$> bs |} V in
  body notes
  = part "Breaking changes" bs +:+ part "Bug fixes" fs +:+ part "New features" es
  ∧ (body notes = "" ↔ bs = [] ∧ fs = [] ∧ es = []).
Proof.
  intros Hb Hf He notes.
  assert (body notes = part "Breaking changes" bs +:+ part "Bug fixes" fs
                       +:+ part "New features" es) as Hbody.
  { unfold notes, releaseNotes. destruct (today E) as [[year month] day]. simpl.
    by rewrite !notes_of_part. }
  split; [done|]. rewrite Hbody, !append_empty, !part_empty. tauto.
Qed.

Lemma releaseNotes_body_witness :
  body (releaseNotes Sample.E
          {| fix_ := written <$> [["See [parse"; "Parser.parse)."]];
             feature := written <$> []; breaking := written <$> [] |} "1.0.1")
  = "### Bug fixes" +:+ nlnl
    +:+ "See [parse](https://lezer.codemirror.net/docs/ref/#Parser.parse)." +:+ nlnl.
Proof.
  refine (proj1 (releaseNotes_body Sample.E [] [["See [parse"; "Parser.parse)."]] []
                   "1.0.1" _ _ _)).
  - constructor.
  - constructor; [|constructor]. constructor; [by vm_compute|].
    constructor; [by vm_compute|constructor].
  - constructor.
Defined.

(** ** [start] reports what a command throws *)

(** X23. [start] never ends with an exception, for any arguments and in any
    state of the files: what the command throws is caught, printed with
    [console.error], and the process ends with status 1 in the state in
    which the command threw; the only other ends are the return of the
    command and an exit. *)
Theorem start_reports_errors E argv w :
  (∀ e, (start E argv w).1 ≠ Throw e)
  ∧ ∀ f e w',
      cmdFn (argv !! 0%nat) = Some f →
      (∀ n, fn_length f = Some n → (n ≤ List.length (drop 1 argv))%nat) →
      apply E f (drop 1 argv) w = (Throw e, w') →
      start E argv w = (Exit 1, set_trace (λ t, t ++ [LogError (Thrown e)]) w').
Proof.
  split.
  - intros e. unfold start. destruct (cmdFn (argv !! 0%nat)) as [f|]; [|done].
    unfold bind, try_catch.
    destruct (match fn_length f with
              | Some n => bool_decide (List.length (drop 1 argv) < n)%nat
              | None => false
              end); [done|]. simpl.
    by destruct (apply E f (drop 1 argv) w) as [[?|?|?] ?].
  - intros f e w' Hf Hn Ha. unfold start. rewrite Hf.
    replace (match fn_length f with
             | Some n => bool_decide (List.length (drop 1 argv) < n)%nat
             | None => false
             end) with false.
    + unfold bind, try_catch. simpl. by rewrite Ha.
    + destruct (fn_length f) as [n|]; [|done]. symmetry.
      apply bool_decide_eq_false_2. specialize (Hn n eq_refl). lia.
Qed.
